(** * chvm: a shallow embedding of the mapping, downloader, installer and
    lock modules, and the properties of their specification.

    Layout: the first half translates the JavaScript sources function by
    function (one Rocq module per source module, names kept); the second
    half states and proves the properties. *)

From Stdlib Require Import ZArith Lia Ascii String List Sorted DecimalString DecimalZ.
From stdpp Require Import base option list strings gmap.

Local Open Scope string_scope.
Local Open Scope list_scope.
Local Open Scope Z_scope.

(* ===================================================================== *)
(** * Part I. The embedding                                               *)
(* ===================================================================== *)

(** ** JavaScript values and control flow shared by all modules *)
Module Js.

(** How a call ends: it returns a value or throws one. *)
Inductive Completion (E A : Type) : Type :=
| Return (a : A)
| Throw (e : E).
Arguments Return {E A} a.
Arguments Throw {E A} e.

(** [new Error(message)]; only the message is observable here. *)
Record JsError : Type := mkError { message : string }.

(** An [async] function over a mutable world [W]: explicit state passing. *)
Definition Eff (W E A : Type) : Type := W -> Completion E A * W.

Definition ret {W E A} (a : A) : Eff W E A := fun w => (Return a, w).
Definition throw {W E A} (e : E) : Eff W E A := fun w => (Throw e, w).
Definition bind {W E A B} (m : Eff W E A) (k : A -> Eff W E B) : Eff W E B :=
  fun w => match m w with
           | (Return a, w') => k a w'
           | (Throw e, w') => (Throw e, w')
           end.

(** [try { m } catch (error) { handler(error) }] *)
Definition try_catch {W E A} (m : Eff W E A) (handler : E -> Eff W E A) : Eff W E A :=
  fun w => match m w with
           | (Return a, w') => (Return a, w')
           | (Throw e, w') => handler e w'
           end.

(** [try { m } finally { fin }]: [fin] runs on both exits; when [fin]
    itself throws, its error replaces the completion of [m]. *)
Definition try_finally {W E A} (m : Eff W E A) (fin : Eff W E unit) : Eff W E A :=
  fun w => match m w with
           | (c, w') => match fin w' with
                        | (Return _, w'') => (c, w'')
                        | (Throw e, w'') => (Throw e, w'')
                        end
           end.

(** *** Strings and numbers.

    JavaScript numbers are IEEE doubles; the embedding uses [Z], which
    agrees with them on every integer of magnitude up to 2^53.  Version
    components, revision numbers, branch positions, retry counts and
    delays are integers in that range. *)

Definition is_digit (c : ascii) : bool :=
  (48 <=? Z.of_nat (nat_of_ascii c)) && (Z.of_nat (nat_of_ascii c) <=? 57).

Definition digit_value (c : ascii) : Z := Z.of_nat (nat_of_ascii c) - 48.

Fixpoint all_digits (s : string) : bool :=
  match s with
  | EmptyString => true
  | String c r => is_digit c && all_digits r
  end.

(** Value of a run of decimal digits, most significant first. *)
Fixpoint decimal_from (acc : Z) (s : string) : Z :=
  match s with
  | EmptyString => acc
  | String c r => decimal_from (10 * acc + digit_value c) r
  end.

(** [Number(s)] on the strings that reach it here.  [None] is [NaN].
    [Number("")] is 0 and a run of decimal digits has its decimal value;
    the other numeric spellings of JavaScript (signs, exponents, hex,
    surrounding blanks) are not part of the model and fall under [NaN]. *)
Definition Number (s : string) : option Z :=
  if all_digits s then Some (decimal_from 0 s) else None.

(** Longest prefix of decimal digits and the remainder. *)
Fixpoint span_digits (s : string) : string * string :=
  match s with
  | EmptyString => (EmptyString, EmptyString)
  | String c r =>
      if is_digit c
      then let '(d, rest) := span_digits r in (String c d, rest)
      else (EmptyString, s)
  end.

(** [parseInt(s)]: the decimal value of the leading digits, [NaN] when
    there are none (signs, blanks and radix prefixes are not modelled). *)
Definition parseInt (s : string) : option Z :=
  match span_digits s with
  | (EmptyString, _) => None
  | (d, _) => Some (decimal_from 0 d)
  end.

(** [String(n)] for an integer [n]. *)
Definition String_of (n : Z) : string := NilZero.string_of_int (Z.to_int n).

(** [s.split(sep)] for a one-character separator. *)
Fixpoint split (sep : ascii) (s : string) : list string :=
  match s with
  | EmptyString => [EmptyString]
  | String c r =>
      if Ascii.eqb c sep then EmptyString :: split sep r
      else match split sep r with
           | [] => [String c EmptyString]
           | h :: t => String c h :: t
           end
  end.

(** [s.startsWith(q)] *)
Fixpoint startsWith (s q : string) : bool :=
  match q, s with
  | EmptyString, _ => true
  | String _ _, EmptyString => false
  | String b q', String a s' => Ascii.eqb a b && startsWith s' q'
  end.

(** Truthiness of a string-or-null value: [null], [undefined] and the
    empty string are falsy. *)
Definition truthy_string (v : option string) : bool :=
  match v with
  | Some (String _ _) => true
  | _ => false
  end.

(** [Array.prototype.sort(cmp)], a stable sort: [cmp a b <= 0] keeps [a]
    in front of [b].  Stable insertion from the right. *)
Section Sort.
Context {A : Type} (cmp : A -> A -> Z).

Fixpoint insert_sorted (x : A) (l : list A) : list A :=
  match l with
  | [] => [x]
  | y :: l' => if cmp x y <=? 0 then x :: y :: l' else y :: insert_sorted x l'
  end.

Definition sort (l : list A) : list A := foldr insert_sorted [] l.
End Sort.

End Js.

Import Js.

(** ** src/lib/mapping.js: revision to version mapping *)
Module Mapping.

(** *** The remote endpoints.

    [fetch(url)] either rejects (no connection) or resolves to a response
    with its [ok] flag, its [statusText] and a body; [response.json()]
    rejects on a body that is not JSON. *)
Inductive FetchOutcome (D : Type) : Type :=
| Rejected (e : JsError)
| Responded (ok : bool) (statusText : string) (json : Completion JsError D).
Arguments Rejected {D} e.
Arguments Responded {D} ok statusText json.

(** One page of the storage listing: [{prefixes, nextPageToken}]. *)
Record ListingData : Type := mkListing {
  prefixes : option (list string);
  nextPageToken : option string
}.

(** [{revision, platform}] *)
Record RevisionRecord : Type := mkRevision {
  rev_revision : string;
  rev_platform : string
}.

(** A release object of the channel endpoint; absent fields are [None]. *)
Record ChannelRelease : Type := mkRelease {
  rel_version : option string;
  rel_channel : option string;
  chromium_main_branch_position : option Z
}.

(** [{version, revision, channel, platform, hasVersion}] *)
Record CatalogEntry : Type := mkEntry {
  version : option string;
  revision : string;
  channel : option string;
  platform : string;
  hasVersion : bool (* an absent [hasVersion] is falsy: [false] *)
}.

(** The network as one build sees it: the outcomes of the successive
    listing requests, in the order they are issued (once they are used up
    the connection is gone and [fetch] rejects), and the outcome of the
    release request of each channel; a non-array JSON body is [None]. *)
Record Net : Type := mkNet {
  listing : list (FetchOutcome ListingData);
  releases : string -> FetchOutcome (option (list ChannelRelease))
}.

Definition fetch_failed : JsError := mkError "fetch failed".

(** [prefix.match(/Mac_Arm\/(\d+)\//)] anchored at the start of [s]. *)
Fixpoint strip_prefix (p s : string) : option string :=
  match p, s with
  | EmptyString, _ => Some s
  | String a p', String b s' => if Ascii.eqb a b then strip_prefix p' s' else None
  | String _ _, EmptyString => None
  end.

Definition match_here (s : string) : option string :=
  match strip_prefix "Mac_Arm/" s with
  | Some r =>
      match span_digits r with
      | (String c d, String "/" _) => Some (String c d)
      | _ => None
      end
  | None => None
  end.

(** The first match of the pattern anywhere in [s]: its capture group. *)
Fixpoint match_revision (s : string) : option string :=
  match match_here s with
  | Some d => Some d
  | None => match s with
            | EmptyString => None
            | String _ r => match_revision r
            end
  end.

(** [a.slice(0, limit)] *)
Fixpoint slice0 {A} (limit : N) (l : list A) : list A :=
  match l with
  | [] => []
  | x :: l' => if (limit =? 0)%N then [] else x :: slice0 (N.pred limit) l'
  end.

(** The [do ... while (pageToken)] loop of [fetchRevisions]: one iteration
    per listing request. *)
Fixpoint fetchRevisions_loop (limit : option N) (allRevisions : list RevisionRecord)
    (pages : list (FetchOutcome ListingData)) : Completion JsError (list RevisionRecord) :=
  match pages with
  | [] => Throw fetch_failed
  | Rejected e :: _ => Throw e
  | Responded ok statusText json :: pages' =>
      if negb ok then Throw (mkError ("Failed to fetch revisions: " +:+ statusText))
      else match json with
           | Throw e => Throw e
           | Return data =>
               let revisions : list RevisionRecord :=
                 omap (fun prefix =>
                         match match_revision prefix with
                         | Some m => Some (mkRevision m "Mac_Arm")
                         | None => None
                         end) (default [] (prefixes data)) in
               let allRevisions := allRevisions ++ revisions in
               let pageToken := nextPageToken data in
               match limit with
               | Some (Npos l) =>
                   if (Npos l <=? N.of_nat (length allRevisions))%N
                   then Return (slice0 (Npos l) allRevisions)
                   else if truthy_string pageToken
                        then fetchRevisions_loop limit allRevisions pages'
                        else Return allRevisions
               | _ =>
                   if truthy_string pageToken
                   then fetchRevisions_loop limit allRevisions pages'
                   else Return allRevisions
               end
           end
  end.

Definition fetchRevisions (limit : option N) (net : Net) : Completion JsError (list RevisionRecord) :=
  fetchRevisions_loop limit [] (listing net).

Definition fetchVersionMapping (channel : string) (net : Net) : Completion JsError (list ChannelRelease) :=
  match releases net channel with
  | Rejected e => Throw e
  | Responded ok statusText json =>
      if negb ok then Throw (mkError ("Failed to fetch version mapping: " +:+ statusText))
      else match json with
           | Throw e => Throw e
           | Return data => Return (default [] data)
           end
  end.

(** [promise.catch(() => [])] *)
Definition catch_empty {A} (c : Completion JsError (list A)) : list A :=
  match c with
  | Return l => l
  | Throw _ => []
  end.

(** *** compareVersions *)

(** [parts[i] || 0]: an index past the end reads [undefined], and
    [undefined], [NaN] and 0 are falsy. *)
Definition part_or_zero (parts : list (option Z)) (i : nat) : Z :=
  match parts !! i with
  | Some (Some n) => n
  | _ => 0
  end.

(** The [for (let i = 0; i < maxLength; i++)] loop, [n] iterations left. *)
Fixpoint compare_parts (n : nat) (i : nat) (parts1 parts2 : list (option Z)) : Z :=
  match n with
  | O => 0
  | S n' =>
      let part1 := part_or_zero parts1 i in
      let part2 := part_or_zero parts2 i in
      if part1 >? part2 then 1
      else if part1 <? part2 then -1
      else compare_parts n' (S i) parts1 parts2
  end.

Definition version_parts (v : string) : list (option Z) := map Number (split "." v).

Definition compareVersions (v1 v2 : option string) : Z :=
  match v1, v2 with
  | Some (String a1 r1), Some (String a2 r2) =>
      let parts1 := version_parts (String a1 r1) in
      let parts2 := version_parts (String a2 r2) in
      let maxLength := Nat.max (length parts1) (length parts2) in
      compare_parts maxLength 0 parts1 parts2
  | Some (String _ _), _ => 1
  | _, _ => -1
  end.

(** *** resolveVersion *)

Definition version_is (query : string) (item : CatalogEntry) : bool :=
  bool_decide (version item = Some query).

Definition revision_is (query : string) (item : CatalogEntry) : bool :=
  bool_decide (revision item = query).

(** [item.version && item.version.startsWith(query)] *)
Definition version_starts (query : string) (item : CatalogEntry) : bool :=
  match version item with
  | Some (String a r) => startsWith (String a r) query
  | _ => false
  end.

Definition resolveVersion (query : string) (available : list CatalogEntry) : option CatalogEntry :=
  match available with
  | [] => None
  | _ :: _ =>
      if bool_decide (query = "latest") then
        let versioned := filter (fun item => hasVersion item = true) available in
        match versioned with
        | first :: _ => Some first
        | [] => available !! 0%nat
        end
      else if bool_decide (query = "oldest") then
        available !! (length available - 1)%nat
      else
        match find (version_is query) available with
        | Some m => Some m
        | None =>
            match find (revision_is query) available with
            | Some m => Some m
            | None => find (version_starts query) available
            end
        end
  end.

(** *** buildAvailableVersions *)

(** The values of [positionMap]: [{version, channel}]. *)
Record VersionInfo : Type := mkInfo {
  info_version : option string;
  info_channel : option string
}.

(** One turn of [for (const release of allReleases)]: a truthy position
    that is not yet a key is recorded (the first release seen wins). *)
Definition record_release (positionMap : gmap string VersionInfo) (release : ChannelRelease)
    : gmap string VersionInfo :=
  match chromium_main_branch_position release with
  | Some position =>
      if position =? 0 then positionMap
      else
        let key := String_of position in
        match positionMap !! key with
        | Some _ => positionMap
        | None => <[key := mkInfo (rel_version release) (rel_channel release)]> positionMap
        end
  | None => positionMap
  end.

Definition build_positionMap (allReleases : list ChannelRelease) : gmap string VersionInfo :=
  foldl record_release ∅ allReleases.

(** [String(revNum + offset)] where [revNum] may be [NaN]. *)
Definition String_num (x : option Z) : string :=
  match x with
  | Some n => String_of n
  | None => "NaN"
  end.

(** [for (let offset = 1; offset <= 50 && !versionInfo; offset++)], with
    [n] iterations left: the position above is tried before the one below. *)
Fixpoint probe (positionMap : gmap string VersionInfo) (revNum : option Z) (n : nat) (offset : Z)
    : option VersionInfo :=
  match n with
  | O => None
  | S n' =>
      match positionMap !! String_num ((fun r => r + offset) <$> revNum) with
      | Some info => Some info
      | None =>
          match positionMap !! String_num ((fun r => r - offset) <$> revNum) with
          | Some info => Some info
          | None => probe positionMap revNum n' (offset + 1)
          end
      end
  end.

Definition find_versionInfo (positionMap : gmap string VersionInfo) (rev : RevisionRecord)
    : option VersionInfo :=
  match positionMap !! rev_revision rev with
  | Some info => Some info
  | None => probe positionMap (parseInt (rev_revision rev)) 50 1
  end.

(** One turn of [for (const rev of revisions)]: a push onto [versioned] or
    onto [unversioned]. *)
Definition classify (positionMap : gmap string VersionInfo)
    (groups : list CatalogEntry * list CatalogEntry) (rev : RevisionRecord)
    : list CatalogEntry * list CatalogEntry :=
  let '(versioned, unversioned) := groups in
  match find_versionInfo positionMap rev with
  | Some versionInfo =>
      (versioned ++ [mkEntry (info_version versionInfo) (rev_revision rev)
                             (info_channel versionInfo) "Mac_Arm" true],
       unversioned)
  | None =>
      (versioned,
       unversioned ++ [mkEntry None (rev_revision rev) None "Mac_Arm" false])
  end.

(** [(a, b) => compareVersions(b.version, a.version)] *)
Definition by_version_desc (a b : CatalogEntry) : Z :=
  compareVersions (version b) (version a).

(** [(a, b) => parseInt(b.revision) - parseInt(a.revision)]; a [NaN]
    difference counts as 0 for [sort]. *)
Definition by_revision_desc (a b : CatalogEntry) : Z :=
  match parseInt (revision b), parseInt (revision a) with
  | Some x, Some y => x - y
  | _, _ => 0
  end.

(** Steps 3 and 4 and the two sorts, on the fetched data. *)
Definition assemble (revisions : list RevisionRecord) (allReleases : list ChannelRelease)
    : list CatalogEntry :=
  let positionMap := build_positionMap allReleases in
  let '(versioned, unversioned) := foldl (classify positionMap) ([], []) revisions in
  sort by_version_desc versioned ++ sort by_revision_desc unversioned.

Definition buildAvailableVersions (net : Net) : Completion JsError (list CatalogEntry) :=
  match fetchRevisions (Some 9999992000%N) net with
  | Throw e => Throw e
  | Return revisions =>
      let stableReleases := catch_empty (fetchVersionMapping "Stable" net) in
      let betaReleases := catch_empty (fetchVersionMapping "Beta" net) in
      let devReleases := catch_empty (fetchVersionMapping "Dev" net) in
      let canaryReleases := catch_empty (fetchVersionMapping "Canary" net) in
      let allReleases := stableReleases ++ betaReleases ++ devReleases ++ canaryReleases in
      Return (assemble revisions allReleases)
  end.

(** *** mergeRevisionsWithVersions *)

(** A release object as [mergeRevisionsWithVersions] reads it: it also
    looks at [platform]. *)
Record VersionMapping : Type := mkMapping {
  vm_version : option string;
  vm_channel : option string;
  vm_position : option Z;
  vm_platform : option string
}.

(** The values of [versionMap]: [{version, channel, platform}]. *)
Record MappingInfo : Type := mkMappingInfo {
  mi_version : option string;
  mi_channel : option string;
  mi_platform : string
}.

(** [{revision, version, channel, platform}] *)
Record MergedEntry : Type := mkMerged {
  merged_revision : string;
  merged_version : option string;
  merged_channel : option string;
  merged_platform : string
}.

(** [v || null] for a string-or-absent [v]. *)
Definition or_null (v : option string) : option string :=
  if truthy_string v then v else None.

(** One turn of [for (const mapping of versionMappings)]: [Map.set]
    replaces what the key held. *)
Definition set_mapping (versionMap : gmap string MappingInfo) (mapping : VersionMapping)
    : gmap string MappingInfo :=
  match vm_position mapping with
  | Some position =>
      if position =? 0 then versionMap
      else <[String_of position :=
               mkMappingInfo (vm_version mapping) (vm_channel mapping)
                             (if truthy_string (vm_platform mapping)
                              then default "Mac" (vm_platform mapping) else "Mac")]> versionMap
  | None => versionMap
  end.

Definition mergeRevisionsWithVersions (revisions : list RevisionRecord)
    (versionMappings : list VersionMapping) : list MergedEntry :=
  let versionMap := foldl set_mapping ∅ versionMappings in
  List.filter
    (fun item => match merged_version item with Some _ => true | None => false end)
    (map (fun rev =>
            let versionInfo := versionMap !! rev_revision rev in
            mkMerged (rev_revision rev)
                     (or_null (versionInfo ≫= mi_version))
                     (or_null (versionInfo ≫= mi_channel))
                     (rev_platform rev))
         revisions).

End Mapping.

(** ** The file system the modules run against (Node's [fs])

    A name space of directories and regular files.  The operations are
    deterministic: they fail for the reasons that can be read off the name
    space (a missing source, a directory in the place of a file, ...), not
    for want of permissions or of room on the disk. *)
Module Fs.

(** A path is its list of components, [join(p, c)] is [p ++ [c]]. *)
Definition Path : Type := list string.

Inductive Node : Type :=
| File (content : string)
| Dir.

(** The name space: every entry with its node, in the order in which the
    file system lists them (the order [opendir] yields within a
    directory).  The model lists a new entry last; actual file systems
    order a directory in their own way, by a hash of the names for
    instance.  The order matters to one thing only: what a recursive copy
    has written by the time it stops on an error. *)
Abbreviation FS := (list (Path * Node)).

Definition EEXIST : JsError := mkError "EEXIST".
Definition ENOENT : JsError := mkError "ENOENT".
Definition ENOTDIR : JsError := mkError "ENOTDIR".
Definition EISDIR : JsError := mkError "EISDIR".
Definition ENOTEMPTY : JsError := mkError "ENOTEMPTY".
Definition EINVAL : JsError := mkError "EINVAL".
Definition ERR_FS_CP_EINVAL : JsError := mkError "ERR_FS_CP_EINVAL".
Definition ERR_FS_CP_DIR_TO_NON_DIR : JsError := mkError "ERR_FS_CP_DIR_TO_NON_DIR".
Definition ERR_FS_CP_NON_DIR_TO_DIR : JsError := mkError "ERR_FS_CP_NON_DIR_TO_DIR".

Fixpoint lookup_entry (p : Path) (fs : FS) : option Node :=
  match fs with
  | [] => None
  | (q, n) :: rest => if bool_decide (q = p) then Some n else lookup_entry p rest
  end.

(** The node at [p]; the root is a directory that is always there. *)
Definition node_at (fs : FS) (p : Path) : option Node :=
  match p with
  | [] => Some Dir
  | _ :: _ => lookup_entry p fs
  end.

(** [existsSync(p)] *)
Definition existsSync (p : Path) (fs : FS) : bool :=
  match node_at fs p with
  | Some _ => true
  | None => false
  end.

(** [statSync(p).size] of a node.  The size of a directory depends on the
    file system and is left at 0; only regular files matter here. *)
Definition st_size (n : Node) : Z :=
  match n with
  | File content => Z.of_nat (String.length content)
  | Dir => 0
  end.

(** Everything at or below [p]. *)
Definition subtree (p : Path) (fs : FS) : FS :=
  filter (fun e => p `prefix_of` e.1) fs.

Definition parent (p : Path) : Path := take (length p - 1)%nat p.

(** Put [n] at [p]: in place when [p] is listed, at the end otherwise. *)
Fixpoint write_node (p : Path) (n : Node) (fs : FS) : FS :=
  match fs with
  | [] => [(p, n)]
  | (q, m) :: rest =>
      if bool_decide (q = p) then (q, n) :: rest else (q, m) :: write_node p n rest
  end.

(** [fs.mkdir(p, {recursive: true})], component by component below [pre]:
    existing directories are kept, missing ones created, and a regular
    file in the way is an error. *)
Fixpoint mkdir_from (pre : Path) (rest : list string) : Eff FS JsError unit :=
  match rest with
  | [] => ret tt
  | c :: rest' =>
      fun fs =>
        let q := pre ++ [c] in
        match node_at fs q with
        | Some (File _) => (Throw (match rest' with [] => EEXIST | _ => ENOTDIR end), fs)
        | Some Dir => mkdir_from q rest' fs
        | None => mkdir_from q rest' (fs ++ [(q, Dir)])
        end
  end.

Definition mkdir_recursive (p : Path) : Eff FS JsError unit := mkdir_from [] p.

(** [fs.rm(p, {recursive: true, force: true})]: [p] and all below it go;
    a missing [p] is not an error. *)
Definition rm_recursive_force (p : Path) : Eff FS JsError unit :=
  fun fs => (Return tt, filter (fun e => ¬ p `prefix_of` e.1) fs).

Definition is_empty_dir (p : Path) (fs : FS) : bool :=
  forallb (fun e => bool_decide (e.1 = p) || negb (bool_decide (p `prefix_of` e.1))) fs.

(** Move the entries at or below [src] to the same place below [dst]. *)
Definition reroot (src dst : Path) (e : Path * Node) : Path * Node :=
  if bool_decide (src `prefix_of` e.1) then (dst ++ drop (length src) e.1, e.2) else e.

(** [fs.rename(src, dst)] (POSIX rename): atomic, it either happens or
    leaves the name space as it was.  It replaces a regular file by a
    regular file and an empty directory by a directory, and refuses a
    missing source, a missing parent of [dst], a non-empty directory at
    [dst], mismatched kinds and a move of a directory below itself. *)
Definition rename (src dst : Path) : Eff FS JsError unit :=
  fun fs =>
    match src, node_at fs src with
    | [], _ => (Throw EINVAL, fs)
    | _, None => (Throw ENOENT, fs)
    | _, Some n =>
        if bool_decide (src = dst) then (Return tt, fs)
        else if bool_decide (src `prefix_of` dst) then (Throw EINVAL, fs)
        else
          match dst, node_at fs (parent dst), node_at fs dst with
          | [], _, _ => (Throw EINVAL, fs)
          | _, None, _ => (Throw ENOENT, fs)
          | _, Some (File _), _ => (Throw ENOTDIR, fs)
          | _, Some Dir, Some Dir =>
              match n with
              | File _ => (Throw EISDIR, fs)
              | Dir =>
                  if is_empty_dir dst fs
                  then (Return tt, reroot src dst <$> filter (fun e => ¬ dst `prefix_of` e.1) fs)
                  else (Throw ENOTEMPTY, fs)
              end
          | _, Some Dir, Some (File _) =>
              match n with
              | Dir => (Throw ENOTDIR, fs)
              | File _ => (Return tt, reroot src dst <$> filter (fun e => ¬ dst `prefix_of` e.1) fs)
              end
          | _, Some Dir, None => (Return tt, reroot src dst <$> fs)
          end
    end.

(** The copy loop of [fs.cp]: the entries of the source, one after the
    other in the order the file system lists them.  A directory is created unless it is there, a
    regular file is written over the regular file at its target
    ([force] defaults to true); a directory meeting a regular file, or the
    reverse, stops the copy with what was written so far left in place. *)
Fixpoint copy_entries (src dst : Path) (entries : list (Path * Node)) : Eff FS JsError unit :=
  match entries with
  | [] => ret tt
  | (q, n) :: rest =>
      fun fs =>
        let target := dst ++ drop (length src) q in
        match n, node_at fs target with
        | Dir, Some (File _) => (Throw ERR_FS_CP_DIR_TO_NON_DIR, fs)
        | File _, Some Dir => (Throw ERR_FS_CP_NON_DIR_TO_DIR, fs)
        | Dir, Some Dir => copy_entries src dst rest fs
        | _, _ => copy_entries src dst rest (write_node target n fs)
        end
  end.

(** [fs.cp(src, dst, {recursive: true})]: missing parents of [dst] are
    created, an existing directory at [dst] is merged into. *)
Definition cp_recursive (src dst : Path) : Eff FS JsError unit :=
  fun fs =>
    match src, node_at fs src with
    | [], _ => (Throw ERR_FS_CP_EINVAL, fs)
    | _, None => (Throw ENOENT, fs)
    | _, Some _ =>
        if bool_decide (src `prefix_of` dst) then (Throw ERR_FS_CP_EINVAL, fs)
        else bind (mkdir_recursive (parent dst))
                  (fun _ => copy_entries src dst (subtree src fs)) fs
    end.

(** [fs.writeFile(p, content)]: the parent must be a directory and [p]
    must not be one. *)
Definition writeFile (p : Path) (content : string) : Eff FS JsError unit :=
  fun fs =>
    match p, node_at fs (parent p), node_at fs p with
    | [], _, _ => (Throw EISDIR, fs)
    | _, None, _ => (Throw ENOENT, fs)
    | _, Some (File _), _ => (Throw ENOTDIR, fs)
    | _, Some Dir, Some Dir => (Throw EISDIR, fs)
    | _, Some Dir, _ => (Return tt, write_node p (File content) fs)
    end.

End Fs.

(** ** src/lib/installer.js: atomic install *)
Module Installer.
Import Fs.

Definition moveDirectory (source dest : Path) : Eff FS JsError unit :=
  try_catch (rename source dest)
            (fun _ => bind (cp_recursive source dest)
                           (fun _ => rm_recursive_force source)).

Definition cleanupTempDirectory (tmpDir : Path) : Eff FS JsError unit :=
  fun fs => if existsSync tmpDir fs then rm_recursive_force tmpDir fs else (Return tt, fs).

(** [join(chvmHome, 'tmp', `install-${randomBytes(8).toString('hex')}`)],
    [hex] being the sixteen hexadecimal characters drawn by this call. *)
Definition tmpDir_of (chvmHome : Path) (hex : string) : Path :=
  chvmHome ++ ["tmp"; "install-" +:+ hex].

Definition atomicInstall (installFn : Path -> Eff FS JsError Path) (finalPath chvmHome : Path)
    (hex : string) : Eff FS JsError unit :=
  let tmpDir := tmpDir_of chvmHome hex in
  try_catch
    (bind (mkdir_recursive tmpDir) (fun _ =>
     bind (installFn tmpDir) (fun installedPath =>
     bind (moveDirectory installedPath finalPath) (fun _ =>
     cleanupTempDirectory tmpDir))))
    (fun error fs =>
       if existsSync tmpDir fs
       then bind (cleanupTempDirectory tmpDir) (fun _ => throw error) fs
       else throw error fs).

End Installer.

(** ** src/lib/downloader.js: retry and validation *)
Module Downloader.
Import Fs.

(** *** retryFetch *)

(** What an observer of one call sees: the operation being invoked and
    the [setTimeout] waits, in order. *)
Inductive Event : Type :=
| Invoked
| Slept (waitTime : Z).

(** The world of a retry: the state the operation works on and the
    events so far. *)
Record RetryWorld (St : Type) : Type := mkRetry {
  op_state : St;
  trace : list Event
}.
Arguments mkRetry {St} op_state trace.
Arguments op_state {St} r.
Arguments trace {St} r.

(** [{retries = 3, delay = 1000, backoff = 2}]: an absent key is [None]. *)
Record RetryOptions : Type := mkOptions {
  retries : option Z;
  delay : option Z;
  backoff : option Z
}.

Section Retry.
Context {St E R : Type}.
Variable fetchFn : Eff St E R.
Variables retries_ delay_ backoff_ : Z.

(** The [for (let attempt = 0; attempt <= retries; attempt++)] loop with
    [n] iterations left; [lastError] is [undefined] ([None]) at first. *)
Fixpoint retry_from (n : nat) (attempt : Z) (lastError : option E)
    : Eff (RetryWorld St) (option E) R :=
  fun w =>
    match n with
    | O => (Throw lastError, w)
    | S n' =>
        let '(c, s) := fetchFn (op_state w) in
        let w1 := mkRetry s (trace w ++ [Invoked]) in
        match c with
        | Return r => (Return r, w1)
        | Throw error =>
            let w2 :=
              if attempt <? retries_
              then mkRetry s (trace w1 ++ [Slept (delay_ * backoff_ ^ attempt)])
              else w1 in
            retry_from n' (attempt + 1) (Some error) w2
        end
    end.
End Retry.

Definition retryFetch {St E R} (fetchFn : Eff St E R) (options : RetryOptions)
    : Eff (RetryWorld St) (option E) R :=
  let retries := default 3 (retries options) in
  let delay := default 1000 (delay options) in
  let backoff := default 2 (backoff options) in
  retry_from fetchFn retries delay backoff (Z.to_nat (retries + 1)) 0 None.

(** *** validateDownload *)

(** The [expectedSize] option as the caller passed it. *)
Inductive ExpectedSize : Type :=
| Absent
| Null
| Size (n : Z).

(** [{valid, size}] *)
Record Validation : Type := mkValidation {
  valid : bool;
  size : Z
}.

(** The truthy values of [expectedSize], as a number. *)
Definition truthy_size (expectedSize : ExpectedSize) : option Z :=
  match expectedSize with
  | Size n => if n =? 0 then None else Some n
  | _ => None
  end.

Definition validateDownload (filePath : Path) (expectedSize : ExpectedSize) (fs : FS)
    : Completion JsError Validation :=
  match node_at fs filePath with
  | None => Throw (mkError "Downloaded file does not exist")
  | Some stats =>
      match truthy_size expectedSize with
      | Some expected =>
          if bool_decide (st_size stats ≠ expected)
          then Throw (mkError ("File size mismatch: expected " +:+ String_of expected
                               +:+ ", got " +:+ String_of (st_size stats)))
          else Return (mkValidation true (st_size stats))
      | None => Return (mkValidation true (st_size stats))
      end
  end.

End Downloader.

(** ** src/lib/lock.js: file locking *)
Module Lock.
Import Fs.

(** *** The lock library ([proper-lockfile]) as this module uses it.

    A lock on [file] is the library's marker for [file], stamped with the
    time it was taken; [lock] resolves to a release function, modelled by
    the handle it closes over. *)
Record Held : Type := mkHeld {
  held_id : nat;
  mtime : Z
}.

Record Handle : Type := mkHandle {
  handle_file : Path;
  handle_id : nat
}.

(** The part of the machine the lock module touches: the files, the
    markers of the library, the clock ([Date.now()]), [process.pid] and
    the supply of fresh handles. *)
Record LockWorld : Type := mkLockWorld {
  files : FS;
  markers : gmap Path Held;
  now : Z;
  pid : Z;
  next_id : nat
}.

Definition take_lock (file : Path) (w : LockWorld) : Completion JsError Handle * LockWorld :=
  (Return (mkHandle file (next_id w)),
   mkLockWorld (files w) (<[file := mkHeld (next_id w) (now w)]> (markers w))
               (now w) (pid w) (S (next_id w))).

(** [options.stale = Math.max(options.stale || 0, 2000)]: the library
    never takes a marker for stale before it is 2000 ms old. *)
Definition stale_of (stale : Z) : Z := Z.max stale 2000.

(** [lockfile.lock(file, {retries, stale, realpath: false})]: a free or
    stale marker is taken at once; a live one makes the call fail once the
    retries are spent (the waiting itself is not modelled: the clock stands
    still during a call, so a marker that is live when the call starts is
    live at every retry). *)
Definition lockfile_lock (file : Path) (retries stale : Z) : Eff LockWorld JsError Handle :=
  fun w =>
    match markers w !! file with
    | Some h =>
        if mtime h <? now w - stale_of stale then take_lock file w
        else (Throw (mkError "Lock file is already being held"), w)
    | None => take_lock file w
    end.

(** The release function returned by [lock]: it removes the marker it
    stands for, and fails when that is no longer there. *)
Definition release_handle (h : Handle) : Eff LockWorld JsError unit :=
  fun w =>
    match markers w !! handle_file h with
    | Some m =>
        if bool_decide (held_id m = handle_id h)
        then (Return tt,
              mkLockWorld (files w) (delete (handle_file h) (markers w)) (now w) (pid w) (next_id w))
        else (Throw (mkError "Lock is already released"), w)
    | None => (Throw (mkError "Lock is already released"), w)
    end.

(** [lockfile.check(file, {stale})] *)
Definition lockfile_check (file : Path) (stale : Z) (w : LockWorld) : bool :=
  match markers w !! file with
  | Some h => negb (mtime h <? now w - stale_of stale)
  | None => false
  end.

(** *** The module itself *)

(** [{timeout = 5000, staleTimeout = 60000}] *)
Record LockOptions : Type := mkLockOptions {
  timeout : option Z;
  staleTimeout : option Z
}.

Definition quote : string := String (ascii_of_nat 34) EmptyString.

(** [JSON.stringify({pid, timestamp})] *)
Definition lock_json (pid timestamp : Z) : string :=
  "{" +:+ quote +:+ "pid" +:+ quote +:+ ":" +:+ String_of pid +:+ ","
      +:+ quote +:+ "timestamp" +:+ quote +:+ ":" +:+ String_of timestamp +:+ "}".

Definition on_files {A} (m : Eff FS JsError A) : Eff LockWorld JsError A :=
  fun w =>
    let '(c, fs) := m (files w) in
    (c, mkLockWorld fs (markers w) (now w) (pid w) (next_id w)).

Definition lockFile_of (chvmHome : Path) : Path := chvmHome ++ ["chvm.lock"].

Definition acquireLock (chvmHome : Path) (options : LockOptions) : Eff LockWorld JsError Handle :=
  let timeout := default 5000 (timeout options) in
  let staleTimeout := default 60000 (staleTimeout options) in
  let lockFile := lockFile_of chvmHome in
  bind (fun w =>
          if negb (existsSync lockFile (files w))
          then on_files (writeFile lockFile (lock_json (pid w) (now w))) w
          else (Return tt, w))
       (fun _ =>
          try_catch (lockfile_lock lockFile (timeout / 100) staleTimeout)
                    (fun error => throw (mkError ("Failed to acquire lock: " +:+ message error)))).

(** What [releaseLock] is handed: a release function or anything else. *)
Inductive ReleaseArg : Type :=
| ReleaseFn (h : Handle)
| NotAFunction.

Definition releaseLock (release : ReleaseArg) : Eff LockWorld JsError unit :=
  match release with
  | ReleaseFn h => release_handle h
  | NotAFunction => ret tt
  end.

(** [fn] is code of the caller: it runs on the same machine, where it
    can ask whether the lock is held, write files and call the lock
    module, and it has variables of its own, the state [St].  The lock
    module does not look at [St]. *)
Definition on_lock {St A} (m : Eff LockWorld JsError A) : Eff (LockWorld * St) JsError A :=
  fun ws => let '(c, w) := m ws.1 in (c, (w, ws.2)).

Definition withLock {St A} (chvmHome : Path) (fn : Eff (LockWorld * St) JsError A)
    (options : LockOptions) : Eff (LockWorld * St) JsError A :=
  bind (on_lock (acquireLock chvmHome options))
       (fun release =>
          try_finally (bind fn (fun result => ret result))
                      (on_lock (releaseLock (ReleaseFn release)))).

Definition isLocked (chvmHome : Path) (options : LockOptions) (w : LockWorld) : bool :=
  let staleTimeout := default 60000 (staleTimeout options) in
  let lockFile := lockFile_of chvmHome in
  if negb (existsSync lockFile (files w)) then false
  else lockfile_check lockFile staleTimeout w.

End Lock.

(** ** src/lib/downloader.js: the streaming download *)
Module Download.
Import Fs.

(** [{downloaded, total, percentage}] *)
Record Progress : Type := mkProgress {
  downloaded : Z;
  total : Z;
  percentage : Z
}.

(** How the body of a response ends: [reader.read()] reports [done], or
    rejects. *)
Inductive BodyEnd : Type :=
| Done
| Broken (e : JsError).

(** A body: the chunks [reader.read()] yields, then its end. *)
Record Body : Type := mkBody {
  chunks : list string;
  ending : BodyEnd
}.

Record Response : Type := mkResponse {
  ok : bool;
  statusText : string;
  content_length : option string; (* [headers.get('content-length')] *)
  body : option Body
}.

(** [fetch(url)] rejects or resolves to a response. *)
Inductive Fetched : Type :=
| FetchRejected (e : JsError)
| FetchResolved (response : Response).

(** [createWriteStream(p)]: the file is created, or emptied when it is
    there.  A destination that cannot be opened makes the stream emit an
    error later on, once the chunks have been read and reported; the
    model shows that error thrown at the opening, so it describes the
    download faithfully for the destinations that open only, which is what
    the properties below assume. *)
Definition createWriteStream (p : Path) : Eff FS JsError unit := writeFile p "".

(** [fileStream.write(value)]: the bytes go to the end of the file. *)
Definition stream_write (p : Path) (value : string) (fs : FS) : FS :=
  match node_at fs p with
  | Some (File content) => write_node p (File (content +:+ value)) fs
  | _ => fs
  end.

Section DownloadWithProgress.
Context {U : Type}.
(** [Math.round((downloadedSize / totalSize) * 100)], a computation on
    doubles, kept as a parameter. *)
Variable round_percent : Z -> Z -> Z.
Variable outputPath : Path.
(** [onProgress], when given, works on the state [U] of the caller. *)
Variable onProgress : option (Progress -> Eff U JsError unit).
(** [totalSize]; [None] is [NaN]. *)
Variable totalSize : option Z.

Definition total_known : option Z :=
  match totalSize with
  | Some t => if t >? 0 then Some t else None
  | None => None
  end.

(** The [while (true)] loop, one turn per chunk. *)
Fixpoint read_loop (values : list string) (ending : BodyEnd) (downloadedSize : Z)
    : Eff (FS * U) JsError unit :=
  match values with
  | [] =>
      match ending with
      | Done => ret tt
      | Broken e => throw e
      end
  | value :: rest =>
      fun w =>
        let fs := stream_write outputPath value w.1 in
        let downloadedSize := downloadedSize + Z.of_nat (String.length value) in
        match onProgress, total_known with
        | Some callback, Some t =>
            match callback (mkProgress downloadedSize t (round_percent downloadedSize t)) w.2 with
            | (Return _, u) => read_loop rest ending downloadedSize (fs, u)
            | (Throw e, u) => (Throw e, (fs, u))
            end
        | _, _ => read_loop rest ending downloadedSize (fs, w.2)
        end
  end.
End DownloadWithProgress.

Definition downloadWithProgress {U} (round_percent : Z -> Z -> Z) (fetched : Fetched)
    (outputPath : Path) (onProgress : option (Progress -> Eff U JsError unit))
    : Eff (FS * U) JsError unit :=
  fun w =>
    match fetched with
    | FetchRejected e => (Throw e, w)
    | FetchResolved response =>
        if negb (ok response)
        then (Throw (mkError ("Failed to download: " +:+ statusText response)), w)
        else
          let totalSize :=
            parseInt (if truthy_string (content_length response)
                      then default "0" (content_length response) else "0") in
          match createWriteStream outputPath w.1 with
          | (Throw e, fs) => (Throw e, (fs, w.2))
          | (Return _, fs) =>
              match body response with
              | None => (Throw (mkError "Response body is null"), (fs, w.2))
              | Some b =>
                  read_loop round_percent outputPath onProgress totalSize
                            (chunks b) (ending b) 0 (fs, w.2)
              end
          end
    end.

End Download.


(** ** More of Node's [fs], for the logger, the storage and the bundle check *)
Module FsMore.
Import Fs.

Definition EPERM : JsError := mkError "EPERM".

(** [appendFileSync(p, data)]: the data goes to the end of the file,
    which is created when missing; the parent must be a directory and [p]
    must not be one. *)
Definition appendFileSync (p : Path) (data : string) : Eff FS JsError unit :=
  fun fs =>
    match p, node_at fs (parent p), node_at fs p with
    | [], _, _ => (Throw EISDIR, fs)
    | _, None, _ => (Throw ENOENT, fs)
    | _, Some (File _), _ => (Throw ENOTDIR, fs)
    | _, Some Dir, Some Dir => (Throw EISDIR, fs)
    | _, Some Dir, Some (File content) => (Return tt, write_node p (File (content +:+ data)) fs)
    | _, Some Dir, None => (Return tt, write_node p (File data) fs)
    end.

(** [fs.readFile(p, 'utf8')] *)
Definition readFile (p : Path) (fs : FS) : Completion JsError string :=
  match node_at fs p with
  | Some (File content) => Return content
  | Some Dir => Throw EISDIR
  | None => Throw ENOENT
  end.

(** [fs.unlink(p)]: removes a regular file; a directory is refused. *)
Definition unlink (p : Path) : Eff FS JsError unit :=
  fun fs =>
    match node_at fs p with
    | Some (File _) => (Return tt, filter (fun e => e.1 <> p) fs)
    | Some Dir => (Throw EPERM, fs)
    | None => (Throw ENOENT, fs)
    end.

(** [fs.readdir(p)]: the names of the entries directly below [p], in
    listing order. *)
Definition readdir (p : Path) (fs : FS) : Completion JsError (list string) :=
  match node_at fs p with
  | Some Dir =>
      Return (omap (fun e => if bool_decide (e.1 <> [] /\ parent e.1 = p)
                             then last e.1 else None) fs)
  | Some (File _) => Throw ENOTDIR
  | None => Throw ENOENT
  end.

End FsMore.

(** ** src/lib/logger.js: logging to a file *)
Module Logger.
Import Fs FsMore.

(** The object literal [LOG_LEVELS]: its own properties, the four
    levels. *)
Definition LOG_LEVELS (name : string) : option Z :=
  if bool_decide (name = "debug") then Some 0
  else if bool_decide (name = "info") then Some 1
  else if bool_decide (name = "warn") then Some 2
  else if bool_decide (name = "error") then Some 3
  else None.

(** The names every object inherits from [Object.prototype]. *)
Definition Object_prototype : list string :=
  ["constructor"; "__defineGetter__"; "__defineSetter__"; "hasOwnProperty";
   "__lookupGetter__"; "__lookupSetter__"; "isPrototypeOf"; "propertyIsEnumerable";
   "toString"; "valueOf"; "__proto__"; "toLocaleString"].

(** What reading [LOG_LEVELS] can give: the number of a level or, under an
    inherited name, a function (under [__proto__] an object), which is
    truthy and is [NaN] when it is compared as a number. *)
Inductive LevelValue : Type :=
| Num (n : Z)
| Inherited.

(** [LOG_LEVELS[name]]; [None] is [undefined]. *)
Definition read_level (name : string) : option LevelValue :=
  match LOG_LEVELS name with
  | Some n => Some (Num n)
  | None => if bool_decide (name ∈ Object_prototype) then Some Inherited else None
  end.

(** [a < b]: false unless both sides are numbers. *)
Definition less_than (a : option LevelValue) (b : LevelValue) : bool :=
  match a, b with
  | Some (Num x), Num y => x <? y
  | _, _ => false
  end.

(** [s.toLowerCase()] on ASCII letters. *)
Definition lower_ascii (c : ascii) : ascii :=
  let n := nat_of_ascii c in
  if (65 <=? n)%nat && (n <=? 90)%nat then ascii_of_nat (n + 32) else c.

Fixpoint toLowerCase (s : string) : string :=
  match s with
  | EmptyString => EmptyString
  | String c r => String (lower_ascii c) (toLowerCase r)
  end.

Definition newline : string := String (ascii_of_nat 10) EmptyString.

(** [formatLogMessage(level, message)], [timestamp] being what
    [new Date().toISOString()] returns at the call. *)
Definition formatLogMessage (timestamp level message : string) : string :=
  timestamp +:+ " [" +:+ toLowerCase level +:+ "] " +:+ message.

(** What the closures of a logger hold. *)
Record LoggerState : Type := mkLogger {
  currentLevel : LevelValue;
  logFile : Path
}.


(** The inner [log(logLevel, message)]; an error of [appendFileSync] is
    swallowed. *)
Definition log (logger : LoggerState) (timestamp logLevel message : string)
    : Eff FS JsError unit :=
  fun fs =>
    let skip := less_than (read_level logLevel) (currentLevel logger) in
    if skip then (Return tt, fs)
    else
      let formatted := formatLogMessage timestamp logLevel message in
      match appendFileSync (logFile logger) (formatted +:+ newline) fs with
      | (Return _, fs') => (Return tt, fs')
      | (Throw _, fs') => (Return tt, fs')
      end.

Definition info (logger : LoggerState) (timestamp message : string) := log logger timestamp "info" message.
Definition warn (logger : LoggerState) (timestamp message : string) := log logger timestamp "warn" message.
Definition error (logger : LoggerState) (timestamp message : string) := log logger timestamp "error" message.

(** [clearLogs(chvmHome)]: the loop over the names read. *)
Fixpoint unlink_all (logsDir : Path) (names : list string) : Eff FS JsError unit :=
  match names with
  | [] => ret tt
  | file :: rest => bind (unlink (logsDir ++ [file])) (fun _ => unlink_all logsDir rest)
  end.

Definition clearLogs (chvmHome : Path) : Eff FS JsError unit :=
  let logsDir := chvmHome ++ ["logs"] in
  fun fs =>
    if negb (existsSync logsDir fs) then (Return tt, fs)
    else match readdir logsDir fs with
         | Return files => unlink_all logsDir files fs
         | Throw e => (Throw e, fs)
         end.

(** *** rotateLogFile *)

(** [{maxSize, maxFiles}], by default 10 MB and 5. *)
Record RotateOptions : Type := mkRotate {
  maxSize : Z;
  maxFiles : Z
}.

Definition default_rotate : RotateOptions := mkRotate (1024 * 1024 * 10) 5.

(** [`${logFile}.${i}`]: next to the log file, its name with [.i] added. *)
Definition rotated (logFile : Path) (i : Z) : Path :=
  parent logFile ++ [default "" (last logFile) +:+ "." +:+ String_of i].

(** [for (let i = maxFiles - 1; i >= 1; i--)], from [i] down. *)
Fixpoint rotate_from (logFile : Path) (maxFiles : Z) (i : nat) : Eff FS JsError unit :=
  match i with
  | O => ret tt
  | S k =>
      bind (fun fs =>
              let oldFile := rotated logFile (Z.of_nat i) in
              let newFile := rotated logFile (Z.of_nat i + 1) in
              if existsSync oldFile fs then
                if Z.of_nat i =? maxFiles - 1 then unlink oldFile fs
                else rename oldFile newFile fs
              else (Return tt, fs))
           (fun _ => rotate_from logFile maxFiles k)
  end.

Definition rotateLogFile (logFile : Path) (options : RotateOptions) : Eff FS JsError unit :=
  fun fs =>
    match node_at fs logFile with
    | None => (Return tt, fs)
    | Some n =>
        if st_size n <=? maxSize options then (Return tt, fs)
        else bind (rotate_from logFile (maxFiles options) (Z.to_nat (maxFiles options - 1)))
                  (fun _ => rename logFile (rotated logFile 1)) fs
    end.

End Logger.

(* --------------------------------------------------------------------- *)
(** ** cli.js: the table of [chvm ls]                                     *)
(* --------------------------------------------------------------------- *)

Module Cli.
Import Mapping.



Section Ls.
(** Truthiness of [installed[key]]. *)
Variable installed : string -> bool.


End Ls.

End Cli.

(* --------------------------------------------------------------------- *)
(** ** storage.js: the directory layout and the two JSON files            *)
(* --------------------------------------------------------------------- *)

Module Storage.
Import Mapping Fs FsMore.

(** [for (const x of l) { await f(x); }] *)
Fixpoint for_each {A : Type} (f : A -> Eff FS JsError unit) (l : list A) : Eff FS JsError unit :=
  match l with
  | [] => ret tt
  | x :: rest => bind (f x) (fun _ => for_each f rest)
  end.

Definition chvm_dirs (chvmHome : Path) : list Path :=
  [ chvmHome;
    chvmHome ++ ["installs"];
    chvmHome ++ ["profiles"];
    chvmHome ++ ["tmp"];
    chvmHome ++ ["logs"] ].

Definition ensureChvmDir (chvmHome : Path) : Eff FS JsError unit :=
  for_each mkdir_recursive (chvm_dirs chvmHome).

(** The value stored under a version in [installed.json]. *)
Record InstalledInfo : Type := mkInstalled {
  inst_revision : string;
  inst_path : string;
  installedAt : string;
  inst_size : Z
}.

(** The argument of [addInstalledVersion]. *)
Record InstalledVersion : Type := mkInstalledVersion {
  iv_version : string;
  iv_revision : string;
  iv_path : string;
  iv_size : Z
}.

(** [JSON.stringify(data, null, 2)] and [JSON.parse] at the type of the
    data of one file; [parse] throws on text it cannot read. *)
Record Json (D : Type) : Type := mkJson {
  stringify : D -> string;
  parse : string -> Completion JsError D
}.
Arguments stringify {D} _ _.
Arguments parse {D} _ _.

Section Store.
Variable json_available : Json (list CatalogEntry).
Variable json_installed : Json (gmap string InstalledInfo).

Definition readAvailableVersions (chvmHome : Path) : Eff FS JsError (list CatalogEntry) :=
  fun fs =>
    let availablePath := chvmHome ++ ["available.json"] in
    if negb (existsSync availablePath fs) then (Return [], fs)
    else match readFile availablePath fs with
         | Return content => (parse json_available content, fs)
         | Throw e => (Throw e, fs)
         end.

Definition writeAvailableVersions (chvmHome : Path) (data : list CatalogEntry)
    : Eff FS JsError unit :=
  writeFile (chvmHome ++ ["available.json"]) (stringify json_available data).

Definition readInstalledVersions (chvmHome : Path) : Eff FS JsError (gmap string InstalledInfo) :=
  fun fs =>
    let installedPath := chvmHome ++ ["installed.json"] in
    if negb (existsSync installedPath fs) then (Return ∅, fs)
    else match readFile installedPath fs with
         | Return content => (parse json_installed content, fs)
         | Throw e => (Throw e, fs)
         end.

Definition writeInstalledVersions (chvmHome : Path) (data : gmap string InstalledInfo)
    : Eff FS JsError unit :=
  writeFile (chvmHome ++ ["installed.json"]) (stringify json_installed data).

(** [object[key] = value], [value] an object, on the plain object that
    [JSON.parse] or [{}] gives.  The key [__proto__] is the accessor of the
    prototype, unless the object has a property of that name of its own
    (as [JSON.parse] can make one): the assignment then changes the
    prototype and the object gets no property, so nothing of it is
    written by [JSON.stringify]. *)
Definition assign {V : Type} (key : string) (value : V) (object : gmap string V)
    : gmap string V :=
  match object !! key with
  | Some _ => <[key := value]> object
  | None => if bool_decide (key = "__proto__") then object else <[key := value]> object
  end.

(** [now] is [new Date().toISOString()] at the time of the call. *)
Definition addInstalledVersion (chvmHome : Path) (versionInfo : InstalledVersion) (now : string)
    : Eff FS JsError unit :=
  bind (readInstalledVersions chvmHome) (fun installed =>
    writeInstalledVersions chvmHome
      (assign (iv_version versionInfo)
         (mkInstalled (iv_revision versionInfo) (iv_path versionInfo) now (iv_size versionInfo))
         installed)).

Definition removeInstalledVersion (chvmHome : Path) (version : string) : Eff FS JsError unit :=
  bind (readInstalledVersions chvmHome) (fun installed =>
    writeInstalledVersions chvmHome (delete version installed)).
End Store.

End Storage.

(* --------------------------------------------------------------------- *)
(** ** installer.js: checking the app bundle and measuring it             *)
(* --------------------------------------------------------------------- *)

Module AppBundle.
Import Fs FsMore.

(** The disk with the permission bits that [chmod] sets. *)
Record Disk : Type := mkDisk {
  names : FS;
  modes : gmap Path Z
}.

(** [0o755] *)
Definition rwxr_xr_x : Z := 493.

(** [fs.chmod(p, mode)] *)
Definition chmod (p : Path) (mode : Z) : Eff Disk JsError unit :=
  fun w =>
    match node_at (names w) p with
    | Some _ => (Return tt, mkDisk (names w) (<[p := mode]> (modes w)))
    | None => (Throw ENOENT, w)
    end.

(** The loop over the names read in [Contents/MacOS]: [stat], then
    [chmod] on the regular files. *)
Fixpoint fix_permissions (macOSDir : Path) (files : list string) : Eff Disk JsError unit :=
  match files with
  | [] => ret tt
  | file :: rest =>
      fun w =>
        let filePath := macOSDir ++ [file] in
        match node_at (names w) filePath with
        | None => (Throw ENOENT, w)
        | Some (File _) =>
            bind (chmod filePath rwxr_xr_x) (fun _ => fix_permissions macOSDir rest) w
        | Some Dir => fix_permissions macOSDir rest w
        end
  end.

Definition verifyAppBundle (appPath : Path) : Eff Disk JsError bool :=
  fun w =>
    if negb (existsSync appPath (names w)) then (Return false, w)
    else
      let contentsDir := appPath ++ ["Contents"] in
      let macOSDir := contentsDir ++ ["MacOS"] in
      if negb (existsSync contentsDir (names w)) then (Return false, w)
      else if negb (existsSync macOSDir (names w)) then (Return false, w)
      else
        bind (try_catch
                (bind (fun w0 => (readdir macOSDir (names w0), w0)) (fix_permissions macOSDir))
                (fun _ => ret tt))
             (fun _ => ret true) w.

(** *** calculateDirectorySize *)

(** The path as the message shows it. *)
Definition path_string (p : Path) : string := String.concat "/" p.

(** A walk adds to the running [totalSize]; [None] when the depth allowed
    is used up. *)
Definition Walk : Type := Z -> option (Completion JsError unit * Z).

(** [for (const file of files) { await traverse(join(path, file)); }] *)
Fixpoint walk_each (visit : Path -> Walk) (path : Path) (files : list string) : Walk :=
  fun totalSize =>
    match files with
    | [] => Some (Return tt, totalSize)
    | file :: rest =>
        match visit (path ++ [file]) totalSize with
        | Some (Return _, totalSize') => walk_each visit path rest totalSize'
        | other => other
        end
    end.

(** The inner [traverse(path)], at most [depth] levels deep. *)
Fixpoint traverse (fs : FS) (depth : nat) (path : Path) : Walk :=
  fun totalSize =>
    match depth with
    | O => None
    | S depth' =>
        match node_at fs path with
        | None => Some (Throw ENOENT, totalSize)
        | Some Dir =>
            match readdir path fs with
            | Return files => walk_each (traverse fs depth') path files totalSize
            | Throw e => Some (Throw e, totalSize)
            end
        | Some (File content) => Some (Return tt, totalSize + st_size (File content))
        end
    end.

Definition calculateDirectorySize (depth : nat) (dirPath : Path) (fs : FS)
    : option (Completion JsError Z) :=
  if negb (existsSync dirPath fs)
  then Some (Throw (mkError ("Directory does not exist: " +:+ path_string dirPath)))
  else match traverse fs depth dirPath 0 with
       | Some (Return _, totalSize) => Some (Return totalSize)
       | Some (Throw e, _) => Some (Throw e)
       | None => None
       end.

End AppBundle.

(* ===================================================================== *)
(** * Part II. Vocabulary of the specification                            *)
(* ===================================================================== *)

Module Spec.
Import Mapping.

(** A valid dotted version string: components of decimal digits, none
    empty, separated by dots. *)
Definition valid_component (c : string) : bool :=
  match c with
  | EmptyString => false
  | String _ _ => all_digits c
  end.

Definition valid_version (v : string) : bool :=
  forallb valid_component (split "." v).

(** [a] followed by [k] more zero components. *)
Fixpoint pad_zeros (a : string) (k : nat) : string :=
  match k with
  | O => a
  | S k' => pad_zeros a k' +:+ ".0"
  end.

(** The resolver's rule for a query that is not a keyword, in the words of
    the specification: an exact match on the version, else an exact match
    on the revision, else the first entry, in catalog order, whose version
    has the query as a prefix. *)
Definition has_version (query : string) (e : CatalogEntry) : bool :=
  bool_decide (version e = Some query).

Definition has_revision (query : string) (e : CatalogEntry) : bool :=
  bool_decide (revision e = query).

Definition version_has_prefix (query : string) (e : CatalogEntry) : bool :=
  match version e with
  | Some v => String.prefix query v
  | None => false
  end.

Definition resolve_by_stages (query : string) (catalog : list CatalogEntry)
    : option CatalogEntry :=
  match find (has_version query) catalog with
  | Some e => Some e
  | None =>
      match find (has_revision query) catalog with
      | Some e => Some e
      | None => find (version_has_prefix query) catalog
      end
  end.

(** The catalog of the concrete scenario. *)
Definition entry_93 : CatalogEntry := mkEntry (Some "93.0.4577.82") "911515" None "Mac_Arm" true.
Definition entry_92 : CatalogEntry := mkEntry (Some "92.0.4515.159") "882387" None "Mac_Arm" true.
Definition scenario_catalog : list CatalogEntry := [entry_93; entry_92].

(** *** Vocabulary for the retry wrapper *)
Section RetrySpec.
Context {St E R : Type}.
Variable operation : Eff St E R.

(** The state of the operation after it has been invoked [k] times. *)
Fixpoint state_after (k : nat) (s : St) : St :=
  match k with
  | O => s
  | S k' => state_after k' (operation s).2
  end.

(** How invocation number [k] (from 0) ends. *)
Definition outcome (k : nat) (s : St) : Completion E R :=
  (operation (state_after k s)).1.

(** [k] invocations with a sleep of [initialDelay * backoffFactor ^ attempt]
    between each two, the first invocation being attempt number [attempt]. *)
Fixpoint backoff_trace (initialDelay backoffFactor : Z) (k : nat) (attempt : Z)
    : list Downloader.Event :=
  match k with
  | O => []
  | S O => [Downloader.Invoked]
  | S k' =>
      Downloader.Invoked :: Downloader.Slept (initialDelay * backoffFactor ^ attempt)
        :: backoff_trace initialDelay backoffFactor k' (attempt + 1)
  end.
End RetrySpec.

(** The number of times the operation was invoked, read off a trace. *)
Definition is_invocation (ev : Downloader.Event) : bool :=
  match ev with
  | Downloader.Invoked => true
  | Downloader.Slept _ => false
  end.

Definition invocations (t : list Downloader.Event) : nat :=
  length (List.filter is_invocation t).

(** The operation of the concrete scenario: it counts its invocations,
    fails on the first two and succeeds from the third on. *)
Definition fails_twice : Eff nat JsError string :=
  fun attempts =>
    let attempts := S attempts in
    if (attempts <? 3)%nat then (Throw (mkError "Network error"), attempts)
    else (Return "success", attempts).

(** *** Vocabulary for the download check *)

(** The files of the unit test of [validateDownload]: a directory with
    one file holding the twelve characters "test content". *)
Definition test_file : Fs.Path := ["testDir"; "test.txt"].
Definition test_disk : Fs.FS := [(["testDir"], Fs.Dir); (test_file, Fs.File "test content")].

(** *** Vocabulary for the catalog build *)

(** [net] where the release request of [channel] succeeds with an empty
    array. *)
Definition with_no_releases (channel : string) (net : Net) : Net :=
  mkNet (listing net)
        (fun c => if bool_decide (c = channel)
                  then Responded true "OK" (Return (Some []))
                  else releases net c).

Definition channels : list string := ["Stable"; "Beta"; "Dev"; "Canary"].

(** A network where two channels know the same branch position. *)
Definition two_channel_net : Net :=
  mkNet [Responded true "OK" (Return (mkListing (Some ["Mac_Arm/882387/"]) None))]
        (fun c =>
           if bool_decide (c = "Beta")
           then Responded true "OK"
                  (Return (Some [mkRelease (Some "92.0.4515.160") (Some "Beta") (Some 882387)]))
           else if bool_decide (c = "Stable")
           then Responded true "OK"
                  (Return (Some [mkRelease (Some "92.0.4515.159") (Some "Stable") (Some 882387)]))
           else Responded true "OK" (Return (Some []))).

(** A small network: one listing page with three builds; the Stable
    channel knows two releases, the Beta request is rejected and the
    other two channels answer with an error status. *)
Definition sample_net : Net :=
  mkNet [Responded true "OK"
           (Return (mkListing (Some ["Mac_Arm/882387/"; "Mac_Arm/911515/"; "Mac_Arm/700000/";
                                     "Mac_Arm/LAST_CHANGE"])
                              None))]
        (fun c =>
           if bool_decide (c = "Stable")
           then Responded true "OK"
                  (Return (Some [mkRelease (Some "92.0.4515.159") (Some "Stable") (Some 882390);
                                 mkRelease (Some "93.0.4577.82") (Some "Stable") (Some 911515)]))
           else if bool_decide (c = "Beta") then Rejected fetch_failed
           else Responded false "Internal Server Error" (Throw (mkError "Unexpected token"))).

(** A release as the data model has it: its version is a valid dotted
    version string. *)
Definition valid_release (r : ChannelRelease) : Prop :=
  exists v, rel_version r = Some v /\ valid_version v = true.

(** The catalog invariant: the entries with a version come first, sorted
    from the highest version down under the comparator, and the entries
    without one follow, sorted from the highest revision number down. *)
Definition version_desc (x y : CatalogEntry) : Prop :=
  compareVersions (version x) (version y) >= 0.

Definition revision_desc (x y : CatalogEntry) : Prop :=
  exists nx ny,
    parseInt (revision x) = Some nx /\ parseInt (revision y) = Some ny /\ nx >= ny.

Definition catalog_invariant (catalog : list CatalogEntry) : Prop :=
  exists versioned unversioned,
    catalog = versioned ++ unversioned
    /\ Forall (fun e => hasVersion e = true) versioned
    /\ Forall (fun e => hasVersion e = false) unversioned
    /\ StronglySorted version_desc versioned
    /\ StronglySorted revision_desc unversioned.

(** *** Vocabulary for the atomic installer *)

(** A machine with version 92 installed, about to be installed again. *)
Definition home : Fs.Path := ["home"].
Definition installs_92 : Fs.Path := ["home"; "installs"; "92.app"].
Definition old_disk : Fs.FS :=
  [(["home"], Fs.Dir);
   (["home"; "installs"], Fs.Dir);
   (installs_92, Fs.Dir);
   (installs_92 ++ ["b.txt"], Fs.File "old");
   (installs_92 ++ ["data"], Fs.Dir);
   (installs_92 ++ ["data"; "x"], Fs.File "keep")].

(** A population step that unpacks, inside the temporary directory, a
    bundle whose [data] is a regular file, and returns the bundle. *)
Definition unpack_new_layout (tmpDir : Fs.Path) : Eff Fs.FS JsError Fs.Path :=
  bind (Fs.mkdir_recursive (tmpDir ++ ["app"])) (fun _ =>
  bind (Fs.writeFile (tmpDir ++ ["app"; "b.txt"]) "new") (fun _ =>
  bind (Fs.writeFile (tmpDir ++ ["app"; "data"]) "blob") (fun _ =>
  ret (tmpDir ++ ["app"])))).

(** A population step that fails after creating a file. *)
Definition unpack_fails (tmpDir : Fs.Path) : Eff Fs.FS JsError Fs.Path :=
  bind (Fs.writeFile (tmpDir ++ ["partial"]) "...") (fun _ =>
  throw (mkError "Install failed")).

(** Two paths neither of which lies at or below the other. *)
Definition apart (p q : Fs.Path) : Prop := ¬ p `prefix_of` q /\ ¬ q `prefix_of` p.

(** The population step, or else the publish step, throws [e] and leaves
    the files as [fs2]; [fs1] is the state once the temporary directory
    has been created. *)
Definition populate_or_publish_throws (installFn : Fs.Path -> Eff Fs.FS JsError Fs.Path)
    (finalPath tmpDir : Fs.Path) (fs1 : Fs.FS) (e : JsError) (fs2 : Fs.FS) : Prop :=
  installFn tmpDir fs1 = (Throw e, fs2)
  \/ exists installedPath fsm,
       installFn tmpDir fs1 = (Return installedPath, fsm)
       /\ Installer.moveDirectory installedPath finalPath fsm = (Throw e, fs2).

(** A string that [parseInt] reads as a number. *)
Definition numeric (s : string) : Prop := exists n, parseInt s = Some n.

(** A value of [positionMap] that carries a valid version. *)
Definition valid_info (info : VersionInfo) : Prop :=
  exists v, info_version info = Some v /\ valid_version v = true.

(** What the loop over the revisions keeps true of the two groups. *)
Definition versioned_ok (e : CatalogEntry) : Prop :=
  hasVersion e = true /\ exists v, version e = Some v /\ valid_version v = true.

Definition unversioned_ok (e : CatalogEntry) : Prop :=
  hasVersion e = false /\ numeric (revision e).

(** *** Vocabulary for the lock *)

(** A machine whose home directory exists and where nobody holds the
    lock, and a function that records that it ran. *)
Definition idle_machine : Lock.LockWorld :=
  Lock.mkLockWorld [(["home"], Fs.Dir)] ∅ 1700000000000 4242 0.

Definition mark_done : Eff (Lock.LockWorld * bool) JsError string :=
  fun ws => (Return "success", (ws.1, true)).

Definition mark_failed : Eff (Lock.LockWorld * bool) JsError string :=
  fun ws => (Throw (mkError "Test error"), (ws.1, true)).

(** A function that asks, while it runs, whether the lock is held. *)
Definition ask_locked {St : Type} (chvmHome : Fs.Path) (options : Lock.LockOptions)
    : Eff (Lock.LockWorld * St) JsError bool :=
  fun ws => (Return (Lock.isLocked chvmHome options ws.1), ws).

(** The marker of the lock file is the one [release] stands for. *)
Definition owns (release : Lock.Handle) (w : Lock.LockWorld) : bool :=
  match Lock.markers w !! Lock.handle_file release with
  | Some m => bool_decide (Lock.held_id m = Lock.handle_id release)
  | None => false
  end.

(** [w] with the marker of [file] removed and nothing else changed. *)
Definition unlocked (file : Fs.Path) (w : Lock.LockWorld) : Lock.LockWorld :=
  Lock.mkLockWorld (Lock.files w) (delete file (Lock.markers w))
                   (Lock.now w) (Lock.pid w) (Lock.next_id w).

(** Inside the temporary directory: the population step of the unit
    tests, which writes one file and returns the directory itself. *)
Definition write_test_file (tmpDir : Fs.Path) : Eff Fs.FS JsError Fs.Path :=
  bind (Fs.mkdir_recursive tmpDir) (fun _ =>
  bind (Fs.writeFile (tmpDir ++ ["test.txt"]) "test") (fun _ =>
  ret tmpDir)).

(** The catalogs of the resolver's unit tests (no [hasVersion] field). *)
Definition test_entry (v r : string) : CatalogEntry := mkEntry (Some v) r None "Mac_Arm" false.
Definition test_catalog : list CatalogEntry :=
  [test_entry "92.0.4515.159" "882387"; test_entry "93.0.4577.82" "911515"].

(** *** Vocabulary for the further properties of the mapping module *)

(** The numeric components of a dotted version, and the one at index [i]
    once the version is padded with zeros. *)
Definition components (v : string) : list Z :=
  map (decimal_from 0) (split "." v).

Definition component (v : string) (i : nat) : Z := nth i (components v) 0.

(** Every component is at most 2^53: [Number] gives it exactly.  Above,
    a double rounds and distinct components can become the same number. *)
Definition exact_components (v : string) : Prop :=
  Forall (fun n => n <= 2 ^ 53) (components v).

(** An entry that the resolver can return for [query] at one of its three
    stages. *)
Definition matches_query (query : string) (e : CatalogEntry) : Prop :=
  version e = Some query
  \/ revision e = query
  \/ exists v, version e = Some v /\ String.prefix query v = true.

(** The revision records that one page of the listing contributes. *)
Definition revisions_of (data : ListingData) : list RevisionRecord :=
  omap (fun prefix => (fun m => mkRevision m "Mac_Arm") <$> match_revision prefix)
       (default [] (prefixes data)).

(** A page that arrives with status [ok] and a JSON body. *)
Definition ok_page (statusText : string) (data : ListingData) : FetchOutcome ListingData :=
  Responded true statusText (Return data).

(** A revision record as [fetchRevisions] makes them. *)
Definition well_formed_revision (r : RevisionRecord) : Prop :=
  rev_platform r = "Mac_Arm"
  /\ rev_revision r <> "" /\ all_digits (rev_revision r) = true.

(** Two pages of a listing, the first with a continuation token. *)
Definition page_one : ListingData :=
  mkListing (Some ["Mac_Arm/700000/"; "Mac_Arm/700010/"]) (Some "token-1").
Definition page_two : ListingData :=
  mkListing (Some ["Mac_Arm/700020/"; "Mac_Arm/"]) None.

(** A release that [positionMap] files under [key]. *)
Definition records_at (key : string) (r : ChannelRelease) : bool :=
  match chromium_main_branch_position r with
  | Some position => negb (position =? 0) && bool_decide (String_of position = key)
  | None => false
  end.

Definition info_of (r : ChannelRelease) : VersionInfo :=
  mkInfo (rel_version r) (rel_channel r).

(** The offsets [start], [start + 1], ... ([k] of them) and the keys the
    probe of revision number [n] looks up, in the order it does: for each
    offset the position above, then the one below. *)
Fixpoint offsets (start : Z) (k : nat) : list Z :=
  match k with
  | O => []
  | S k' => start :: offsets (start + 1) k'
  end.

Definition probe_keys (n : Z) (start : Z) (k : nat) : list string :=
  flat_map (fun d => [String_of (n + d); String_of (n - d)]) (offsets start k).

(** The entry made for a revision that found no version. *)
Definition unversioned_entry (r : RevisionRecord) : CatalogEntry :=
  mkEntry None (rev_revision r) None "Mac_Arm" false.

(** An entry as the build makes them. *)
Definition built_entry (e : CatalogEntry) : Prop :=
  platform e = "Mac_Arm"
  /\ (hasVersion e = false -> version e = None /\ channel e = None).

(** A mapping that [versionMap] files under [key]. *)
Definition filed_under (key : string) (m : VersionMapping) : bool :=
  match vm_position m with
  | Some position => negb (position =? 0) && bool_decide (String_of position = key)
  | None => false
  end.

(** The merged entry of a revision, read off the mappings taken from the
    last to the first: the first one filed under the revision decides, and
    the revision is dropped unless that one has a non-empty version. *)
Definition merged_from (latest_first : list VersionMapping) (rev : RevisionRecord)
    : option MergedEntry :=
  match find (filed_under (rev_revision rev)) latest_first with
  | Some m =>
      match vm_version m with
      | Some (String a v) =>
          Some (mkMerged (rev_revision rev) (Some (String a v)) (or_null (vm_channel m))
                         (rev_platform rev))
      | _ => None
      end
  | None => None
  end.

(** *** Vocabulary for the streaming download *)

(** An observer that keeps every progress report it is handed. *)
Definition record_progress (p : Download.Progress) : Eff (list Download.Progress) JsError unit :=
  fun seen => (Return tt, seen ++ [p]).

(** The bytes of some chunks, end to end, and their number. *)
Definition joined (values : list string) : string := foldr String.append "" values.

Definition byte_count (values : list string) : Z := Z.of_nat (String.length (joined values)).



(** The same response cut off after its first chunk. *)
Definition cut_response : Download.Response :=
  Download.mkResponse true "OK" (Some "11")
    (Some (Download.mkBody ["hello "] (Download.Broken (mkError "terminated")))).

(** The time spent sleeping, read off a trace. *)
Definition waited (t : list Downloader.Event) : Z :=
  foldr (fun ev acc => match ev with
                       | Downloader.Slept waitTime => waitTime + acc
                       | Downloader.Invoked => acc
                       end) 0 t.

(** An operation that never succeeds. *)
Definition always_fails : Eff nat JsError string :=
  fun attempts => (Throw (mkError "Persistent error"), S attempts).

(** *** The table of [chvm ls]. *)





(** *** The directory layout. *)

(** [d] and everything above it is a directory. *)
Definition all_dirs (fs : Fs.FS) (d : Fs.Path) : Prop :=
  forall k, (1 <= k <= length d)%nat -> Fs.node_at fs (take k d) = Some Fs.Dir.

(** Whatever is on [fs] is on [fs'] too, with the same node. *)
Definition keeps (fs fs' : Fs.FS) : Prop :=
  forall q n, Fs.node_at fs q = Some n -> Fs.node_at fs' q = Some n.

(** *** The two JSON files. *)

(** The codec reads back what it wrote. *)
Definition reads_back {D : Type} (json : Storage.Json D) : Prop :=
  forall d, Storage.parse json (Storage.stringify json d) = Return d.

(** The value [addInstalledVersion] stores for its argument. *)
Definition stored (versionInfo : Storage.InstalledVersion) (now : string) : Storage.InstalledInfo :=
  Storage.mkInstalled (Storage.iv_revision versionInfo) (Storage.iv_path versionInfo) now
                      (Storage.iv_size versionInfo).

(** A codec to run the storage functions with: the binary digits of the
    number stdpp's [encode] gives the data. *)
Fixpoint bits (p : positive) : string :=
  match p with
  | xH => ""
  | xO p' => String "0" (bits p')
  | xI p' => String "1" (bits p')
  end.

Fixpoint unbits (s : string) : option positive :=
  match s with
  | EmptyString => Some xH
  | String c s' =>
      match unbits s' with
      | Some p => if Ascii.eqb c "0" then Some (xO p)
                  else if Ascii.eqb c "1" then Some (xI p) else None
      | None => None
      end
  end.

Definition SyntaxError : JsError := mkError "Unexpected token".

Definition binary_json {T D : Type} `{Countable T} (to : D -> T) (from : T -> D) : Storage.Json D :=
  Storage.mkJson D
    (fun d => bits (encode (to d)))
    (fun s => match unbits s ≫= decode with
              | Some t => Return (from t)
              | None => Throw SyntaxError
              end).

Definition entry_fields (e : CatalogEntry) : option string * string * option string * string * bool :=
  (version e, revision e, channel e, platform e, hasVersion e).

Definition entry_of_fields (t : option string * string * option string * string * bool) : CatalogEntry :=
  mkEntry t.1.1.1.1 t.1.1.1.2 t.1.1.2 t.1.2 t.2.

Definition installed_fields (i : Storage.InstalledInfo) : string * string * string * Z :=
  (Storage.inst_revision i, Storage.inst_path i, Storage.installedAt i, Storage.inst_size i).

Definition installed_of_fields (t : string * string * string * Z) : Storage.InstalledInfo :=
  Storage.mkInstalled t.1.1.1 t.1.1.2 t.1.2 t.2.

Definition sample_json_available : Storage.Json (list CatalogEntry) :=
  binary_json (fmap entry_fields) (fmap entry_of_fields).

Definition sample_json_installed : Storage.Json (gmap string Storage.InstalledInfo) :=
  binary_json (fmap installed_fields) (fmap installed_of_fields).

Definition chromium_92 : Storage.InstalledVersion :=
  Storage.mkInstalledVersion "92.0.4515.159" "885292" "/home/.chvm/installs/92.0.4515.159.app" 1024.

(** *** The size of a directory. *)

Definition total_of {A : Type} (f : A -> Z) (l : list A) : Z :=
  foldr (fun x acc => f x + acc) 0 l.

(** The bytes of the regular files at or below [p]. *)
Definition tree_size (fs : Fs.FS) (p : Fs.Path) : Z :=
  total_of (fun e => Fs.st_size e.2) (Fs.subtree p fs).

(** A disk as a file system presents it: no path is listed twice and
    every entry sits in a directory. *)
Definition well_formed (fs : Fs.FS) : Prop :=
  NoDup fs.*1
  /\ forall q n, (q, n) ∈ fs -> q <> [] /\ Fs.node_at fs (Fs.parent q) = Some Fs.Dir.

Definition bundle_disk : Fs.FS :=
  [(["Chromium.app"], Fs.Dir);
   (["Chromium.app"; "Contents"], Fs.Dir);
   (["Chromium.app"; "Contents"; "Info.plist"], Fs.File "plist");
   (["Chromium.app"; "Contents"; "MacOS"], Fs.Dir);
   (["Chromium.app"; "Contents"; "MacOS"; "Chromium"], Fs.File "binary");
   (["other"], Fs.File "not counted")].

End Spec.

(* ===================================================================== *)
(** * Part III. Properties                                                *)
(* ===================================================================== *)

Import Mapping Spec.

(** ** The version comparator *)

Lemma compare_parts_antisym n i p1 p2 :
  compare_parts n i p1 p2 = - compare_parts n i p2 p1.
Proof.
  revert i; induction n as [|n IH]; intros i; simpl; [reflexivity|].
  destruct (Z.gtb_spec (part_or_zero p1 i) (part_or_zero p2 i)),
           (Z.ltb_spec (part_or_zero p1 i) (part_or_zero p2 i)),
           (Z.gtb_spec (part_or_zero p2 i) (part_or_zero p1 i)),
           (Z.ltb_spec (part_or_zero p2 i) (part_or_zero p1 i));
    try lia; apply IH.
Qed.

Lemma compare_parts_same n i p1 p2 :
  (forall j, part_or_zero p1 j = part_or_zero p2 j) ->
  compare_parts n i p1 p2 = 0.
Proof.
  intros H; revert i; induction n as [|n IH]; intros i; simpl; [reflexivity|].
  rewrite H, Z.gtb_ltb, Z.ltb_irrefl. apply IH.
Qed.

Lemma split_nonempty sep s : split sep s <> [].
Proof.
  destruct s as [|c r]; simpl; [discriminate|].
  destruct (Ascii.eqb c sep); [discriminate|].
  destruct (split sep r); discriminate.
Qed.

Lemma split_app_sep sep a b :
  split sep (a +:+ String sep b) = split sep a ++ split sep b.
Proof.
  induction a as [|c a IH]; simpl.
  - rewrite Ascii.eqb_refl. reflexivity.
  - destruct (Ascii.eqb c sep); [rewrite IH; reflexivity|].
    rewrite IH. pose proof (split_nonempty sep a) as Hne.
    destruct (split sep a); [contradiction|reflexivity].
Qed.

Lemma version_parts_pad a k :
  version_parts (pad_zeros a k) = version_parts a ++ replicate k (Some 0).
Proof.
  unfold version_parts. induction k as [|k IH]; simpl.
  - rewrite app_nil_r. reflexivity.
  - rewrite split_app_sep, map_app, IH, <- app_assoc. f_equal.
    change (map Number (split "." "0")) with (replicate 1 (Some 0)).
    rewrite <- replicate_add, Nat.add_1_r. reflexivity.
Qed.

Lemma part_or_zero_pad p k j :
  part_or_zero (p ++ replicate k (Some 0)) j = part_or_zero p j.
Proof.
  unfold part_or_zero.
  destruct (decide (j < length p)%nat) as [Hlt|Hge].
  - rewrite lookup_app_l by exact Hlt. reflexivity.
  - rewrite lookup_app_r by lia. rewrite (lookup_ge_None_2 p j) by lia.
    destruct (replicate k (Some 0) !! (j - length p)%nat) as [x|] eqn:Hx; [|reflexivity].
    apply lookup_replicate in Hx as [-> _]. reflexivity.
Qed.

Lemma valid_version_nonempty v :
  valid_version v = true -> exists c r, v = String c r.
Proof.
  destruct v as [|c r]; [discriminate|eauto].
Qed.

Lemma pad_zeros_nonempty c r k : exists c' r', pad_zeros (String c r) k = String c' r'.
Proof.
  induction k as [|k [c' [r' IH]]]; simpl; [eauto|].
  rewrite IH. simpl. eauto.
Qed.

Lemma compareVersions_parts c1 r1 c2 r2 :
  compareVersions (Some (String c1 r1)) (Some (String c2 r2)) =
  compare_parts (Nat.max (length (version_parts (String c1 r1)))
                         (length (version_parts (String c2 r2)))) 0
                (version_parts (String c1 r1)) (version_parts (String c2 r2)).
Proof. reflexivity. Qed.

Lemma compareVersions_flip a b :
  valid_version a = true -> valid_version b = true ->
  compareVersions (Some a) (Some b) = - compareVersions (Some b) (Some a).
Proof.
  intros Ha Hb.
  destruct (valid_version_nonempty a Ha) as (ca & ra & ->).
  destruct (valid_version_nonempty b Hb) as (cb & rb & ->).
  rewrite !compareVersions_parts, Nat.max_comm. apply compare_parts_antisym.
Qed.

(** C4. On valid dotted version strings the comparator is antisymmetric,
    [compare(a,b) = -compare(b,a)], and a version compares equal to itself
    and to itself followed by any number of zero components, in both
    argument orders (so "92.0" equals "92.0.0.0"). *)
Theorem compareVersions_antisym_padding :
  forall a b : string,
    valid_version a = true -> valid_version b = true ->
    compareVersions (Some a) (Some b) = - compareVersions (Some b) (Some a)
    /\ compareVersions (Some a) (Some a) = 0
    /\ forall k, compareVersions (Some a) (Some (pad_zeros a k)) = 0
                 /\ compareVersions (Some (pad_zeros a k)) (Some a) = 0.
Proof.
  intros a b Ha Hb.
  split; [apply compareVersions_flip; assumption|].
  destruct (valid_version_nonempty a Ha) as (ca & ra & ->).
  split.
  - rewrite compareVersions_parts. apply compare_parts_same. reflexivity.
  - intros k. destruct (pad_zeros_nonempty ca ra k) as (c' & r' & Hp).
    assert (Hparts : version_parts (String c' r')
                     = version_parts (String ca ra) ++ replicate k (Some 0))
      by (rewrite <- Hp; apply version_parts_pad).
    rewrite Hp, !compareVersions_parts. split; apply compare_parts_same; intros j;
      rewrite Hparts, part_or_zero_pad; reflexivity.
Qed.

Lemma compareVersions_antisym_padding_witness :
  compareVersions (Some "92.0") (Some "93.0.4577.82")
    = - compareVersions (Some "93.0.4577.82") (Some "92.0")
  /\ compareVersions (Some "92.0") (Some "92.0.0.0") = 0.
Proof.
  destruct (compareVersions_antisym_padding "92.0" "93.0.4577.82" eq_refl eq_refl)
    as (H1 & _ & H3).
  split; [exact H1|exact (proj1 (H3 2%nat))].
Defined.

(** ** The version resolver *)

Lemma head_filter_find (l : list CatalogEntry) :
  head (filter (fun item => hasVersion item = true) l) = find hasVersion l.
Proof.
  induction l as [|x l IH]; [reflexivity|].
  rewrite filter_cons. simpl. destruct (hasVersion x) eqn:Hx.
  - rewrite decide_True by reflexivity. reflexivity.
  - rewrite decide_False by discriminate. exact IH.
Qed.

Lemma lookup_last_index {A} (l : list A) : l !! (length l - 1)%nat = last l.
Proof.
  rewrite last_lookup. f_equal. lia.
Qed.

(** C6. ["latest"] resolves to the first entry with [hasVersion] set when
    there is one, else to the first entry of the catalog, which is [null]
    for the empty catalog; ["oldest"] resolves to the last entry of the
    whole catalog, whatever its group. *)
Theorem resolveVersion_keywords :
  forall catalog : list CatalogEntry,
    resolveVersion "latest" catalog =
      match find hasVersion catalog with
      | Some e => Some e
      | None => head catalog
      end
    /\ resolveVersion "latest" [] = None
    /\ resolveVersion "oldest" catalog = last catalog.
Proof.
  intros catalog. split; [|split]; [| reflexivity |].
  - destruct catalog as [|x l]; [reflexivity|].
    unfold resolveVersion. rewrite bool_decide_eq_true_2 by reflexivity.
    rewrite <- head_filter_find.
    destruct (filter _ (x :: l)); reflexivity.
  - destruct catalog as [|x l]; [reflexivity|].
    unfold resolveVersion.
    rewrite bool_decide_eq_false_2 by discriminate.
    rewrite bool_decide_eq_true_2 by reflexivity.
    apply lookup_last_index.
Qed.

Lemma startsWith_prefix v q : startsWith v q = String.prefix q v.
Proof.
  revert v; induction q as [|b q IH]; intros v; [destruct v; reflexivity|].
  destruct v as [|a v]; [reflexivity|]. simpl. rewrite IH.
  rewrite Ascii.eqb_sym.
  destruct (Ascii.eqb_spec b a) as [->|Hne].
  - destruct (ascii_dec a a); [reflexivity|contradiction].
  - destruct (ascii_dec b a); [contradiction|reflexivity].
Qed.

(** Once no version equals the query, the source's guarded [startsWith]
    and the plain prefix test pick the same entries: the guard only drops
    the empty version, whose sole prefix is the empty query. *)
Lemma version_starts_prefix query e :
  version_is query e = false ->
  version_starts query e = version_has_prefix query e.
Proof.
  unfold version_is, version_starts, version_has_prefix. intros Hne.
  destruct (version e) as [[|a r]|]; [|apply startsWith_prefix|reflexivity].
  destruct query as [|b q]; [|reflexivity].
  rewrite bool_decide_eq_true_2 in Hne by reflexivity. discriminate.
Qed.

Lemma find_none_ext {A} (f g h : A -> bool) (l : list A) :
  find f l = None ->
  (forall x, f x = false -> g x = h x) ->
  find g l = find h l.
Proof.
  intros Hnone Hext. induction l as [|x l IH]; [reflexivity|].
  simpl in *. destruct (f x) eqn:Hf; [discriminate|].
  rewrite (Hext x Hf). destruct (h x); [reflexivity|]. apply IH, Hnone.
Qed.

(** C7. A query other than the two keywords is resolved by the three
    stages in order (version, revision, first version with the query as a
    prefix) and to [null] when none matches; every query resolves to
    [null] on the empty catalog; on the scenario catalog ["92"] finds the
    92.0.4515.159 entry and ["999"] finds nothing. *)
Theorem resolveVersion_stages :
  forall (query : string) (catalog : list CatalogEntry),
    query <> "latest" -> query <> "oldest" ->
    resolveVersion query catalog = resolve_by_stages query catalog
    /\ (forall q, resolveVersion q [] = None)
    /\ resolveVersion "92" scenario_catalog = Some entry_92
    /\ resolveVersion "999" scenario_catalog = None.
Proof.
  intros query catalog Hl Ho. split; [|split; [intros q; reflexivity|split; reflexivity]].
  destruct catalog as [|x l]; [reflexivity|].
  unfold resolveVersion, resolve_by_stages.
  rewrite !bool_decide_eq_false_2 by assumption.
  change (find (has_version query)) with (find (version_is query)).
  change (find (has_revision query)) with (find (revision_is query)).
  destruct (find (version_is query) (x :: l)) eqn:Hv; [reflexivity|].
  destruct (find (revision_is query) (x :: l)); [reflexivity|].
  apply (find_none_ext _ _ _ _ Hv). apply version_starts_prefix.
Qed.

Lemma resolveVersion_stages_witness :
  resolveVersion "882387" scenario_catalog = resolve_by_stages "882387" scenario_catalog
  /\ resolve_by_stages "882387" scenario_catalog = Some entry_92.
Proof.
  split; [|reflexivity].
  apply (resolveVersion_stages "882387" scenario_catalog); discriminate.
Defined.

(** ** The retry wrapper *)

Import Downloader.

Section RetryFacts.
Context {St E R : Type}.
Variable fetchFn : Eff St E R.
Variables r d b : Z.

Lemma backoff_trace_step k attempt :
  (0 < k)%nat ->
  backoff_trace d b (S k) attempt =
  Invoked :: Slept (d * b ^ attempt) :: backoff_trace d b k (attempt + 1).
Proof. destruct k; [lia|reflexivity]. Qed.

Lemma invocations_backoff_trace k attempt :
  invocations (backoff_trace d b k attempt) = k.
Proof.
  revert attempt; induction k as [|k IH]; intros attempt; [reflexivity|].
  destruct k as [|k]; [reflexivity|].
  rewrite backoff_trace_step by lia. unfold invocations.
  cbn [List.filter is_invocation length]. f_equal. apply (IH (attempt + 1)).
Qed.

Lemma retry_from_step n attempt lastError w :
  retry_from fetchFn r d b (S n) attempt lastError w =
  let '(c, s) := fetchFn (op_state w) in
  let w1 := mkRetry s (trace w ++ [Invoked]) in
  match c with
  | Return v => (Return v, w1)
  | Throw error =>
      retry_from fetchFn r d b n (attempt + 1) (Some error)
        (if attempt <? r
         then mkRetry s (trace w1 ++ [Slept (d * b ^ attempt)])
         else w1)
  end.
Proof. reflexivity. Qed.

(** The loop, started at attempt [r + 1 - n] with [n] iterations left. *)
Lemma retry_from_spec n attempt lastError w :
  Z.of_nat n = r + 1 - attempt ->
  exists k : nat,
    (k <= n)%nat /\ (0 < n -> 0 < k)%nat /\
    let '(c, w') := retry_from fetchFn r d b n attempt lastError w in
    trace w' = trace w ++ backoff_trace d b k attempt
    /\ op_state w' = state_after fetchFn k (op_state w)
    /\ (forall i, (i < k - 1)%nat -> exists e, outcome fetchFn i (op_state w) = Throw e)
    /\ match c with
       | Return v => (0 < k)%nat /\ outcome fetchFn (k - 1) (op_state w) = Return v
       | Throw last =>
           k = n /\
           match n with
           | O => last = lastError
           | _ => exists e, last = Some e /\ outcome fetchFn (n - 1) (op_state w) = Throw e
           end
       end.
Proof.
  revert attempt lastError w; induction n as [|n IH]; intros attempt lastError w Hn.
  - exists 0%nat. simpl. rewrite app_nil_r. repeat split; try lia.
  - rewrite retry_from_step.
    destruct (fetchFn (op_state w)) as [c s] eqn:Hop.
    destruct c as [v|error]; cbv beta iota zeta.
    + exists 1%nat. unfold outcome. simpl. rewrite Hop. repeat split; try lia.
    + match goal with
      | |- context [retry_from _ _ _ _ _ _ _ ?x] => set (w2 := x)
      end.
      assert (Hs2 : op_state w2 = s) by (subst w2; destruct (attempt <? r); reflexivity).
      destruct (IH (attempt + 1) (Some error) w2) as (k & Hk & Hpos & Hrec); [lia|].
      exists (S k). split; [lia|]. split; [lia|].
      destruct (retry_from fetchFn r d b n (attempt + 1) (Some error) w2) as [c' w'].
      destruct Hrec as (Htr & Hst & Hfail & Hend).
      assert (Hout : forall i, outcome fetchFn (S i) (op_state w)
                               = outcome fetchFn i s).
      { intros i. unfold outcome. simpl. rewrite Hop. reflexivity. }
      assert (Hout0 : outcome fetchFn 0 (op_state w) = Throw error).
      { unfold outcome. simpl. rewrite Hop. reflexivity. }
      rewrite Hs2 in *. split; [|split; [|split]].
      * rewrite Htr. subst w2. destruct n as [|n].
        -- assert (k = 0)%nat as -> by lia.
           rewrite (proj2 (Z.ltb_ge attempt r)) by lia. simpl. rewrite app_nil_r. reflexivity.
        -- rewrite (proj2 (Z.ltb_lt attempt r)) by lia.
           rewrite backoff_trace_step by lia. simpl. rewrite <- !app_assoc. reflexivity.
      * rewrite Hst. simpl. rewrite Hop. reflexivity.
      * intros i Hi. destruct i as [|i]; [eauto|].
        rewrite Hout. apply Hfail. lia.
      * destruct c' as [v|last].
        -- destruct Hend as [Hk0 Hv]. split; [lia|].
           replace (S k - 1)%nat with (S (k - 1)) by lia.
           rewrite Hout. exact Hv.
        -- destruct Hend as [-> Hlast]. split; [reflexivity|].
           destruct n as [|n].
           ++ exists error. split; [exact Hlast|exact Hout0].
           ++ destruct Hlast as (e & He & Hoe). exists e. split; [exact He|].
              replace (S (S n) - 1)%nat
                with (S (S n - 1)) by lia.
              rewrite Hout. exact Hoe.
Qed.
End RetryFacts.

Lemma invocations_app t1 t2 :
  invocations (t1 ++ t2) = (invocations t1 + invocations t2)%nat.
Proof. unfold invocations. rewrite List.filter_app, length_app. reflexivity. Qed.

(** C5. With [maxRetries], [initialDelay] and [backoffFactor] the values
    of the options [retries], [delay] and [backoff] (3, 1000 and 2 when
    absent) and [maxRetries] not negative: the wrapper invokes the
    operation [k] times for some [k] between 1 and [maxRetries + 1]; the
    events of the call are these [k] invocations with a sleep of
    [initialDelay * backoffFactor ^ attempt] after each failed attempt but
    the last one made; every invocation before the last one failed; a
    returned value is the one the last invocation returned; and a thrown
    value means that all [maxRetries + 1] invocations failed and is the
    error of the last one.  The operation that fails twice and then
    succeeds, run with [retries = 3], yields its result after exactly 3
    invocations. *)
Theorem retryFetch_backoff :
  forall (St E R : Type) (fetchFn : Eff St E R) (options : RetryOptions) (w : RetryWorld St),
    let maxRetries := default 3 (retries options) in
    let initialDelay := default 1000 (delay options) in
    let backoffFactor := default 2 (backoff options) in
    0 <= maxRetries ->
    (exists k : nat,
        (1 <= k)%nat /\ Z.of_nat k <= maxRetries + 1 /\
        let '(c, w') := retryFetch fetchFn options w in
        trace w' = trace w ++ backoff_trace initialDelay backoffFactor k 0
        /\ invocations (trace w') = (invocations (trace w) + k)%nat
        /\ op_state w' = state_after fetchFn k (op_state w)
        /\ (forall i, (i < k - 1)%nat -> exists e, outcome fetchFn i (op_state w) = Throw e)
        /\ match c with
           | Return v => outcome fetchFn (k - 1) (op_state w) = Return v
           | Throw last =>
               Z.of_nat k = maxRetries + 1
               /\ exists e, last = Some e /\ outcome fetchFn (k - 1) (op_state w) = Throw e
           end)
    /\ (forall delay backoff,
          let '(c, w') := retryFetch fails_twice (mkOptions (Some 3) delay backoff)
                                     (mkRetry 0%nat []) in
          c = Return "success" /\ invocations (trace w') = 3%nat /\ op_state w' = 3%nat).
Proof.
  intros St E R fetchFn options w maxRetries initialDelay backoffFactor Hr.
  split; [|intros delay backoff; repeat split].
  unfold retryFetch. fold maxRetries initialDelay backoffFactor.
  destruct (retry_from_spec fetchFn maxRetries initialDelay backoffFactor
              (Z.to_nat (maxRetries + 1)) 0 None w) as (k & Hk & Hpos & Hrec); [lia|].
  exists k. split; [lia|]. split; [lia|].
  destruct (retry_from fetchFn maxRetries initialDelay backoffFactor
              (Z.to_nat (maxRetries + 1)) 0 None w) as [c w'].
  destruct Hrec as (Htr & Hst & Hfail & Hend).
  split; [exact Htr|]. split.
  { rewrite Htr, invocations_app, invocations_backoff_trace. reflexivity. }
  split; [exact Hst|]. split; [exact Hfail|].
  destruct c as [v|last]; [exact (proj2 Hend)|].
  destruct Hend as [-> Hlast]. split; [lia|].
  destruct (Z.to_nat (maxRetries + 1)) eqn:Hz; [lia|]. exact Hlast.
Qed.

Lemma retryFetch_backoff_witness :
  exists k : nat,
    (1 <= k)%nat /\ Z.of_nat k <= 3 + 1
    /\ (retryFetch fails_twice (mkOptions (Some 3) (Some 100) None) (mkRetry 0%nat [])).1
       = Return "success".
Proof.
  destruct (retryFetch_backoff nat JsError string fails_twice
              (mkOptions (Some 3) (Some 100) None) (mkRetry 0%nat []))
    as [(k & H1 & H2 & _) _]; [simpl; lia|].
  exists k. split; [exact H1|]. split; [exact H2|reflexivity].
Defined.

(** ** The download check *)

Import Fs.

(** C1 (the code departs from its tests here).  On the file of the unit
    test, twelve bytes long: with the matching [expectedSize] the call
    returns the object [{valid: true, size: 12}], not the boolean [true];
    with [expectedSize] 99999 it throws instead of returning [false]; and
    with [expectedSize] 0 it reports the file valid although 0 is not its
    size. *)
Theorem validateDownload_throws_on_mismatch :
  validateDownload test_file (Size 12) test_disk = Return (mkValidation true 12)
  /\ validateDownload test_file (Size 99999) test_disk
     = Throw (mkError "File size mismatch: expected 99999, got 12")
  /\ validateDownload test_file (Size 0) test_disk = Return (mkValidation true 12).
Proof. repeat split. Qed.

(** C10. For an existing regular file, an [expectedSize] that is absent,
    [null] or 0 makes [validateDownload] skip the comparison: it reports
    the file valid, with its actual size, whatever that size is. *)
Theorem validateDownload_skips_without_size :
  forall (fs : FS) (filePath : Path) (content : string) (expectedSize : ExpectedSize),
    node_at fs filePath = Some (File content) ->
    expectedSize = Absent \/ expectedSize = Null \/ expectedSize = Size 0 ->
    validateDownload filePath expectedSize fs
    = Return (mkValidation true (Z.of_nat (String.length content))).
Proof.
  intros fs filePath content expectedSize Hfile Hsize.
  unfold validateDownload. rewrite Hfile.
  destruct Hsize as [->|[->| ->]]; reflexivity.
Qed.

Lemma validateDownload_skips_without_size_witness :
  validateDownload test_file Null test_disk = Return (mkValidation true 12).
Proof.
  apply (validateDownload_skips_without_size test_disk test_file "test content" Null).
  - reflexivity.
  - right; left; reflexivity.
Defined.

(** ** The scoped lock *)

Import Lock.

Lemma lookup_entry_write_same p n fs : lookup_entry p (write_node p n fs) = Some n.
Proof.
  induction fs as [|[q m] fs IH]; simpl.
  - rewrite bool_decide_eq_true_2 by reflexivity. reflexivity.
  - destruct (bool_decide_reflect (q = p)) as [->|Hne]; simpl.
    + rewrite bool_decide_eq_true_2 by reflexivity. reflexivity.
    + rewrite bool_decide_eq_false_2 by exact Hne. exact IH.
Qed.

Lemma lookup_entry_write_other p q n fs :
  q <> p -> lookup_entry q (write_node p n fs) = lookup_entry q fs.
Proof.
  intros Hne. induction fs as [|[r m] fs IH]; simpl.
  - rewrite bool_decide_eq_false_2 by congruence. reflexivity.
  - destruct (bool_decide_reflect (r = p)) as [->|Hrp]; simpl.
    + rewrite !bool_decide_eq_false_2 by congruence. reflexivity.
    + destruct (bool_decide (r = q)); [reflexivity|exact IH].
Qed.

Lemma node_at_write_same c p n fs : node_at (write_node (c :: p) n fs) (c :: p) = Some n.
Proof. apply lookup_entry_write_same. Qed.

Lemma node_at_write_other p q n fs :
  q <> p -> node_at (write_node p n fs) q = node_at fs q.
Proof.
  intros Hne. destruct q as [|c q]; [reflexivity|].
  apply lookup_entry_write_other, Hne.
Qed.

(** A successful [writeFile] puts the content at the path and leaves
    every other path as it was. *)
Lemma writeFile_success p content fs fs' :
  writeFile p content fs = (Return tt, fs') ->
  node_at fs' p = Some (File content) /\ forall q, q <> p -> node_at fs' q = node_at fs q.
Proof.
  unfold writeFile. destruct p as [|c p]; [discriminate|].
  destruct (node_at fs (parent (c :: p))) as [[?|]|]; try discriminate.
  destruct (node_at fs (c :: p)) as [[?|]|]; try discriminate;
    intros [= <-]; (split; [apply node_at_write_same|intros q Hq; apply node_at_write_other, Hq]).
Qed.

Lemma take_lock_held file w h w1 :
  take_lock file w = (Return h, w1) ->
  handle_file h = file
  /\ markers w1 !! file = Some (mkHeld (handle_id h) (now w1)).
Proof.
  unfold take_lock. intros [= <- <-]. simpl. rewrite lookup_insert_eq. auto.
Qed.

Lemma lockfile_lock_held file retries stale w h w1 :
  lockfile_lock file retries stale w = (Return h, w1) ->
  handle_file h = file
  /\ markers w1 !! file = Some (mkHeld (handle_id h) (now w1)).
Proof.
  unfold lockfile_lock. destruct (markers w !! file) as [m|].
  - destruct (mtime m <? now w - stale_of stale); [apply take_lock_held|discriminate].
  - apply take_lock_held.
Qed.

(** A successful acquisition leaves the marker of the lock file in place,
    owned by the release function it returns. *)
Lemma acquireLock_held chvmHome options w release w1 :
  acquireLock chvmHome options w = (Return release, w1) ->
  handle_file release = lockFile_of chvmHome
  /\ markers w1 !! lockFile_of chvmHome = Some (mkHeld (handle_id release) (now w1)).
Proof.
  unfold acquireLock, bind, try_catch, throw. 
  destruct (if negb (existsSync (lockFile_of chvmHome) (files w)) then _ else _)
    as [[[]|e] w0]; [|discriminate].
  destruct (lockfile_lock _ _ _ w0) as [[h|e] w'] eqn:Hlock; [|discriminate].
  intros [= <- <-]. exact (lockfile_lock_held _ _ _ _ _ _ Hlock).
Qed.

Lemma acquireLock_steps chvmHome options w release w1 :
  acquireLock chvmHome options w = (Return release, w1) ->
  existsSync (lockFile_of chvmHome) (files w1) = true
  /\ release = mkHandle (lockFile_of chvmHome) (next_id w1 - 1)
  /\ markers w1 !! lockFile_of chvmHome = Some (mkHeld (handle_id release) (now w1)).
Proof.
  unfold acquireLock, bind, try_catch, throw.
  destruct (existsSync (lockFile_of chvmHome) (files w)) eqn:Hex; simpl negb; cbv iota.
  - destruct (lockfile_lock _ _ _ w) as [[h|e] w'] eqn:Hlock; [|discriminate].
    intros [= <- <-]. revert Hlock. unfold lockfile_lock, take_lock.
    destruct (markers w !! lockFile_of chvmHome) as [m|];
      [destruct (mtime m <? _); [|discriminate]|];
      intros [= <- <-]; simpl; rewrite lookup_insert_eq, Nat.sub_0_r; auto.
  - unfold on_files.
    destruct (writeFile (lockFile_of chvmHome) (lock_json (pid w) (now w)) (files w))
      as [[[]|e] fs] eqn:Hwrite; [|discriminate].
    destruct (writeFile_success _ _ _ _ Hwrite) as [Hfile _].
    destruct (lockfile_lock _ _ _ _) as [[h|e] w'] eqn:Hlock; [|discriminate].
    intros [= <- <-]. revert Hlock. unfold lockfile_lock, take_lock. simpl.
    destruct (markers w !! lockFile_of chvmHome) as [m|];
      [destruct (mtime m <? _); [|discriminate]|];
      intros [= <- <-]; simpl; rewrite lookup_insert_eq, Nat.sub_0_r;
      unfold existsSync; rewrite Hfile; auto.
Qed.

Lemma release_handle_held h w t :
  markers w !! handle_file h = Some (mkHeld (handle_id h) t) ->
  release_handle h w
  = (Return tt, mkLockWorld (files w) (delete (handle_file h) (markers w))
                            (now w) (pid w) (next_id w)).
Proof.
  intros Hm. unfold release_handle. rewrite Hm. simpl.
  rewrite bool_decide_eq_true_2 by reflexivity. reflexivity.
Qed.

(** C9. [withLock] first acquires the lock; when that fails its error is
    thrown and [fn] does not run.  Otherwise [fn] runs once, on the machine
    as the acquisition left it: the lock is held then, by the release
    function of this call, and [isLocked] answers [true] to whoever asks,
    [fn] included.  Whichever way [fn] ends (a returned result or a thrown
    error), the release function runs next: with the lock still the one of
    this call when [fn] ends, the call ends the way [fn] ended, and the
    machine is as [fn] left it but for the marker of the lock, which is
    gone, so that [isLocked] answers [false]. *)
Theorem withLock_releases_on_every_exit :
  forall (St A : Type) (chvmHome : Path) (fn : Eff (LockWorld * St) JsError A)
         (options : LockOptions) (w : LockWorld) (s : St),
    match acquireLock chvmHome options w with
    | (Throw e, w1) => withLock chvmHome fn options (w, s) = (Throw e, (w1, s))
    | (Return release, w1) =>
        handle_file release = lockFile_of chvmHome
        /\ owns release w1 = true
        /\ isLocked chvmHome options w1 = true
        /\ (withLock chvmHome (ask_locked chvmHome options) options (w, s)).1 = Return true
        /\ match fn (w1, s) with
           | (c, (w2, s2)) =>
               owns release w2 = true ->
               withLock chvmHome fn options (w, s)
               = (c, (unlocked (lockFile_of chvmHome) w2, s2))
               /\ isLocked chvmHome options (unlocked (lockFile_of chvmHome) w2) = false
           end
    end.
Proof.
  intros St A chvmHome fn options w s.
  destruct (acquireLock chvmHome options w) as [[release|e] w1] eqn:Hacq.
  - destruct (acquireLock_steps _ _ _ _ _ Hacq) as (Hfile & Hrel & Hheld).
    assert (Hhandle : handle_file release = lockFile_of chvmHome) by (rewrite Hrel; reflexivity).
    assert (Howns : owns release w1 = true).
    { unfold owns. rewrite Hhandle, Hheld. simpl. apply bool_decide_eq_true_2. reflexivity. }
    assert (Hlocked : isLocked chvmHome options w1 = true).
    { unfold isLocked, lockfile_check. rewrite Hfile, Hheld. simpl.
      rewrite (proj2 (Z.ltb_ge _ _)); [reflexivity|]. unfold stale_of. lia. }
    assert (Hrun : forall (B : Type) (f : Eff (LockWorld * St) JsError B),
               match f (w1, s) with
               | (c, (w2, s2)) =>
                   owns release w2 = true ->
                   withLock chvmHome f options (w, s)
                   = (c, (unlocked (lockFile_of chvmHome) w2, s2))
               end).
    { intros B f. unfold withLock, bind at 1, on_lock at 1. simpl. rewrite Hacq.
      unfold try_finally, bind, ret, on_lock, releaseLock, release_handle, owns, unlocked.
      destruct (f (w1, s)) as [c [w2 s2]]. simpl. rewrite Hhandle.
      destruct c; simpl;
        (destruct (markers w2 !! lockFile_of chvmHome) as [m|]; [|discriminate];
         intros Hmine; rewrite Hmine; reflexivity). }
    split; [exact Hhandle|]. split; [exact Howns|]. split; [exact Hlocked|]. split.
    + rewrite (Hrun bool (ask_locked chvmHome options) Howns). unfold ask_locked. simpl.
      rewrite Hlocked. reflexivity.
    + pose proof (Hrun A fn) as Hfn. destruct (fn (w1, s)) as [c [w2 s2]].
      intros Hkept. split; [exact (Hfn Hkept)|].
      unfold isLocked, lockfile_check, unlocked. simpl. rewrite lookup_delete_eq.
      destruct (negb _); reflexivity.
  - unfold withLock, bind, on_lock. simpl. rewrite Hacq. reflexivity.
Qed.

Lemma withLock_releases_on_every_exit_witness :
  withLock home mark_failed (mkLockOptions None None) (idle_machine, false)
  = (Throw (mkError "Test error"),
     (unlocked (lockFile_of home) (acquireLock home (mkLockOptions None None) idle_machine).2,
      true))
  /\ isLocked home (mkLockOptions None None)
       (unlocked (lockFile_of home) (acquireLock home (mkLockOptions None None) idle_machine).2)
     = false.
Proof.
  pose proof (withLock_releases_on_every_exit bool string home mark_failed
                (mkLockOptions None None) idle_machine false) as H.
  destruct (acquireLock home (mkLockOptions None None) idle_machine) as [[release|e] w1] eqn:Hacq;
    [|vm_compute in Hacq; discriminate].
  destruct H as (_ & Howns & _ & _ & Hfn). simpl in Hfn. exact (Hfn Howns).
Defined.

(** ** The catalog build: which failures are fatal *)

Lemma fetchVersionMapping_with_no_releases channel net c :
  catch_empty (fetchVersionMapping c (with_no_releases channel net)) =
  if bool_decide (c = channel) then [] else catch_empty (fetchVersionMapping c net).
Proof.
  unfold fetchVersionMapping, with_no_releases. simpl.
  destruct (bool_decide (c = channel)); reflexivity.
Qed.

(** C8. A failed release request of one channel counts as that channel
    yielding no releases: the build is the one obtained had the request
    succeeded with an empty array, and it returns a catalog whenever the
    revision listing was fetched.  A failure of the revision listing
    (a rejected request, a response that is not [ok], or any other error
    of [fetchRevisions]) is thrown by the build unchanged. *)
Theorem buildAvailableVersions_failures :
  forall (net : Net) (channel : string) (e : JsError),
    fetchVersionMapping channel net = Throw e ->
    buildAvailableVersions net = buildAvailableVersions (with_no_releases channel net)
    /\ (forall revisions,
          fetchRevisions (Some 9999992000%N) net = Return revisions ->
          exists catalog, buildAvailableVersions net = Return catalog)
    /\ (forall e',
          fetchRevisions (Some 9999992000%N) net = Throw e' ->
          buildAvailableVersions net = Throw e')
    /\ (forall e' rest rel,
          buildAvailableVersions (mkNet (Rejected e' :: rest) rel) = Throw e')
    /\ (forall statusText json rest rel,
          buildAvailableVersions (mkNet (Responded false statusText json :: rest) rel)
          = Throw (mkError ("Failed to fetch revisions: " +:+ statusText))).
Proof.
  intros net channel e Hfail. split; [|split; [|split; [|split]]].
  - unfold buildAvailableVersions.
    change (fetchRevisions (Some 9999992000%N) (with_no_releases channel net))
      with (fetchRevisions (Some 9999992000%N) net).
    destruct (fetchRevisions (Some 9999992000%N) net) as [revisions|e']; [|reflexivity].
    rewrite !fetchVersionMapping_with_no_releases.
    repeat match goal with
           | |- context [bool_decide (?c = channel)] =>
               destruct (bool_decide_reflect (c = channel)) as [<-|_];
               [rewrite Hfail; simpl catch_empty|]
           end; reflexivity.
  - intros revisions Hrev. unfold buildAvailableVersions. rewrite Hrev. eauto.
  - intros e' Hrev. unfold buildAvailableVersions. rewrite Hrev. reflexivity.
  - reflexivity.
  - reflexivity.
Qed.

Lemma buildAvailableVersions_failures_witness :
  buildAvailableVersions sample_net = buildAvailableVersions (with_no_releases "Beta" sample_net)
  /\ exists catalog, buildAvailableVersions sample_net = Return catalog.
Proof.
  destruct (buildAvailableVersions_failures sample_net "Beta" fetch_failed eq_refl)
    as (Hsame & Hok & _).
  split; [exact Hsame|].
  apply (Hok [mkRevision "882387" "Mac_Arm"; mkRevision "911515" "Mac_Arm";
              mkRevision "700000" "Mac_Arm"]).
  reflexivity.
Defined.

(** ** The catalog order *)

(** *** The comparator is a total preorder on valid versions *)

Lemma part_or_zero_past p j : (length p <= j)%nat -> part_or_zero p j = 0.
Proof.
  intros Hj. unfold part_or_zero. rewrite lookup_ge_None_2 by exact Hj. reflexivity.
Qed.

Lemma compare_parts_same_from n i p1 p2 :
  (forall j, (i <= j)%nat -> part_or_zero p1 j = part_or_zero p2 j) ->
  compare_parts n i p1 p2 = 0.
Proof.
  revert i; induction n as [|n IH]; intros i H; simpl; [reflexivity|].
  rewrite (H i) by lia. rewrite Z.gtb_ltb, Z.ltb_irrefl.
  apply IH. intros j Hj. apply H. lia.
Qed.

(** Iterations past the longer list compare 0 with 0 and change nothing. *)
Lemma compare_parts_extend n m i p1 p2 :
  (forall j, (i + n <= j)%nat -> part_or_zero p1 j = part_or_zero p2 j) ->
  compare_parts (n + m) i p1 p2 = compare_parts n i p1 p2.
Proof.
  revert i; induction n as [|n IH]; intros i H.
  - simpl. apply compare_parts_same_from. intros j Hj. apply H. lia.
  - simpl. rewrite IH; [reflexivity|]. intros j Hj. apply H. lia.
Qed.

Lemma compare_parts_at N p1 p2 :
  (Nat.max (length p1) (length p2) <= N)%nat ->
  compare_parts N 0 p1 p2 = compare_parts (Nat.max (length p1) (length p2)) 0 p1 p2.
Proof.
  intros HN.
  replace N with (Nat.max (length p1) (length p2)
                  + (N - Nat.max (length p1) (length p2)))%nat by lia.
  apply compare_parts_extend. intros j Hj.
  rewrite !part_or_zero_past by lia. reflexivity.
Qed.

Lemma compare_parts_le_trans n i p1 p2 p3 :
  compare_parts n i p1 p2 <= 0 ->
  compare_parts n i p2 p3 <= 0 ->
  compare_parts n i p1 p3 <= 0.
Proof.
  revert i; induction n as [|n IH]; intros i; simpl; [lia|].
  destruct (Z.gtb_spec (part_or_zero p1 i) (part_or_zero p2 i)); [lia|].
  destruct (Z.gtb_spec (part_or_zero p2 i) (part_or_zero p3 i)); [lia|].
  destruct (Z.gtb_spec (part_or_zero p1 i) (part_or_zero p3 i)); [lia|].
  destruct (Z.ltb_spec (part_or_zero p1 i) (part_or_zero p2 i)),
           (Z.ltb_spec (part_or_zero p2 i) (part_or_zero p3 i)),
           (Z.ltb_spec (part_or_zero p1 i) (part_or_zero p3 i));
    try lia. apply IH.
Qed.

Lemma compareVersions_le_trans a b c :
  valid_version a = true -> valid_version b = true -> valid_version c = true ->
  compareVersions (Some a) (Some b) <= 0 ->
  compareVersions (Some b) (Some c) <= 0 ->
  compareVersions (Some a) (Some c) <= 0.
Proof.
  intros Ha Hb Hc.
  destruct (valid_version_nonempty a Ha) as (ca & ra & ->).
  destruct (valid_version_nonempty b Hb) as (cb & rb & ->).
  destruct (valid_version_nonempty c Hc) as (cc & rc & ->).
  rewrite !compareVersions_parts.
  set (pa := version_parts (String ca ra)).
  set (pb := version_parts (String cb rb)).
  set (pc := version_parts (String cc rc)).
  set (N := Nat.max (length pa) (Nat.max (length pb) (length pc))).
  rewrite <- (compare_parts_at N pa pb), <- (compare_parts_at N pb pc),
          <- (compare_parts_at N pa pc) by lia.
  apply compare_parts_le_trans.
Qed.

(** *** Sorting with a comparator that is total and transitive on the
    elements at hand *)
Section SortFacts.
Context {A : Type} (cmp : A -> A -> Z) (P : A -> Prop).
Hypothesis cmp_total : forall x y, P x -> P y -> cmp x y <= 0 \/ cmp y x <= 0.
Hypothesis cmp_trans :
  forall x y z, P x -> P y -> P z -> cmp x y <= 0 -> cmp y z <= 0 -> cmp x z <= 0.

Lemma insert_sorted_Forall (Q : A -> Prop) x l :
  Q x -> Forall Q l -> Forall Q (insert_sorted cmp x l).
Proof.
  intros Hx Hl. induction Hl as [|y l Hy Hl IH]; simpl.
  - constructor; [exact Hx|constructor].
  - destruct (cmp x y <=? 0); repeat constructor; auto.
Qed.

Lemma sort_Forall (Q : A -> Prop) l : Forall Q l -> Forall Q (sort cmp l).
Proof.
  intros Hl. induction Hl as [|y l Hy Hl IH]; simpl; [constructor|].
  apply insert_sorted_Forall; assumption.
Qed.

Lemma insert_sorted_ordered x l :
  P x -> Forall P l ->
  StronglySorted (fun a b => cmp a b <= 0) l ->
  StronglySorted (fun a b => cmp a b <= 0) (insert_sorted cmp x l).
Proof.
  intros Hx HP Hs. induction Hs as [|y l Hs IH Hy]; simpl.
  - repeat constructor.
  - apply Forall_cons_1 in HP as [HPy HPl].
    destruct (Z.leb_spec (cmp x y) 0) as [Hle|Hgt].
    + constructor; [constructor; assumption|].
      constructor; [exact Hle|].
      rewrite Forall_forall in Hy, HPl |- *. intros z Hz.
      apply (cmp_trans x y z); auto.
    + constructor; [apply IH; assumption|].
      apply insert_sorted_Forall; [|exact Hy].
      destruct (cmp_total x y Hx HPy); [lia|assumption].
Qed.

Lemma sort_ordered l :
  Forall P l -> StronglySorted (fun a b => cmp a b <= 0) (sort cmp l).
Proof.
  intros HP. induction HP as [|y l Hy HP IH]; simpl; [constructor|].
  apply insert_sorted_ordered; [exact Hy| |exact IH].
  apply sort_Forall. exact HP.
Qed.
End SortFacts.

Lemma StronglySorted_weaken {A} (R R' : A -> A -> Prop) (P : A -> Prop) l :
  (forall x y, P x -> P y -> R x y -> R' x y) ->
  Forall P l -> StronglySorted R l -> StronglySorted R' l.
Proof.
  intros Himp HP Hs. induction Hs as [|y l Hs IH Hy]; [constructor|].
  apply Forall_cons_1 in HP as [HPy HPl].
  constructor; [apply IH; exact HPl|].
  rewrite Forall_forall in Hy, HPl |- *. intros z Hz. apply Himp; auto.
Qed.

(** *** What the fetched data looks like *)

Lemma span_digits_fixed s :
  span_digits (span_digits s).1 = ((span_digits s).1, EmptyString).
Proof.
  induction s as [|c r IH]; cbn [span_digits fst]; [reflexivity|].
  destruct (is_digit c) eqn:Hc; [|reflexivity].
  destruct (span_digits r) as [d rest]. cbn [span_digits fst] in *.
  rewrite Hc, IH. reflexivity.
Qed.

Lemma match_here_numeric s m : match_here s = Some m -> numeric m.
Proof.
  unfold match_here. destruct (strip_prefix _ s) as [r|]; [|discriminate].
  pose proof (span_digits_fixed r) as Hfix.
  destruct (span_digits r) as [[|c d] rest]; [discriminate|].
  destruct rest as [|a rest]; [discriminate|].
  destruct (Ascii.eqb_spec a "/") as [->|Hne].
  - intros [= <-]. cbn [fst] in Hfix. unfold numeric, parseInt. rewrite Hfix. eauto.
  - intros H. exfalso. revert H.
    destruct a as [[] [] [] [] [] [] [] []]; try discriminate. contradiction.
Qed.

Lemma match_revision_numeric s m : match_revision s = Some m -> numeric m.
Proof.
  induction s as [|c r IH]; cbn [match_revision].
  - discriminate.
  - destruct (match_here (String c r)) eqn:H.
    + intros [= <-]. eapply match_here_numeric, H.
    + exact IH.
Qed.

Lemma slice0_Forall {A} (Q : A -> Prop) limit l :
  Forall Q l -> Forall Q (slice0 limit l).
Proof.
  intros Hl. revert limit. induction Hl as [|x l Hx Hl IH]; intros limit; simpl.
  - constructor.
  - destruct (limit =? 0)%N; constructor; auto.
Qed.

Lemma fetchRevisions_loop_numeric limit acc pages revisions :
  Forall (fun r => numeric (rev_revision r)) acc ->
  fetchRevisions_loop limit acc pages = Return revisions ->
  Forall (fun r => numeric (rev_revision r)) revisions.
Proof.
  revert acc; induction pages as [|page pages IH]; intros acc Hacc; simpl; [discriminate|].
  destruct page as [e|ok statusText [data|e]]; try discriminate;
    destruct ok; simpl; try discriminate.
  match goal with
  | |- context [acc ++ ?new] =>
      assert (Hall : Forall (fun r => numeric (rev_revision r)) (acc ++ new))
  end.
  { apply Forall_app. split; [exact Hacc|].
    apply Forall_forall. intros rev Hin.
    apply list_elem_of_omap in Hin as (prefix & _ & Hm).
    destruct (match_revision prefix) as [m|] eqn:Hmatch; [|discriminate].
    injection Hm as <-. simpl. eapply match_revision_numeric, Hmatch. }
  destruct limit as [[|l]|].
  - destruct (truthy_string (nextPageToken data)); [apply IH; exact Hall|].
    intros [= <-]. exact Hall.
  - destruct (N.pos l <=? _)%N.
    + intros [= <-]. apply slice0_Forall, Hall.
    + destruct (truthy_string (nextPageToken data)); [apply IH; exact Hall|].
      intros [= <-]. exact Hall.
  - destruct (truthy_string (nextPageToken data)); [apply IH; exact Hall|].
    intros [= <-]. exact Hall.
Qed.

(** Every revision that [fetchRevisions] returns is a run of digits: the
    pattern [(\d+)] captured it. *)
Lemma fetchRevisions_numeric limit net revisions :
  fetchRevisions limit net = Return revisions ->
  Forall (fun r => numeric (rev_revision r)) revisions.
Proof. apply fetchRevisions_loop_numeric. constructor. Qed.

Lemma record_release_valid positionMap release :
  valid_release release ->
  map_Forall (fun _ info => valid_info info) positionMap ->
  map_Forall (fun _ info => valid_info info) (record_release positionMap release).
Proof.
  intros Hrel Hmap. unfold record_release.
  destruct (chromium_main_branch_position release) as [position|]; [|exact Hmap].
  destruct (position =? 0); [exact Hmap|].
  destruct (positionMap !! String_of position) eqn:Hkey; [exact Hmap|].
  apply map_Forall_insert; [exact Hkey|]. split; [exact Hrel|exact Hmap].
Qed.

Lemma build_positionMap_valid allReleases :
  Forall valid_release allReleases ->
  map_Forall (fun _ info => valid_info info) (build_positionMap allReleases).
Proof.
  unfold build_positionMap. intros Hall.
  assert (Hfold : forall m0, map_Forall (fun _ info => valid_info info) m0 ->
            map_Forall (fun _ info => valid_info info) (foldl record_release m0 allReleases)).
  { induction Hall as [|r l Hr Hl IH]; intros m0 Hm0; simpl; [exact Hm0|].
    apply IH, record_release_valid; assumption. }
  apply Hfold, map_Forall_empty.
Qed.

Lemma probe_in_map positionMap revNum n offset info :
  probe positionMap revNum n offset = Some info ->
  exists key, positionMap !! key = Some info.
Proof.
  revert offset; induction n as [|n IH]; intros offset; simpl; [discriminate|].
  destruct (positionMap !! String_num ((fun r => r + offset) <$> revNum)) eqn:Hup.
  { intros [= <-]. eauto. }
  destruct (positionMap !! String_num ((fun r => r - offset) <$> revNum)) eqn:Hdown.
  { intros [= <-]. eauto. }
  apply IH.
Qed.

Lemma find_versionInfo_in_map positionMap rev info :
  find_versionInfo positionMap rev = Some info ->
  exists key, positionMap !! key = Some info.
Proof.
  unfold find_versionInfo.
  destruct (positionMap !! rev_revision rev) eqn:Hexact.
  - intros [= <-]. eauto.
  - apply probe_in_map.
Qed.

Lemma classify_groups positionMap revisions :
  map_Forall (fun _ info => valid_info info) positionMap ->
  Forall (fun r => numeric (rev_revision r)) revisions ->
  forall groups,
    Forall versioned_ok groups.1 -> Forall unversioned_ok groups.2 ->
    Forall versioned_ok (foldl (classify positionMap) groups revisions).1
    /\ Forall unversioned_ok (foldl (classify positionMap) groups revisions).2.
Proof.
  intros Hmap Hrevs. induction Hrevs as [|rev l Hrev Hl IH]; intros [vs us] Hvs Hus.
  - split; assumption.
  - simpl foldl. apply IH; unfold classify;
      destruct (find_versionInfo positionMap rev) as [info|] eqn:Hfind; simpl in *;
      try assumption.
    + apply Forall_app. split; [exact Hvs|]. constructor; [|constructor].
      destruct (find_versionInfo_in_map _ _ _ Hfind) as [key Hkey].
      split; [reflexivity|]. exact (Hmap key info Hkey).
    + apply Forall_app. split; [exact Hus|]. constructor; [|constructor].
      split; [reflexivity|exact Hrev].
Qed.

Lemma by_version_desc_total x y :
  versioned_ok x -> versioned_ok y ->
  by_version_desc x y <= 0 \/ by_version_desc y x <= 0.
Proof.
  intros [_ (vx & Hx & Hvx)] [_ (vy & Hy & Hvy)]. unfold by_version_desc.
  rewrite Hx, Hy. pose proof (compareVersions_flip vx vy Hvx Hvy). lia.
Qed.

Lemma by_version_desc_trans x y z :
  versioned_ok x -> versioned_ok y -> versioned_ok z ->
  by_version_desc x y <= 0 -> by_version_desc y z <= 0 -> by_version_desc x z <= 0.
Proof.
  intros [_ (vx & Hx & Hvx)] [_ (vy & Hy & Hvy)] [_ (vz & Hz & Hvz)].
  unfold by_version_desc. rewrite Hx, Hy, Hz. intros Hxy Hyz.
  apply (compareVersions_le_trans vz vy vx); assumption.
Qed.

Lemma by_revision_desc_total x y :
  unversioned_ok x -> unversioned_ok y ->
  by_revision_desc x y <= 0 \/ by_revision_desc y x <= 0.
Proof.
  intros [_ [nx Hx]] [_ [ny Hy]]. unfold by_revision_desc. rewrite Hx, Hy. lia.
Qed.

Lemma by_revision_desc_trans x y z :
  unversioned_ok x -> unversioned_ok y -> unversioned_ok z ->
  by_revision_desc x y <= 0 -> by_revision_desc y z <= 0 -> by_revision_desc x z <= 0.
Proof.
  intros [_ [nx Hx]] [_ [ny Hy]] [_ [nz Hz]]. unfold by_revision_desc.
  rewrite Hx, Hy, Hz. lia.
Qed.

(** The catalog assembled from well-formed data satisfies the invariant. *)
Lemma assemble_invariant revisions allReleases :
  Forall (fun r => numeric (rev_revision r)) revisions ->
  Forall valid_release allReleases ->
  catalog_invariant (assemble revisions allReleases).
Proof.
  intros Hrevs Hrels. unfold assemble.
  destruct (classify_groups (build_positionMap allReleases) revisions
              (build_positionMap_valid _ Hrels) Hrevs ([], []))
    as [Hvs Hus]; [constructor|constructor|].
  destruct (foldl _ ([], []) revisions) as [versioned unversioned]. simpl in Hvs, Hus.
  exists (sort by_version_desc versioned), (sort by_revision_desc unversioned).
  split; [reflexivity|].
  assert (Hvs' := sort_Forall by_version_desc versioned_ok versioned Hvs).
  assert (Hus' := sort_Forall by_revision_desc unversioned_ok unversioned Hus).
  split; [eapply Forall_impl; [exact Hvs'|intros e He; apply He]|].
  split; [eapply Forall_impl; [exact Hus'|intros e He; apply He]|].
  split.
  - eapply (StronglySorted_weaken _ _ versioned_ok); [|exact Hvs'|].
    2: { apply (sort_ordered by_version_desc versioned_ok);
         [apply by_version_desc_total|apply by_version_desc_trans|exact Hvs]. }
    intros x y [_ (vx & Hx & Hvx)] [_ (vy & Hy & Hvy)]. unfold by_version_desc, version_desc.
    rewrite Hx, Hy. pose proof (compareVersions_flip vx vy Hvx Hvy). lia.
  - eapply (StronglySorted_weaken _ _ unversioned_ok); [|exact Hus'|].
    2: { apply (sort_ordered by_revision_desc unversioned_ok);
         [apply by_revision_desc_total|apply by_revision_desc_trans|exact Hus]. }
    intros x y [_ [nx Hx]] [_ [ny Hy]]. unfold by_revision_desc, revision_desc.
    rewrite Hx, Hy. intros Hle. exists nx, ny. repeat split; try assumption. lia.
Qed.

Lemma catch_empty_valid net channel :
  (forall l, fetchVersionMapping channel net = Return l -> Forall valid_release l) ->
  Forall valid_release (catch_empty (fetchVersionMapping channel net)).
Proof.
  intros H. destruct (fetchVersionMapping channel net) as [l|e]; simpl.
  - apply H. reflexivity.
  - constructor.
Qed.

(** C3. Whenever the build returns a catalog from channel data that is
    well formed (every release carries a valid dotted version), the
    catalog is a group of entries with [hasVersion = true], sorted from
    the highest version down under [compareVersions], followed by a group
    of entries with [hasVersion = false], sorted from the highest revision
    number down. *)
Theorem buildAvailableVersions_catalog_invariant :
  forall (net : Net) (catalog : list CatalogEntry),
    (forall channel l,
        In channel channels ->
        fetchVersionMapping channel net = Return l -> Forall valid_release l) ->
    buildAvailableVersions net = Return catalog ->
    catalog_invariant catalog.
Proof.
  intros net catalog Hvalid. unfold buildAvailableVersions.
  destruct (fetchRevisions (Some 9999992000%N) net) as [revisions|e] eqn:Hrev; [|discriminate].
  intros [= <-]. apply assemble_invariant.
  - eapply fetchRevisions_numeric, Hrev.
  - repeat (apply Forall_app; split);
      apply catch_empty_valid; intros l; apply Hvalid; simpl; auto.
Qed.

Lemma buildAvailableVersions_catalog_invariant_witness :
  catalog_invariant
    [mkEntry (Some "93.0.4577.82") "911515" (Some "Stable") "Mac_Arm" true;
     mkEntry (Some "92.0.4515.159") "882387" (Some "Stable") "Mac_Arm" true;
     mkEntry None "700000" None "Mac_Arm" false].
Proof.
  apply (buildAvailableVersions_catalog_invariant sample_net); [|reflexivity].
  intros channel l Hin.
  destruct Hin as [<-|[<-|[<-|[<-|[]]]]]; try discriminate.
  intros [= <-].
  repeat constructor; eexists; split; reflexivity.
Defined.

(** ** The atomic installer *)

Import Installer.

Lemma subtree_rm tmpDir finalPath fs :
  apart tmpDir finalPath ->
  subtree finalPath (filter (fun e => ¬ tmpDir `prefix_of` e.1) fs) = subtree finalPath fs.
Proof.
  intros [Htf Hft]. unfold subtree. apply list_filter_filter_l.
  intros e Hfinal Htmp.
  destruct (prefix_weak_total _ _ _ Hfinal Htmp); contradiction.
Qed.

Lemma lookup_entry_rm p fs :
  lookup_entry p (filter (fun e => ¬ p `prefix_of` e.1) fs) = None.
Proof.
  induction fs as [|[q n] fs IH]; [reflexivity|].
  rewrite filter_cons. simpl. case_decide as Hq; [|exact IH].
  simpl. rewrite bool_decide_eq_false_2; [exact IH|].
  intros ->. apply Hq. reflexivity.
Qed.

Lemma existsSync_rm c p fs :
  existsSync (c :: p) (filter (fun e => ¬ (c :: p) `prefix_of` e.1) fs) = false.
Proof. unfold existsSync, node_at. rewrite lookup_entry_rm. reflexivity. Qed.

Lemma mkdir_from_subtree finalPath pre rest fs c fs' :
  ¬ finalPath `prefix_of` (pre ++ rest) ->
  mkdir_from pre rest fs = (c, fs') ->
  subtree finalPath fs' = subtree finalPath fs.
Proof.
  revert pre fs; induction rest as [|x rest IH]; intros pre fs Hnot; simpl.
  - intros [= _ <-]. reflexivity.
  - assert (Hnext : ¬ finalPath `prefix_of` ((pre ++ [x]) ++ rest))
      by (rewrite <- app_assoc; exact Hnot).
    destruct (node_at fs (pre ++ [x])) as [[content|]|].
    + intros [= _ <-]. reflexivity.
    + apply IH, Hnext.
    + intros Hrec. rewrite (IH _ _ Hnext Hrec). unfold subtree.
      rewrite filter_app, filter_cons_False, filter_nil, app_nil_r; [reflexivity|].
      simpl. intros Hp. apply Hnext. apply prefix_app_r, Hp.
Qed.

(** The [catch] block of [atomicInstall], from any state: the temporary
    directory is gone afterwards, the error is the one caught, and nothing
    outside the temporary directory has changed. *)
Lemma atomicInstall_handler chvmHome hex finalPath (error : JsError) fs :
  apart (tmpDir_of chvmHome hex) finalPath ->
  exists fs',
    (if existsSync (tmpDir_of chvmHome hex) fs
     then bind (cleanupTempDirectory (tmpDir_of chvmHome hex))
               (fun _ => throw error : Eff FS JsError unit) fs
     else throw error fs) = (Throw error, fs')
    /\ existsSync (tmpDir_of chvmHome hex) fs' = false
    /\ subtree finalPath fs' = subtree finalPath fs.
Proof.
  intros Hapart.
  destruct (existsSync (tmpDir_of chvmHome hex) fs) eqn:Hex.
  - unfold bind, cleanupTempDirectory, rm_recursive_force, throw. rewrite Hex.
    eexists. split; [reflexivity|]. split.
    + unfold tmpDir_of in *. destruct chvmHome; apply existsSync_rm.
    + apply subtree_rm, Hapart.
  - exists fs. repeat split. exact Hex.
Qed.

(** A move from a source that is not there fails at once: neither the
    rename nor the copy touches anything. *)
Lemma moveDirectory_missing_source c source dest fs :
  node_at fs (c :: source) = None ->
  moveDirectory (c :: source) dest fs = (Throw ENOENT, fs).
Proof.
  intros Hnone. unfold moveDirectory, try_catch, rename, bind, cp_recursive.
  rewrite !Hnone. reflexivity.
Qed.

(** C2, as the code has it.  Let the temporary directory have been
    created, and let it and [finalPath] lie apart.  If the population step
    or the publish step then throws [e], [atomicInstall] throws the same
    [e], the temporary directory no longer exists, and the clean-up leaves
    [finalPath] exactly as the failing step left it; so [finalPath] is
    exactly as before the attempt whenever the population step and the
    failed move did not themselves write below it. *)
Theorem atomicInstall_failure_cleanup :
  forall (installFn : Path -> Eff FS JsError Path) (finalPath chvmHome : Path) (hex : string)
         (fs fs1 fs2 : FS) (e : JsError),
    apart (tmpDir_of chvmHome hex) finalPath ->
    mkdir_recursive (tmpDir_of chvmHome hex) fs = (Return tt, fs1) ->
    populate_or_publish_throws installFn finalPath (tmpDir_of chvmHome hex) fs1 e fs2 ->
    exists fs',
      atomicInstall installFn finalPath chvmHome hex fs = (Throw e, fs')
      /\ existsSync (tmpDir_of chvmHome hex) fs' = false
      /\ subtree finalPath fs' = subtree finalPath fs2
      /\ (subtree finalPath fs2 = subtree finalPath fs1 ->
          subtree finalPath fs' = subtree finalPath fs).
Proof.
  intros installFn finalPath chvmHome hex fs fs1 fs2 e Hapart Hmkdir Hfail.
  destruct (atomicInstall_handler chvmHome hex finalPath e fs2 Hapart)
    as (fs' & Hhandler & Hgone & Hsame).
  exists fs'.
  assert (Hrun : atomicInstall installFn finalPath chvmHome hex fs = (Throw e, fs')).
  { unfold atomicInstall, try_catch, bind at 1. rewrite Hmkdir.
    destruct Hfail as [Hpop|(installedPath & fsm & Hpop & Hmove)].
    - unfold bind at 1. rewrite Hpop. exact Hhandler.
    - unfold bind at 1. rewrite Hpop. unfold bind at 1. rewrite Hmove. exact Hhandler. }
  split; [exact Hrun|]. split; [exact Hgone|]. split; [exact Hsame|].
  intros Hkept. rewrite Hsame, Hkept.
  apply (mkdir_from_subtree finalPath [] (tmpDir_of chvmHome hex) fs (Return tt) fs1);
    [apply Hapart|exact Hmkdir].
Qed.

Lemma atomicInstall_failure_cleanup_witness :
  exists fs',
    atomicInstall unpack_fails installs_92 home "00ff" old_disk
    = (Throw (mkError "Install failed"), fs')
    /\ existsSync (tmpDir_of home "00ff") fs' = false
    /\ subtree installs_92 fs' = subtree installs_92 old_disk.
Proof.
  destruct (atomicInstall_failure_cleanup unpack_fails installs_92 home "00ff" old_disk
              (old_disk ++ [(["home"; "tmp"], Dir); (tmpDir_of home "00ff", Dir)])
              (old_disk ++ [(["home"; "tmp"], Dir); (tmpDir_of home "00ff", Dir);
                            (tmpDir_of home "00ff" ++ ["partial"], File "...")])
              (mkError "Install failed"))
    as (fs' & Hrun & Hgone & _ & Hkept).
  - split; intros [k Hk]; discriminate.
  - reflexivity.
  - left. reflexivity.
  - exists fs'. split; [exact Hrun|]. split; [exact Hgone|]. apply Hkept. reflexivity.
Defined.

(** C2, where the claim fails.  Version 92 is installed, with a file
    [b.txt] and a directory [data], and is installed again from a bundle
    made of a file [b.txt] and a file [data].  The population step
    succeeds and leaves the installation alone; the bundle is listed with
    [b.txt] before [data].  The publish step throws: the rename is refused
    (the destination is a directory that is not empty) and the copy that
    follows, going through the bundle as it is listed, has replaced
    [b.txt] when it reaches [data], a regular file that meets a directory.
    [atomicInstall] throws that error and removes the temporary directory,
    but the installation is no longer as it was. *)
Lemma atomicInstall_failed_publish_overwrites :
  exists fs1 installedPath fsm e fs2 fs',
    mkdir_recursive (tmpDir_of home "00ff") old_disk = (Return tt, fs1)
    /\ unpack_new_layout (tmpDir_of home "00ff") fs1 = (Return installedPath, fsm)
    /\ subtree installedPath fsm
       = [(installedPath, Dir);
          (installedPath ++ ["b.txt"], File "new");
          (installedPath ++ ["data"], File "blob")]
    /\ subtree installs_92 fsm = subtree installs_92 old_disk
    /\ moveDirectory installedPath installs_92 fsm = (Throw e, fs2)
    /\ atomicInstall unpack_new_layout installs_92 home "00ff" old_disk = (Throw e, fs')
    /\ existsSync (tmpDir_of home "00ff") fs' = false
    /\ node_at old_disk (installs_92 ++ ["b.txt"]) = Some (File "old")
    /\ node_at fs' (installs_92 ++ ["b.txt"]) = Some (File "new")
    /\ e = ERR_FS_CP_NON_DIR_TO_DIR
    /\ subtree installs_92 fs' <> subtree installs_92 old_disk.
Proof.
  do 6 eexists. repeat split; try (vm_compute; reflexivity).
  vm_compute. discriminate.
Qed.

(** ** The model at work: the repository's unit tests replayed *)

(** [sort] rearranges and never drops or invents an element. *)
Lemma sort_permutation {A} (cmp : A -> A -> Z) (l : list A) : sort cmp l ≡ₚ l.
Proof.
  induction l as [|x l IH]; [reflexivity|]. simpl.
  transitivity (x :: sort cmp l); [|constructor; exact IH].
  generalize (sort cmp l). clear. intros l.
  induction l as [|y l IH]; simpl; [reflexivity|].
  destruct (cmp x y <=? 0); [reflexivity|].
  rewrite IH. apply Permutation_swap.
Qed.

(** tests/unit/mapping.test.js, [compareVersions]. *)
Example compareVersions_tests :
  compareVersions (Some "92.0.4515.159") (Some "93.0.4577.82") = -1
  /\ compareVersions (Some "93.0.4577.82") (Some "92.0.4515.159") = 1
  /\ compareVersions (Some "92.0.4515.159") (Some "92.0.4515.159") = 0
  /\ compareVersions (Some "92.0") (Some "92.0.0.1") = -1
  /\ compareVersions (Some "92.0.0.1") (Some "92.0") = 1
  /\ compareVersions (Some "9.0.0.0") (Some "10.0.0.0") = -1
  /\ compareVersions (Some "100.0.0.0") (Some "99.0.0.0") = 1
  /\ compareVersions None (Some "1.0") = -1
  /\ compareVersions (Some "1.0") None = 1.
Proof. repeat split. Qed.

(** tests/unit/mapping.test.js, [resolveVersion]. *)
Example resolveVersion_tests :
  resolveVersion "92.0.4515.159" test_catalog = Some (test_entry "92.0.4515.159" "882387")
  /\ resolveVersion "882387" test_catalog = Some (test_entry "92.0.4515.159" "882387")
  /\ resolveVersion "92" test_catalog = Some (test_entry "92.0.4515.159" "882387")
  /\ resolveVersion "999.0.0.0" [test_entry "92.0.4515.159" "882387"] = None
  /\ resolveVersion "oldest" test_catalog = Some (test_entry "93.0.4577.82" "911515").
Proof. repeat split. Qed.

(** The catalog built from the sample network: revision 882387 finds
    its version three positions up, revision 700000 finds none. *)
Example buildAvailableVersions_sample :
  buildAvailableVersions sample_net
  = Return [mkEntry (Some "93.0.4577.82") "911515" (Some "Stable") "Mac_Arm" true;
            mkEntry (Some "92.0.4515.159") "882387" (Some "Stable") "Mac_Arm" true;
            mkEntry None "700000" None "Mac_Arm" false].
Proof. vm_compute. reflexivity. Qed.

(** tests/unit/installer.test.js: a successful install publishes the file
    and removes the temporary directory; an install over an existing one
    merges the new file in beside the old ones. *)
Example atomicInstall_tests :
  (atomicInstall write_test_file ["testDir"; "final.app"] ["testDir"] "00ff"
     [(["testDir"], Dir)]).1 = Return tt
  /\ node_at (atomicInstall write_test_file ["testDir"; "final.app"] ["testDir"] "00ff"
                [(["testDir"], Dir)]).2
             ["testDir"; "final.app"; "test.txt"] = Some (File "test")
  /\ existsSync (tmpDir_of ["testDir"] "00ff")
       (atomicInstall write_test_file ["testDir"; "final.app"] ["testDir"] "00ff"
          [(["testDir"], Dir)]).2 = false
  /\ node_at (atomicInstall write_test_file installs_92 home "00ff" old_disk).2
             (installs_92 ++ ["b.txt"]) = Some (File "old")
  /\ node_at (atomicInstall write_test_file installs_92 home "00ff" old_disk).2
             (installs_92 ++ ["test.txt"]) = Some (File "test").
Proof. repeat split; vm_compute; reflexivity. Qed.

(** tests/unit/downloader.test.js, [retryFetch]: with two failures the
    waits are [delay] and [2 * delay]. *)
Example retryFetch_tests :
  retryFetch fails_twice (mkOptions None (Some 100) None) (mkRetry 0%nat [])
  = (Return "success",
     mkRetry 3%nat [Invoked; Slept 100; Invoked; Slept 200; Invoked]).
Proof. vm_compute. reflexivity. Qed.

(** tests/unit/lock.test.js, [withLock]: both exits on the idle machine,
    and the lock can be taken again afterwards; a function that asks
    finds the lock held while it runs. *)
Example withLock_runs :
  (withLock home mark_done (mkLockOptions None None) (idle_machine, false)).1
    = Return "success"
  /\ (withLock home (ask_locked home (mkLockOptions None None)) (mkLockOptions None None)
        (idle_machine, false)).1
    = Return true
  /\ (withLock home mark_failed (mkLockOptions None None) (idle_machine, false)).1
    = Throw (mkError "Test error")
  /\ isLocked home (mkLockOptions None None)
       (withLock home mark_failed (mkLockOptions None None) (idle_machine, false)).2.1
     = false
  /\ exists release w,
       acquireLock home (mkLockOptions None None)
         (withLock home mark_failed (mkLockOptions None None) (idle_machine, false)).2.1
       = (Return release, w).
Proof. repeat split; try (vm_compute; reflexivity). do 2 eexists. vm_compute. reflexivity. Qed.

(* ===================================================================== *)
(** * Part IV. Further properties of the code                             *)
(* ===================================================================== *)

(** ** mapping.js: the comparator *)

Lemma compare_parts_range n i p1 p2 :
  compare_parts n i p1 p2 = -1 \/ compare_parts n i p1 p2 = 0 \/ compare_parts n i p1 p2 = 1.
Proof.
  revert i; induction n as [|n IH]; intros i; simpl; [auto|].
  destruct (part_or_zero p1 i >? part_or_zero p2 i); [auto|].
  destruct (part_or_zero p1 i <? part_or_zero p2 i); [auto|]. apply IH.
Qed.

Lemma compareVersions_range v1 v2 :
  compareVersions v1 v2 = -1 \/ compareVersions v1 v2 = 0 \/ compareVersions v1 v2 = 1.
Proof.
  destruct v1 as [[|a1 r1]|], v2 as [[|a2 r2]|]; simpl; auto.
  apply compare_parts_range.
Qed.

(** X1. On valid versions [compareVersions] is a total preorder with
    values in {-1, 0, 1}: any two versions are comparable and "not
    above" is transitive, so it is fit to be a [sort] comparator. *)
Theorem compareVersions_total_preorder :
  forall a b c : string,
    valid_version a = true -> valid_version b = true -> valid_version c = true ->
    (compareVersions (Some a) (Some b) = -1 \/ compareVersions (Some a) (Some b) = 0
     \/ compareVersions (Some a) (Some b) = 1)
    /\ (compareVersions (Some a) (Some b) <= 0 \/ compareVersions (Some b) (Some a) <= 0)
    /\ (compareVersions (Some a) (Some b) <= 0 -> compareVersions (Some b) (Some c) <= 0 ->
        compareVersions (Some a) (Some c) <= 0).
Proof.
  intros a b c Ha Hb Hc. split; [apply compareVersions_range|]. split.
  - pose proof (compareVersions_flip a b Ha Hb). lia.
  - apply compareVersions_le_trans; assumption.
Qed.

Lemma compareVersions_total_preorder_witness :
  compareVersions (Some "91.0.4472.124") (Some "93.0.4577.82") <= 0.
Proof.
  destruct (compareVersions_total_preorder "91.0.4472.124" "92.0.4515.159" "93.0.4577.82"
              eq_refl eq_refl eq_refl) as (_ & _ & Htrans).
  apply Htrans; vm_compute; discriminate.
Defined.

Lemma compare_parts_zero_iff n i p1 p2 :
  compare_parts n i p1 p2 = 0 <->
  forall j, (i <= j < i + n)%nat -> part_or_zero p1 j = part_or_zero p2 j.
Proof.
  revert i; induction n as [|n IH]; intros i; simpl.
  - split; [intros _ j Hj; lia|reflexivity].
  - destruct (Z.gtb_spec (part_or_zero p1 i) (part_or_zero p2 i)) as [Hgt|Hle].
    { split; [discriminate|]. intros H. specialize (H i). lia. }
    destruct (Z.ltb_spec (part_or_zero p1 i) (part_or_zero p2 i)) as [Hlt|Hge].
    { split; [discriminate|]. intros H. specialize (H i). lia. }
    rewrite IH. split; intros H j Hj.
    + destruct (decide (j = i)) as [->|Hne]; [lia|]. apply H. lia.
    + apply H. lia.
Qed.

Lemma valid_component_Number c :
  valid_component c = true -> Number c = Some (decimal_from 0 c).
Proof.
  unfold valid_component, Number. destruct c as [|a r]; [discriminate|].
  intros ->. reflexivity.
Qed.

Lemma part_or_zero_component v i :
  valid_version v = true -> part_or_zero (version_parts v) i = component v i.
Proof.
  unfold valid_version, version_parts, component, components, part_or_zero.
  generalize (split "." v). intros l. revert i.
  induction l as [|c l IH]; intros i Hl; [destruct i; reflexivity|].
  simpl in Hl. apply andb_prop in Hl as [Hc Hl].
  destruct i as [|i]; simpl.
  - rewrite (valid_component_Number c Hc). reflexivity.
  - apply IH, Hl.
Qed.

(** X2. Two valid versions whose components are at most 2^53 (the range
    in which [Number] is exact) compare equal exactly when they have the
    same numeric components once the shorter one is padded with zeros;
    leading zeros inside a component and trailing zero components do not
    count. *)
Theorem compareVersions_zero_iff :
  forall a b : string,
    valid_version a = true -> valid_version b = true ->
    exact_components a -> exact_components b ->
    (compareVersions (Some a) (Some b) = 0 <-> forall i, component a i = component b i).
Proof.
  intros a b Ha Hb _ _.
  destruct (valid_version_nonempty a Ha) as (ca & ra & Ea).
  destruct (valid_version_nonempty b Hb) as (cb & rb & Eb).
  rewrite Ea, Eb, compareVersions_parts, <- Ea, <- Eb, compare_parts_zero_iff.
  split; intros H i.
  - rewrite <- !part_or_zero_component by assumption.
    destruct (decide (i < Nat.max (length (version_parts a)) (length (version_parts b)))%nat).
    + apply H. lia.
    + rewrite !part_or_zero_past by lia. reflexivity.
  - intros _. rewrite !part_or_zero_component by assumption. apply H.
Qed.

Lemma compareVersions_zero_iff_witness :
  compareVersions (Some "092.0") (Some "92.00.0") = 0.
Proof.
  apply (compareVersions_zero_iff "092.0" "92.00.0" eq_refl eq_refl);
    [repeat constructor; vm_compute; discriminate..|].
  intros i. do 4 (destruct i as [|i]; [reflexivity|]). unfold component.
  simpl. destruct i; reflexivity.
Defined.

(** ** mapping.js: the resolver *)

Lemma find_elem_of {A} (f : A -> bool) (l : list A) x :
  find f l = Some x -> x ∈ l /\ f x = true.
Proof.
  intros H. apply find_some in H as [Hin Hf]. split; [|exact Hf].
  apply list_elem_of_In, Hin.
Qed.

Lemma find_none_iff {A} (f : A -> bool) (l : list A) :
  find f l = None <-> forall x, x ∈ l -> f x = false.
Proof.
  split.
  - intros H x Hx. apply (find_none f l H). apply list_elem_of_In, Hx.
  - induction l as [|y l IH]; intros H; [reflexivity|]. simpl.
    rewrite (H y) by left. apply IH. intros x Hx. apply H. right. exact Hx.
Qed.

(** X3. Whatever the query, the resolver hands back an entry of the
    catalog it was given, never one of its own making; and on a catalog
    that is not empty the keywords ["latest"] and ["oldest"] always
    resolve. *)
Theorem resolveVersion_member :
  forall (query : string) (available : list CatalogEntry),
    (forall e, resolveVersion query available = Some e -> e ∈ available)
    /\ (available <> [] ->
        is_Some (resolveVersion "latest" available)
        /\ is_Some (resolveVersion "oldest" available)).
Proof.
  intros query available. split.
  - intros e. destruct available as [|x l]; [discriminate|].
    unfold resolveVersion.
    destruct (bool_decide (query = "latest")).
    { destruct (filter _ (x :: l)) as [|first rest] eqn:Hf.
      - intros H. eapply list_elem_of_lookup_2, H.
      - intros [= <-].
        assert (Hin : first ∈ filter (fun item => hasVersion item = true) (x :: l))
          by (rewrite Hf; left).
        apply list_elem_of_filter in Hin as [_ Hin]. exact Hin. }
    destruct (bool_decide (query = "oldest")).
    { intros H. eapply list_elem_of_lookup_2, H. }
    destruct (find (version_is query) (x :: l)) eqn:H1.
    { intros [= <-]. apply (find_elem_of _ _ _ H1). }
    destruct (find (revision_is query) (x :: l)) eqn:H2.
    { intros [= <-]. apply (find_elem_of _ _ _ H2). }
    intros H3. apply (find_elem_of _ _ _ H3).
  - intros Hne. destruct available as [|x l]; [contradiction|]. split.
    + unfold resolveVersion. rewrite bool_decide_eq_true_2 by reflexivity.
      destruct (filter _ (x :: l)); simpl; eauto.
    + unfold resolveVersion. rewrite bool_decide_eq_false_2 by discriminate.
      rewrite bool_decide_eq_true_2 by reflexivity.
      apply lookup_lt_is_Some. simpl. lia.
Qed.

Lemma resolveVersion_member_witness :
  is_Some (resolveVersion "latest" test_catalog).
Proof.
  apply (resolveVersion_member "latest" test_catalog). discriminate.
Defined.

(** X4. A query that is not a keyword resolves to [null] exactly when no
    entry of the catalog has it as its version, as its revision or as a
    prefix of its version: the resolver misses nothing that matches. *)
Theorem resolveVersion_none_iff :
  forall (query : string) (available : list CatalogEntry),
    query <> "latest" -> query <> "oldest" ->
    (resolveVersion query available = None <->
     forall e, e ∈ available -> ~ matches_query query e).
Proof.
  intros query available Hl Ho.
  destruct available as [|x l].
  { split; [intros _ e He; inversion He|reflexivity]. }
  unfold resolveVersion. rewrite !bool_decide_eq_false_2 by assumption.
  split.
  - intros H e He [Hv|[Hr|(v & Hv & Hp)]].
    + destruct (find (version_is query) (x :: l)) eqn:H1; [discriminate|].
      apply find_none_iff with (x := e) in H1; [|exact He].
      unfold version_is in H1. rewrite bool_decide_eq_true_2 in H1 by exact Hv. discriminate.
    + destruct (find (version_is query) (x :: l)); [discriminate|].
      destruct (find (revision_is query) (x :: l)) eqn:H2; [discriminate|].
      apply find_none_iff with (x := e) in H2; [|exact He].
      unfold revision_is in H2. rewrite bool_decide_eq_true_2 in H2 by exact Hr. discriminate.
    + destruct (find (version_is query) (x :: l)) eqn:H1; [discriminate|].
      destruct (find (revision_is query) (x :: l)); [discriminate|].
      pose proof (proj1 (find_none_iff _ _) H1 e He) as Hne.
      pose proof (proj1 (find_none_iff _ _) H e He) as Hst.
      rewrite (version_starts_prefix query e Hne) in Hst.
      unfold version_has_prefix in Hst. rewrite Hv, Hp in Hst. discriminate.
  - intros H.
    assert (H1 : find (version_is query) (x :: l) = None).
    { apply find_none_iff. intros e He. unfold version_is.
      apply bool_decide_eq_false_2. intros Hv. apply (H e He). left. exact Hv. }
    assert (H2 : find (revision_is query) (x :: l) = None).
    { apply find_none_iff. intros e He. unfold revision_is.
      apply bool_decide_eq_false_2. intros Hr. apply (H e He). right. left. exact Hr. }
    rewrite H1, H2. apply find_none_iff. intros e He.
    rewrite (version_starts_prefix query e (proj1 (find_none_iff _ _) H1 e He)).
    unfold version_has_prefix. destruct (version e) as [v|] eqn:Hv; [|reflexivity].
    destruct (String.prefix query v) eqn:Hp; [|reflexivity].
    exfalso. apply (H e He). right. right. exists v. auto.
Qed.

Lemma resolveVersion_none_iff_witness :
  resolveVersion "999.0.0.0" test_catalog = None.
Proof.
  apply (resolveVersion_none_iff "999.0.0.0" test_catalog); [discriminate..|].
  intros e He [Hv|[Hr|(v & Hv & Hp)]];
    repeat (apply elem_of_cons in He as [->|He]); try (inversion He; fail);
    simpl in *; try discriminate; injection Hv as <-; discriminate.
Defined.

(** ** mapping.js: the revision listing *)

Lemma span_digits_all_digits s : all_digits (span_digits s).1 = true.
Proof.
  induction s as [|c r IH]; cbn [span_digits fst]; [reflexivity|].
  destruct (is_digit c) eqn:Hc; [|reflexivity].
  destruct (span_digits r) as [d rest]. cbn [fst all_digits] in *.
  rewrite Hc, IH. reflexivity.
Qed.

Lemma match_here_digits s m : match_here s = Some m -> m <> "" /\ all_digits m = true.
Proof.
  unfold match_here. destruct (strip_prefix _ s) as [r|]; [|discriminate].
  pose proof (span_digits_all_digits r) as Hd.
  destruct (span_digits r) as [[|c d] rest]; [discriminate|].
  destruct rest as [|a rest]; [discriminate|].
  destruct a as [[] [] [] [] [] [] [] []]; try discriminate.
  intros [= <-]. split; [discriminate|exact Hd].
Qed.

Lemma match_revision_digits s m : match_revision s = Some m -> m <> "" /\ all_digits m = true.
Proof.
  induction s as [|c r IH]; cbn [match_revision].
  - discriminate.
  - destruct (match_here (String c r)) eqn:H.
    + intros [= <-]. eapply match_here_digits, H.
    + exact IH.
Qed.

Lemma revisions_of_well_formed data : Forall well_formed_revision (revisions_of data).
Proof.
  apply Forall_forall. intros r Hr. unfold revisions_of in Hr.
  apply list_elem_of_omap in Hr as (prefix & _ & Hm).
  destruct (match_revision prefix) as [m|] eqn:Hmatch; [|discriminate].
  injection Hm as <-. split; [reflexivity|]. eapply match_revision_digits, Hmatch.
Qed.

Lemma revisions_of_unfold data :
  omap (fun prefix => match match_revision prefix with
                      | Some m => Some (mkRevision m "Mac_Arm")
                      | None => None
                      end) (default [] (prefixes data)) = revisions_of data.
Proof. reflexivity. Qed.

Lemma slice0_length {A} (limit : N) (l : list A) :
  (N.of_nat (length (slice0 limit l)) <= limit)%N.
Proof.
  revert limit; induction l as [|x l IH]; intros limit; simpl; [lia|].
  destruct (N.eqb_spec limit 0) as [->|Hne]; simpl; [lia|].
  specialize (IH (N.pred limit)). lia.
Qed.

Lemma fetchRevisions_loop_shape limit acc pages revisions :
  Forall well_formed_revision acc ->
  (forall l, limit = Some (Npos l) -> (N.of_nat (length acc) < Npos l)%N) ->
  fetchRevisions_loop limit acc pages = Return revisions ->
  Forall well_formed_revision revisions
  /\ (forall l, limit = Some (Npos l) -> (N.of_nat (length revisions) <= Npos l)%N).
Proof.
  revert acc; induction pages as [|page pages IH]; intros acc Hacc Hlen; simpl; [discriminate|].
  destruct page as [e|ok statusText [data|e]]; try discriminate;
    destruct ok; simpl; try discriminate.
  rewrite revisions_of_unfold.
  assert (Hall : Forall well_formed_revision (acc ++ revisions_of data))
    by (apply Forall_app; split; [exact Hacc|apply revisions_of_well_formed]).
  destruct limit as [[|l]|].
  - destruct (truthy_string (nextPageToken data)).
    + apply IH; [exact Hall|discriminate].
    + intros [= <-]. split; [exact Hall|discriminate].
  - destruct (N.leb_spec (N.pos l) (N.of_nat (length (acc ++ revisions_of data)))) as [Hle|Hlt].
    + intros [= <-]. split; [apply slice0_Forall, Hall|].
      intros l' [= <-]. apply slice0_length.
    + destruct (truthy_string (nextPageToken data)).
      * apply IH; [exact Hall|]. intros l' [= <-]. exact Hlt.
      * intros [= <-]. split; [exact Hall|]. intros l' [= <-]. lia.
  - destruct (truthy_string (nextPageToken data)).
    + apply IH; [exact Hall|discriminate].
    + intros [= <-]. split; [exact Hall|discriminate].
Qed.

(** X5. Every record that [fetchRevisions] returns has platform
    ["Mac_Arm"] and a revision that is a non-empty run of decimal digits
    (prefixes that do not fit the pattern are dropped), and with a limit
    in force it never returns more records than the limit. *)
Theorem fetchRevisions_shape_and_bound :
  forall (limit : option N) (net : Net) (revisions : list RevisionRecord),
    fetchRevisions limit net = Return revisions ->
    Forall well_formed_revision revisions
    /\ (forall l, limit = Some (Npos l) -> (N.of_nat (length revisions) <= Npos l)%N).
Proof.
  intros limit net revisions. apply fetchRevisions_loop_shape; [constructor|].
  intros l _. simpl. lia.
Qed.

Lemma fetchRevisions_shape_and_bound_witness :
  (N.of_nat (length [mkRevision "700000" "Mac_Arm"; mkRevision "700010" "Mac_Arm";
                     mkRevision "700020" "Mac_Arm"]) <= 3)%N.
Proof.
  apply (fetchRevisions_shape_and_bound (Some 3%N)
           (mkNet [ok_page "OK" page_one; ok_page "OK" page_two] (releases sample_net)));
    reflexivity.
Defined.

Lemma fetchRevisions_loop_pages limit acc (pages : list (string * ListingData))
    (last : string * ListingData) (rest : list (FetchOutcome ListingData)) :
  limit = None \/ limit = Some 0%N ->
  Forall (fun p => truthy_string (nextPageToken p.2) = true) pages ->
  truthy_string (nextPageToken last.2) = false ->
  fetchRevisions_loop limit acc (((fun p => ok_page p.1 p.2) <$> (pages ++ [last])) ++ rest)
  = Return (acc ++ concat ((fun p => revisions_of p.2) <$> (pages ++ [last]))).
Proof.
  intros Hlimit Hpages Hlast. revert acc.
  induction Hpages as [|page pages Hpage Hpages IH]; intros acc; simpl.
  - rewrite revisions_of_unfold, Hlast, app_nil_r.
    destruct Hlimit as [-> | ->]; reflexivity.
  - rewrite revisions_of_unfold, Hpage.
    assert (Hstep : forall acc', fetchRevisions_loop limit acc'
                      (((fun p => ok_page p.1 p.2) <$> (pages ++ [last])) ++ rest)
                    = Return (acc' ++ concat ((fun p => revisions_of p.2) <$> (pages ++ [last]))))
      by exact IH.
    destruct Hlimit as [-> | ->]; rewrite Hstep, <- app_assoc; reflexivity.
Qed.

(** X6. Without a limit, [fetchRevisions] follows the continuation tokens:
    when the pages arrive in order, each but the last carrying a token,
    the result is the revisions of all these pages, in page order, and
    nothing is requested after the page without a token. *)
Theorem fetchRevisions_follows_tokens :
  forall (limit : option N) (pages : list (string * ListingData)) (last : string * ListingData)
         (rest : list (FetchOutcome ListingData)) (rel : string -> FetchOutcome (option (list ChannelRelease))),
    limit = None \/ limit = Some 0%N ->
    Forall (fun p => truthy_string (nextPageToken p.2) = true) pages ->
    truthy_string (nextPageToken last.2) = false ->
    fetchRevisions limit (mkNet (((fun p => ok_page p.1 p.2) <$> (pages ++ [last])) ++ rest) rel)
    = Return (concat ((fun p => revisions_of p.2) <$> (pages ++ [last]))).
Proof.
  intros limit pages last rest rel Hlimit Hpages Hlast.
  unfold fetchRevisions. simpl listing.
  rewrite (fetchRevisions_loop_pages limit [] pages last rest Hlimit Hpages Hlast).
  reflexivity.
Qed.

Lemma fetchRevisions_follows_tokens_witness :
  fetchRevisions None
    (mkNet [ok_page "OK" page_one; ok_page "OK" page_two; Rejected fetch_failed]
           (releases sample_net))
  = Return [mkRevision "700000" "Mac_Arm"; mkRevision "700010" "Mac_Arm";
            mkRevision "700020" "Mac_Arm"].
Proof.
  apply (fetchRevisions_follows_tokens None [("OK", page_one)] ("OK", page_two)
           [Rejected fetch_failed] (releases sample_net)).
  - left; reflexivity.
  - repeat constructor.
  - reflexivity.
Defined.

(** ** mapping.js: the position map and the probe *)

Lemma record_release_lookup positionMap release key :
  record_release positionMap release !! key =
  match positionMap !! key with
  | Some info => Some info
  | None => if records_at key release then Some (info_of release) else None
  end.
Proof.
  unfold record_release, records_at.
  destruct (chromium_main_branch_position release) as [position|];
    [|destruct (positionMap !! key); reflexivity].
  destruct (position =? 0); simpl; [destruct (positionMap !! key); reflexivity|].
  destruct (bool_decide_reflect (String_of position = key)) as [<-|Hne].
  - destruct (positionMap !! String_of position) eqn:Hk; [rewrite Hk; reflexivity|].
    rewrite lookup_insert_eq. reflexivity.
  - destruct (positionMap !! String_of position) eqn:Hk.
    + destruct (positionMap !! key); reflexivity.
    + rewrite lookup_insert_ne by exact Hne. destruct (positionMap !! key); reflexivity.
Qed.

Lemma foldl_record_release_lookup allReleases positionMap key :
  foldl record_release positionMap allReleases !! key =
  match positionMap !! key with
  | Some info => Some info
  | None => info_of <$> find (records_at key) allReleases
  end.
Proof.
  revert positionMap; induction allReleases as [|r l IH]; intros positionMap; simpl.
  - destruct (positionMap !! key); reflexivity.
  - rewrite IH, record_release_lookup.
    destruct (positionMap !! key); [reflexivity|].
    destruct (records_at key r); reflexivity.
Qed.

(** A key of [positionMap] holds the version and channel of the first
    release of the list filed under it, and is absent when there is none. *)
Lemma build_positionMap_lookup (allReleases : list ChannelRelease) (key : string) :
  build_positionMap allReleases !! key = info_of <$> find (records_at key) allReleases.
Proof.
  unfold build_positionMap.
  rewrite foldl_record_release_lookup, lookup_empty. reflexivity.
Qed.

Lemma classify_versioned positionMap revisions :
  forall groups,
    (forall e, e ∈ groups.1 -> e ∈ (foldl (classify positionMap) groups revisions).1)
    /\ (forall rev info,
          rev ∈ revisions -> find_versionInfo positionMap rev = Some info ->
          mkEntry (info_version info) (rev_revision rev) (info_channel info) "Mac_Arm" true
          ∈ (foldl (classify positionMap) groups revisions).1).
Proof.
  induction revisions as [|r l IH]; intros [vs us].
  - split; [trivial|]. intros rev info Hin. inversion Hin.
  - cbn [foldl]. unfold classify at 2 4.
    destruct (find_versionInfo positionMap r) as [info0|] eqn:Hr.
    + destruct (IH (vs ++ [mkEntry (info_version info0) (rev_revision r)
                                   (info_channel info0) "Mac_Arm" true], us)) as [Hkeep Hnew].
      split.
      * intros e He. apply Hkeep. simpl. apply elem_of_app. left. exact He.
      * intros rev info [->|Hin]%elem_of_cons Hfound; [|apply Hnew; assumption].
        rewrite Hr in Hfound. injection Hfound as <-.
        apply Hkeep. simpl. apply elem_of_app. right. left.
    + destruct (IH (vs, us ++ [mkEntry None (rev_revision r) None "Mac_Arm" false]))
        as [Hkeep Hnew].
      split; [exact Hkeep|].
      intros rev info [->|Hin]%elem_of_cons Hfound; [|apply Hnew; assumption].
      rewrite Hr in Hfound. discriminate.
Qed.

(** X7. Across the channels the first release wins, and the channels
    come in the order Stable, Beta, Dev, Canary.  When a fetched revision
    is the branch position of some release, the catalog that
    [buildAvailableVersions] returns has, for that revision, the entry
    with the version and the channel of the first release with that
    (truthy) position in the releases of Stable followed by those of Beta,
    of Dev and of Canary; the requests that failed count for no release.
    So a position known to several channels gets the Stable release. *)
Theorem buildAvailableVersions_first_release_wins :
  forall (net : Net) (revisions : list RevisionRecord) (catalog : list CatalogEntry)
         (rev : RevisionRecord) (release : ChannelRelease),
    fetchRevisions (Some 9999992000%N) net = Return revisions ->
    buildAvailableVersions net = Return catalog ->
    rev ∈ revisions ->
    find (records_at (rev_revision rev))
         (catch_empty (fetchVersionMapping "Stable" net)
          ++ catch_empty (fetchVersionMapping "Beta" net)
          ++ catch_empty (fetchVersionMapping "Dev" net)
          ++ catch_empty (fetchVersionMapping "Canary" net)) = Some release ->
    mkEntry (rel_version release) (rev_revision rev) (rel_channel release) "Mac_Arm" true
    ∈ catalog.
Proof.
  intros net revisions catalog rev release Hrev. unfold buildAvailableVersions. rewrite Hrev.
  cbv zeta. intros [= <-] Hin Hfirst. unfold assemble.
  set (allReleases := catch_empty (fetchVersionMapping "Stable" net) ++ _) in *.
  assert (Hfound : find_versionInfo (build_positionMap allReleases) rev = Some (info_of release)).
  { unfold find_versionInfo. rewrite build_positionMap_lookup, Hfirst. reflexivity. }
  destruct (classify_versioned (build_positionMap allReleases) revisions ([], []))
    as [_ Hnew].
  specialize (Hnew rev (info_of release) Hin Hfound).
  destruct (foldl _ ([], []) revisions) as [versioned unversioned]. simpl in Hnew.
  apply elem_of_app. left. rewrite sort_permutation. exact Hnew.
Qed.

Lemma buildAvailableVersions_first_release_wins_witness :
  exists catalog,
    buildAvailableVersions two_channel_net = Return catalog
    /\ mkEntry (Some "92.0.4515.159") "882387" (Some "Stable") "Mac_Arm" true ∈ catalog.
Proof.
  exists [mkEntry (Some "92.0.4515.159") "882387" (Some "Stable") "Mac_Arm" true].
  split; [vm_compute; reflexivity|].
  apply (buildAvailableVersions_first_release_wins two_channel_net
           [mkRevision "882387" "Mac_Arm"] _ (mkRevision "882387" "Mac_Arm")
           (mkRelease (Some "92.0.4515.159") (Some "Stable") (Some 882387))).
  - reflexivity.
  - vm_compute. reflexivity.
  - left.
  - vm_compute. reflexivity.
Defined.

Lemma omap_step {A B} (f : A -> option B) x l :
  omap f (x :: l) = match f x with Some y => y :: omap f l | None => omap f l end.
Proof. reflexivity. Qed.

Lemma probe_order positionMap n k start :
  probe positionMap (Some n) k start
  = head (omap (fun key => positionMap !! key) (probe_keys n start k)).
Proof.
  revert start; induction k as [|k IH]; intros start; [reflexivity|].
  cbn [probe probe_keys offsets flat_map]. simpl fmap. simpl app.
  unfold String_num. rewrite !omap_step.
  destruct (positionMap !! String_of (n + start)); [reflexivity|].
  destruct (positionMap !! String_of (n - start)); [reflexivity|].
  apply IH.
Qed.

(** X8. For a revision that reads as the number [n], the version is
    looked up under the revision string itself, then under [n+1], [n-1],
    [n+2], [n-2], ... up to [n+50], [n-50], and the first key present
    decides: nearer positions win, at equal distance the one above wins,
    and nothing beyond a distance of 50 is ever used. *)
Theorem find_versionInfo_probe_order :
  forall (positionMap : gmap string VersionInfo) (rev : RevisionRecord) (n : Z),
    parseInt (rev_revision rev) = Some n ->
    find_versionInfo positionMap rev
    = head (omap (fun key => positionMap !! key) (rev_revision rev :: probe_keys n 1 50)).
Proof.
  intros positionMap rev n Hn. unfold find_versionInfo. rewrite omap_step.
  destruct (positionMap !! rev_revision rev); [reflexivity|].
  rewrite Hn. apply probe_order.
Qed.

Lemma find_versionInfo_probe_order_witness :
  find_versionInfo
    (build_positionMap [mkRelease (Some "92.0.4515.159") (Some "Stable") (Some 882384);
                        mkRelease (Some "92.0.4515.160") (Some "Beta") (Some 882390);
                        mkRelease (Some "92.0.4515.161") (Some "Dev") (Some 882386)])
    (mkRevision "882387" "Mac_Arm")
  = Some (mkInfo (Some "92.0.4515.161") (Some "Dev")).
Proof.
  rewrite (find_versionInfo_probe_order _ (mkRevision "882387" "Mac_Arm") 882387 eq_refl).
  vm_compute. reflexivity.
Defined.

(** ** mapping.js: what the catalog holds *)

Lemma classify_keeps positionMap revisions :
  forall groups,
    Forall built_entry groups.1 -> Forall built_entry groups.2 ->
    let groups' := foldl (classify positionMap) groups revisions in
    Forall built_entry groups'.1 /\ Forall built_entry groups'.2
    /\ (revision <$> groups'.1) ++ (revision <$> groups'.2)
       ≡ₚ (revision <$> groups.1) ++ (revision <$> groups.2) ++ (rev_revision <$> revisions).
Proof.
  induction revisions as [|rev l IH]; intros [vs us] Hvs Hus; simpl.
  - split; [exact Hvs|]. split; [exact Hus|]. rewrite app_nil_r. reflexivity.
  - destruct (find_versionInfo positionMap rev) as [info|].
    + destruct (IH (vs ++ [mkEntry (info_version info) (rev_revision rev)
                                   (info_channel info) "Mac_Arm" true], us))
        as (H1 & H2 & Hp); simpl.
      { apply Forall_app. split; [exact Hvs|]. constructor; [|constructor].
        split; [reflexivity|discriminate]. }
      { exact Hus. }
      split; [exact H1|]. split; [exact H2|].
      rewrite Hp. simpl. rewrite fmap_app. simpl.
      rewrite <- !app_assoc. apply Permutation_app_head. simpl.
      rewrite Permutation_middle. reflexivity.
    + destruct (IH (vs, us ++ [mkEntry None (rev_revision rev) None "Mac_Arm" false]))
        as (H1 & H2 & Hp); simpl.
      { exact Hvs. }
      { apply Forall_app. split; [exact Hus|]. constructor; [|constructor].
        split; [reflexivity|intros _; split; reflexivity]. }
      split; [exact H1|]. split; [exact H2|].
      rewrite Hp. simpl. rewrite fmap_app. simpl.
      rewrite <- !app_assoc. reflexivity.
Qed.

Lemma assemble_keeps revisions allReleases :
  Forall built_entry (assemble revisions allReleases)
  /\ revision <$> assemble revisions allReleases ≡ₚ rev_revision <$> revisions.
Proof.
  unfold assemble.
  destruct (classify_keeps (build_positionMap allReleases) revisions ([], []))
    as (H1 & H2 & Hp); [constructor..|].
  destruct (foldl _ ([], []) revisions) as [versioned unversioned]. simpl in *.
  split.
  - apply Forall_app. split; apply sort_Forall; assumption.
  - rewrite fmap_app, !sort_permutation. exact Hp.
Qed.

(** X9. The catalog lists every fetched revision exactly once (its
    revisions are a rearrangement of the fetched ones, so it is as long
    as the listing), every entry has platform ["Mac_Arm"], and an entry
    with [hasVersion = false] has neither version nor channel. *)
Theorem buildAvailableVersions_keeps_revisions :
  forall (net : Net) (revisions : list RevisionRecord) (catalog : list CatalogEntry),
    fetchRevisions (Some 9999992000%N) net = Return revisions ->
    buildAvailableVersions net = Return catalog ->
    revision <$> catalog ≡ₚ rev_revision <$> revisions
    /\ length catalog = length revisions
    /\ Forall built_entry catalog.
Proof.
  intros net revisions catalog Hrev. unfold buildAvailableVersions. rewrite Hrev.
  intros [= <-].
  destruct (assemble_keeps revisions
              (catch_empty (fetchVersionMapping "Stable" net)
               ++ catch_empty (fetchVersionMapping "Beta" net)
               ++ catch_empty (fetchVersionMapping "Dev" net)
               ++ catch_empty (fetchVersionMapping "Canary" net))) as [Hb Hp].
  split; [exact Hp|]. split; [|exact Hb].
  apply Permutation_length in Hp. rewrite !length_fmap in Hp. exact Hp.
Qed.

Lemma buildAvailableVersions_keeps_revisions_witness :
  length [mkEntry (Some "93.0.4577.82") "911515" (Some "Stable") "Mac_Arm" true;
          mkEntry (Some "92.0.4515.159") "882387" (Some "Stable") "Mac_Arm" true;
          mkEntry None "700000" None "Mac_Arm" false]
  = length [mkRevision "882387" "Mac_Arm"; mkRevision "911515" "Mac_Arm";
            mkRevision "700000" "Mac_Arm"].
Proof.
  apply (buildAvailableVersions_keeps_revisions sample_net); reflexivity.
Defined.

Lemma probe_empty revNum n offset : probe ∅ revNum n offset = None.
Proof.
  revert offset; induction n as [|n IH]; intros offset; simpl; [reflexivity|].
  rewrite !lookup_empty. apply IH.
Qed.

Lemma classify_empty revisions versioned unversioned :
  foldl (classify ∅) (versioned, unversioned) revisions
  = (versioned, unversioned ++ (unversioned_entry <$> revisions)).
Proof.
  revert unversioned; induction revisions as [|rev l IH]; intros unversioned; simpl.
  - rewrite app_nil_r. reflexivity.
  - unfold find_versionInfo. rewrite lookup_empty, probe_empty.
    rewrite IH, <- app_assoc. reflexivity.
Qed.

(** X10. When no channel yields a release (all four requests fail, say),
    the build still returns a catalog: every fetched revision as an entry
    without version, sorted from the highest revision number down. *)
Theorem buildAvailableVersions_without_releases :
  forall (net : Net) (revisions : list RevisionRecord),
    (forall c, In c channels -> catch_empty (fetchVersionMapping c net) = []) ->
    fetchRevisions (Some 9999992000%N) net = Return revisions ->
    buildAvailableVersions net
    = Return (sort by_revision_desc (unversioned_entry <$> revisions)).
Proof.
  intros net revisions Hnone Hrev. unfold buildAvailableVersions. rewrite Hrev.
  rewrite !Hnone by (simpl; auto). simpl app.
  unfold assemble, build_positionMap. simpl foldl at 2.
  rewrite classify_empty. reflexivity.
Qed.

Lemma buildAvailableVersions_without_releases_witness :
  buildAvailableVersions (with_no_releases "Stable" sample_net)
  = Return [mkEntry None "911515" None "Mac_Arm" false;
            mkEntry None "882387" None "Mac_Arm" false;
            mkEntry None "700000" None "Mac_Arm" false].
Proof.
  rewrite (buildAvailableVersions_without_releases (with_no_releases "Stable" sample_net)
             [mkRevision "882387" "Mac_Arm"; mkRevision "911515" "Mac_Arm";
              mkRevision "700000" "Mac_Arm"]).
  - reflexivity.
  - intros c [<-|[<-|[<-|[<-|[]]]]]; reflexivity.
  - reflexivity.
Defined.

(** ** mapping.js: mergeRevisionsWithVersions *)

Lemma set_mapping_lookup versionMap mapping key :
  mi_version <$> (set_mapping versionMap mapping !! key) =
  (if filed_under key mapping then Some (vm_version mapping)
   else mi_version <$> (versionMap !! key))
  /\ mi_channel <$> (set_mapping versionMap mapping !! key) =
     (if filed_under key mapping then Some (vm_channel mapping)
      else mi_channel <$> (versionMap !! key)).
Proof.
  unfold set_mapping, filed_under.
  destruct (vm_position mapping) as [position|]; [|split; reflexivity].
  destruct (position =? 0); simpl; [split; reflexivity|].
  destruct (bool_decide_reflect (String_of position = key)) as [<-|Hne].
  - rewrite lookup_insert_eq. split; reflexivity.
  - rewrite lookup_insert_ne by exact Hne. split; reflexivity.
Qed.

Lemma foldl_set_mapping_lookup versionMappings key :
  mi_version <$> (foldl set_mapping ∅ versionMappings !! key)
  = vm_version <$> find (filed_under key) (reverse versionMappings)
  /\ mi_channel <$> (foldl set_mapping ∅ versionMappings !! key)
     = vm_channel <$> find (filed_under key) (reverse versionMappings).
Proof.
  induction versionMappings as [|m l IH] using rev_ind.
  - simpl foldl. rewrite lookup_empty. split; reflexivity.
  - rewrite foldl_app, reverse_app. simpl foldl. simpl.
    destruct (set_mapping_lookup (foldl set_mapping ∅ l) m key) as [Hv Hc].
    rewrite Hv, Hc. destruct (filed_under key m); [split; reflexivity|exact IH].
Qed.

(** X11. [mergeRevisionsWithVersions] keeps the revisions in their order
    and drops those without a version: a revision is kept exactly when the
    last mapping filed under its revision string (a later mapping replaces
    an earlier one) has a non-empty version, and it then carries that
    version, that mapping's channel and the platform of the revision. *)
Theorem mergeRevisionsWithVersions_last_wins :
  forall (revisions : list RevisionRecord) (versionMappings : list VersionMapping),
    mergeRevisionsWithVersions revisions versionMappings
    = omap (merged_from (reverse versionMappings)) revisions
    /\ merged_revision <$> mergeRevisionsWithVersions revisions versionMappings
       `sublist_of` rev_revision <$> revisions.
Proof.
  intros revisions versionMappings.
  assert (Heq : mergeRevisionsWithVersions revisions versionMappings
                = omap (merged_from (reverse versionMappings)) revisions).
  { unfold mergeRevisionsWithVersions.
    induction revisions as [|rev l IH]; [reflexivity|].
    cbn [map List.filter]. rewrite omap_step, IH. unfold merged_from.
    destruct (foldl_set_mapping_lookup versionMappings (rev_revision rev)) as [Hv Hc].
    destruct (foldl set_mapping ∅ versionMappings !! rev_revision rev) as [info|];
      destruct (find (filed_under (rev_revision rev)) (reverse versionMappings)) as [m|];
      simpl in Hv, Hc; try discriminate; [|reflexivity].
    injection Hv as Hv. injection Hc as Hc. simpl. rewrite Hv, Hc.
    destruct (vm_version m) as [[|a v]|]; reflexivity. }
  split; [exact Heq|]. rewrite Heq. clear Heq.
  induction revisions as [|rev l IH]; [reflexivity|].
  rewrite omap_step. unfold merged_from at 1.
  destruct (find _ _) as [m|]; [|apply sublist_cons, IH].
  destruct (vm_version m) as [[|a v]|]; try (apply sublist_cons, IH).
  simpl. apply sublist_skip, IH.
Qed.

(** ** downloader.js: the streaming download *)

Import Download.

Lemma stream_write_file p content value fs :
  node_at fs p = Some (File content) -> p <> [] ->
  node_at (stream_write p value fs) p = Some (File (content +:+ value))
  /\ forall q, q <> p -> node_at (stream_write p value fs) q = node_at fs q.
Proof.
  intros Hp Hne. unfold stream_write. rewrite Hp. destruct p as [|c p]; [contradiction|].
  split; [apply node_at_write_same|intros q Hq; apply node_at_write_other, Hq].
Qed.

Lemma joined_cons v values : joined (v :: values) = v +:+ joined values.
Proof. reflexivity. Qed.

Lemma append_cons x (a b : string) : String x a +:+ b = String x (a +:+ b).
Proof. reflexivity. Qed.

Lemma append_assoc (a b c : string) : (a +:+ b) +:+ c = a +:+ (b +:+ c).
Proof. induction a as [|x a IH]; [reflexivity|]. rewrite !append_cons, IH. reflexivity. Qed.

Lemma append_empty_r (a : string) : a +:+ "" = a.
Proof. induction a as [|x a IH]; [reflexivity|]. rewrite append_cons, IH. reflexivity. Qed.

Lemma length_append (a b : string) :
  String.length (a +:+ b) = (String.length a + String.length b)%nat.
Proof.
  induction a as [|x a IH]; [reflexivity|]. rewrite append_cons. simpl. rewrite IH. reflexivity.
Qed.

Lemma byte_count_snoc values v :
  byte_count (values ++ [v]) = byte_count values + Z.of_nat (String.length v).
Proof.
  unfold byte_count. induction values as [|x l IH]; simpl.
  - rewrite append_empty_r. lia.
  - rewrite !length_append in *. lia.
Qed.

Section ReadLoopFacts.
Variable round_percent : Z -> Z -> Z.
Variable outputPath : Path.
Variable totalSize : option Z.
Hypothesis outputPath_named : outputPath <> [].

(** The loop with the recording observer, entered with [before] already
    read: the file grows by the chunks, one report is added per chunk when
    the total is known, and the end of the body decides the completion. *)
Lemma read_loop_recorded values ending before content fs seen :
  node_at fs outputPath = Some (File content) ->
  exists fs' reports,
    read_loop round_percent outputPath (Some record_progress) totalSize
              values ending (byte_count before) (fs, seen)
    = (match ending with Done => Return tt | Broken e => Throw e end, (fs', seen ++ reports))
    /\ node_at fs' outputPath = Some (File (content +:+ joined values))
    /\ (forall q, q <> outputPath -> node_at fs' q = node_at fs q)
    /\ match total_known totalSize with
       | None => reports = []
       | Some t =>
           length reports = length values
           /\ forall k p, reports !! k = Some p ->
                downloaded p = byte_count (before ++ take (S k) values)
                /\ total p = t
                /\ percentage p = round_percent (downloaded p) t
       end.
Proof.
  revert before content fs seen.
  induction values as [|value rest IH]; intros before content fs seen Hfile.
  - exists fs, []. simpl. rewrite app_nil_r, append_empty_r.
    split; [destruct ending; reflexivity|]. split; [exact Hfile|]. split; [reflexivity|].
    destruct (total_known totalSize); [|reflexivity].
    split; [reflexivity|]. intros k p Hk. destruct k; discriminate.
  - destruct (stream_write_file outputPath content value fs Hfile outputPath_named)
      as [Hnew Hother].
    cbn [read_loop]. cbn [fst snd].
    rewrite <- byte_count_snoc.
    destruct (total_known totalSize) as [t|] eqn:Ht.
    + unfold record_progress at 1.
      destruct (IH (before ++ [value]) (content +:+ value)
                   (stream_write outputPath value fs)
                   (seen ++ [mkProgress (byte_count (before ++ [value])) t
                                        (round_percent (byte_count (before ++ [value])) t)])
                   Hnew)
        as (fs' & reports & Hrun & Hcontent & Hkeep & Hlen & Hreports).
      exists fs', (mkProgress (byte_count (before ++ [value])) t
                              (round_percent (byte_count (before ++ [value])) t) :: reports).
      split; [rewrite Hrun, <- app_assoc; reflexivity|].
      split; [rewrite Hcontent, joined_cons, append_assoc; reflexivity|].
      split; [intros q Hq; rewrite Hkeep, Hother by exact Hq; reflexivity|].
      split; [simpl; rewrite Hlen; reflexivity|].
      intros k p Hk. destruct k as [|k].
      * injection Hk as <-. simpl. rewrite take_0. auto.
      * simpl in Hk. destruct (Hreports k p Hk) as (Hd & Htot & Hpct).
        split; [|auto]. rewrite Hd, <- app_assoc. reflexivity.
    + destruct (IH (before ++ [value]) (content +:+ value)
                   (stream_write outputPath value fs) seen Hnew)
        as (fs' & reports & Hrun & Hcontent & Hkeep & Hnone).
      exists fs', reports.
      split; [exact Hrun|].
      split; [rewrite Hcontent, joined_cons, append_assoc; reflexivity|].
      split; [intros q Hq; rewrite Hkeep, Hother by exact Hq; reflexivity|].
      exact Hnone.
Qed.
End ReadLoopFacts.

Lemma createWriteStream_named outputPath fs fs0 :
  createWriteStream outputPath fs = (Return tt, fs0) -> outputPath <> [].
Proof. intros H ->. discriminate H. Qed.



(** X13. The ways a download fails and what each leaves behind.  A
    rejected request or a response that is not [ok] throws before the
    destination is touched.  Once the destination has been opened: a
    response without body throws and leaves the destination empty; a body
    that breaks off throws its error and leaves in the destination the
    chunks received until then, a partial file that is not removed. *)
Theorem downloadWithProgress_failures :
  forall (round_percent : Z -> Z -> Z) (response : Response) (outputPath : Path)
         (fs fs0 : FS),
    createWriteStream outputPath fs = (Return tt, fs0) ->
    (forall e, downloadWithProgress round_percent (FetchRejected e) outputPath
                                    (Some record_progress) (fs, [])
               = (Throw e, (fs, [])))
    /\ (ok response = false ->
        downloadWithProgress round_percent (FetchResolved response) outputPath
                             (Some record_progress) (fs, [])
        = (Throw (mkError ("Failed to download: " +:+ statusText response)), (fs, [])))
    /\ (ok response = true -> body response = None ->
        downloadWithProgress round_percent (FetchResolved response) outputPath
                             (Some record_progress) (fs, [])
        = (Throw (mkError "Response body is null"), (fs0, []))
        /\ node_at fs0 outputPath = Some (File ""))
    /\ (forall b e, ok response = true -> body response = Some b -> ending b = Broken e ->
        exists fs' reports,
          downloadWithProgress round_percent (FetchResolved response) outputPath
                               (Some record_progress) (fs, [])
          = (Throw e, (fs', reports))
          /\ node_at fs' outputPath = Some (File (joined (chunks b)))).
Proof.
  intros round_percent response outputPath fs fs0 Hopen.
  pose proof (createWriteStream_named _ _ _ Hopen) as Hnamed.
  destruct (writeFile_success _ _ _ _ Hopen) as [Hempty Hother].
  split; [reflexivity|]. split; [|split].
  - intros Hok. unfold downloadWithProgress. rewrite Hok. reflexivity.
  - intros Hok Hbody. split; [|exact Hempty].
    unfold downloadWithProgress. cbn [fst snd]. rewrite Hok, Hopen, Hbody. reflexivity.
  - intros b e Hok Hbody Hend.
    destruct (read_loop_recorded round_percent outputPath
                (parseInt (if truthy_string (content_length response)
                           then default "0" (content_length response) else "0"))
                Hnamed (chunks b) (ending b) [] "" fs0 [] Hempty)
      as (fs' & reports & Hrun & Hcontent & _).
    exists fs', reports. split; [|exact Hcontent].
    unfold downloadWithProgress. cbn [fst snd]. rewrite Hok, Hopen, Hbody.
    simpl negb. cbv iota. change 0 with (byte_count []). rewrite Hrun, Hend. reflexivity.
Qed.

Lemma downloadWithProgress_failures_witness :
  exists fs' reports,
    downloadWithProgress (fun d t => 100 * d / t) (FetchResolved cut_response)
                         ["testDir"; "out.zip"] (Some record_progress) (test_disk, [])
    = (Throw (mkError "terminated"), (fs', reports))
    /\ node_at fs' ["testDir"; "out.zip"] = Some (File "hello ").
Proof.
  destruct (downloadWithProgress_failures (fun d t => 100 * d / t) cut_response
              ["testDir"; "out.zip"] test_disk
              (test_disk ++ [(["testDir"; "out.zip"], File "")]) eq_refl)
    as (_ & _ & _ & Hcut).
  apply (Hcut (mkBody ["hello "] (Broken (mkError "terminated"))) (mkError "terminated"));
    reflexivity.
Defined.

(** ** downloader.js: the retry wrapper when every attempt fails *)

Lemma waited_app t1 t2 : waited (t1 ++ t2) = waited t1 + waited t2.
Proof.
  unfold waited. induction t1 as [|[|ms] t1 IH]; simpl; [reflexivity|exact IH|].
  rewrite IH. lia.
Qed.

Lemma waited_backoff_trace d b k attempt :
  0 <= attempt ->
  (b - 1) * waited (backoff_trace d b (S k) attempt)
  = d * (b ^ (attempt + Z.of_nat k) - b ^ attempt).
Proof.
  revert attempt; induction k as [|k IH]; intros attempt Ha.
  - simpl. rewrite Z.add_0_r. lia.
  - rewrite backoff_trace_step by lia.
    change (waited (Invoked :: Slept (d * b ^ attempt) :: ?t))
      with (d * b ^ attempt + waited t).
    rewrite Z.mul_add_distr_l, IH by lia.
    replace (attempt + Z.of_nat (S k)) with (attempt + 1 + Z.of_nat k) by lia.
    rewrite (Z.pow_add_r b attempt 1), Z.pow_1_r by lia. ring.
Qed.

(** X14. When every attempt fails, the wrapper makes all [retries + 1]
    invocations, throws the error of the last one, and has slept
    [delay * (1 + backoff + ... + backoff^(retries-1))] in all, that is
    [(backoff - 1) * slept = delay * (backoff^retries - 1)]: 7000 ms with
    the default options. *)
Theorem retryFetch_exhausted :
  forall (St E R : Type) (fetchFn : Eff St E R) (options : RetryOptions) (w : RetryWorld St),
    let maxRetries := default 3 (retries options) in
    let initialDelay := default 1000 (delay options) in
    let backoffFactor := default 2 (backoff options) in
    0 <= maxRetries ->
    (forall i, (i <= Z.to_nat maxRetries)%nat ->
               exists e, outcome fetchFn i (op_state w) = Throw e) ->
    let '(c, w') := retryFetch fetchFn options w in
    (exists e, c = Throw (Some e)
               /\ outcome fetchFn (Z.to_nat maxRetries) (op_state w) = Throw e)
    /\ invocations (trace w') = (invocations (trace w) + Z.to_nat maxRetries + 1)%nat
    /\ (backoffFactor - 1) * (waited (trace w') - waited (trace w))
       = initialDelay * (backoffFactor ^ maxRetries - 1).
Proof.
  intros St E R fetchFn options w maxRetries initialDelay backoffFactor Hr Hfail.
  unfold retryFetch. fold maxRetries initialDelay backoffFactor.
  destruct (retry_from_spec fetchFn maxRetries initialDelay backoffFactor
              (Z.to_nat (maxRetries + 1)) 0 None w) as (k & Hk & Hpos & Hrec); [lia|].
  destruct (retry_from fetchFn maxRetries initialDelay backoffFactor
              (Z.to_nat (maxRetries + 1)) 0 None w) as [c w'].
  destruct Hrec as (Htr & _ & _ & Hend).
  replace (Z.to_nat (maxRetries + 1)) with (S (Z.to_nat maxRetries)) in * by lia.
  destruct c as [v|last].
  { destruct Hend as [Hk0 Hv]. destruct (Hfail (k - 1)%nat) as [e He]; [lia|].
    rewrite He in Hv. discriminate. }
  destruct Hend as [-> (e & -> & He)]. split; [|split].
  - exists e. split; [reflexivity|].
    replace (S (Z.to_nat maxRetries) - 1)%nat with (Z.to_nat maxRetries) in He by lia.
    exact He.
  - rewrite Htr, invocations_app, invocations_backoff_trace. lia.
  - rewrite Htr, waited_app.
    replace (waited (trace w) + waited (backoff_trace initialDelay backoffFactor
                                          (S (Z.to_nat maxRetries)) 0) - waited (trace w))
      with (waited (backoff_trace initialDelay backoffFactor (S (Z.to_nat maxRetries)) 0))
      by lia.
    rewrite waited_backoff_trace by lia. rewrite Z.pow_0_r, Z.add_0_l, Z2Nat.id by lia.
    reflexivity.
Qed.

Lemma retryFetch_exhausted_witness :
  let '(c, w') := retryFetch always_fails (mkOptions None None None) (mkRetry 0%nat []) in
  (exists e, c = Throw (Some e) /\ outcome always_fails 3 0%nat = Throw e)
  /\ invocations (trace w') = 4%nat
  /\ (2 - 1) * (waited (trace w') - 0) = 1000 * (2 ^ 3 - 1).
Proof.
  apply (retryFetch_exhausted nat JsError string always_fails
           (mkOptions None None None) (mkRetry 0%nat [])).
  - simpl. lia.
  - intros i _. exists (mkError "Persistent error"). reflexivity.
Defined.

(** ** downloader.js: validateDownload never says "invalid" *)

(** X15. [validateDownload] returns exactly when the file exists and its
    size equals every truthy [expectedSize]; what it returns then always
    has [valid = true] and the actual size.  In every other case it
    throws: there is no result with [valid = false]. *)
Theorem validateDownload_returns_only_valid :
  forall (filePath : Path) (expectedSize : ExpectedSize) (fs : FS) (v : Validation),
    validateDownload filePath expectedSize fs = Return v <->
    exists stats,
      node_at fs filePath = Some stats
      /\ (forall expected, truthy_size expectedSize = Some expected -> st_size stats = expected)
      /\ v = mkValidation true (st_size stats).
Proof.
  intros filePath expectedSize fs v. unfold validateDownload. split.
  - destruct (node_at fs filePath) as [stats|]; [|discriminate].
    destruct (truthy_size expectedSize) as [expected|].
    + destruct (bool_decide_reflect (st_size stats <> expected)) as [Hne|Heq];
        [discriminate|].
      intros [= <-]. exists stats. split; [reflexivity|]. split; [|reflexivity].
      intros x [= <-]. destruct (decide (st_size stats = expected)); [assumption|contradiction].
    + intros [= <-]. exists stats. split; [reflexivity|]. split; [discriminate|reflexivity].
  - intros (stats & -> & Hsize & ->).
    destruct (truthy_size expectedSize) as [expected|]; [|reflexivity].
    rewrite bool_decide_eq_false_2; [reflexivity|].
    intros Hne. apply Hne, Hsize. reflexivity.
Qed.

(** ** installer.js: moving and cleaning up *)

Lemma lookup_entry_in p n fs : lookup_entry p fs = Some n -> (p, n) ∈ fs.
Proof.
  induction fs as [|[q m] fs IH]; simpl; [discriminate|].
  destruct (bool_decide_reflect (q = p)) as [->|Hne].
  - intros [= ->]. left.
  - intros H. right. apply IH, H.
Qed.

Lemma lookup_entry_reroot src dst rel fs :
  subtree dst fs = [] ->
  lookup_entry (dst ++ rel) (reroot src dst <$> fs) = lookup_entry (src ++ rel) fs.
Proof.
  unfold subtree. induction fs as [|[q m] fs IH]; intros Hempty; [reflexivity|].
  rewrite filter_cons in Hempty. simpl in Hempty.
  destruct (decide (dst `prefix_of` q)) as [Hdq|Hdq]; [discriminate|].
  rewrite fmap_cons. unfold reroot at 1. simpl.
  destruct (bool_decide_reflect (src `prefix_of` q)) as [[k ->]|Hsq]; simpl.
  - rewrite drop_app_length.
    case_bool_decide as H1; case_bool_decide as H2; [reflexivity| | |apply IH, Hempty].
    + apply app_inv_head in H1 as ->. contradiction.
    + apply app_inv_head in H2 as ->. contradiction.
  - rewrite !bool_decide_eq_false_2; [apply IH, Hempty| |].
    + intros ->. apply Hsq. apply prefix_app_r. reflexivity.
    + intros ->. apply Hdq. apply prefix_app_r. reflexivity.
Qed.

Lemma lookup_entry_reroot_other src dst q fs :
  ¬ src `prefix_of` q -> ¬ dst `prefix_of` q ->
  lookup_entry q (reroot src dst <$> fs) = lookup_entry q fs.
Proof.
  intros Hsq Hdq. induction fs as [|[r m] fs IH]; [reflexivity|].
  rewrite fmap_cons. unfold reroot at 1. simpl.
  destruct (bool_decide_reflect (src `prefix_of` r)) as [Hsr|Hsr]; simpl.
  - rewrite !bool_decide_eq_false_2; [exact IH| |].
    + intros ->. contradiction.
    + intros <-. apply Hdq. apply prefix_app_r. reflexivity.
  - destruct (bool_decide (r = q)); [reflexivity|exact IH].
Qed.

(** X16. Moving onto a destination that is free (nothing at or below it,
    its parent a directory) is a plain rename: the call returns, every
    path below the source is found, with the same node, at the same place
    below the destination, the source is gone, and paths outside the two
    keep their node. *)
Theorem moveDirectory_fresh_destination :
  forall (c : string) (source dest : Path) (fs : FS) (n : Node),
    node_at fs (c :: source) = Some n ->
    ¬ (c :: source) `prefix_of` dest ->
    dest <> [] ->
    node_at fs (parent dest) = Some Dir ->
    subtree dest fs = [] ->
    exists fs',
      moveDirectory (c :: source) dest fs = (Return tt, fs')
      /\ (forall rel, node_at fs' (dest ++ rel) = node_at fs ((c :: source) ++ rel))
      /\ (forall rel, node_at fs' ((c :: source) ++ rel) = None)
      /\ (forall q, ¬ (c :: source) `prefix_of` q -> ¬ dest `prefix_of` q ->
                    node_at fs' q = node_at fs q).
Proof.
  intros c source dest fs n Hsrc Hnot Hdest Hparent Hfree.
  assert (Hnone : node_at fs dest = None).
  { destruct dest as [|d dest]; [contradiction|]. simpl.
    destruct (lookup_entry (d :: dest) fs) as [m|] eqn:Hm; [|reflexivity].
    apply lookup_entry_in in Hm.
    assert (Hin : (d :: dest, m) ∈ subtree (d :: dest) fs)
      by (apply list_elem_of_filter; split; [reflexivity|exact Hm]).
    rewrite Hfree in Hin. inversion Hin. }
  exists (reroot (c :: source) dest <$> fs). split; [|split; [|split]].
  - unfold moveDirectory, try_catch, rename. rewrite Hsrc.
    rewrite bool_decide_eq_false_2 by (intros <-; apply Hnot; reflexivity).
    rewrite bool_decide_eq_false_2 by exact Hnot.
    destruct dest as [|d dest]; [contradiction|].
    rewrite Hparent, Hnone. reflexivity.
  - intros rel. destruct dest as [|d dest]; [contradiction|].
    apply (lookup_entry_reroot (c :: source) (d :: dest) rel fs Hfree).
  - intros rel. change (node_at ?f ((c :: source) ++ rel)) with
      (lookup_entry ((c :: source) ++ rel) f).
    destruct (lookup_entry ((c :: source) ++ rel) (reroot (c :: source) dest <$> fs))
      as [m|] eqn:Hm; [|reflexivity].
    exfalso. apply lookup_entry_in, list_elem_of_fmap in Hm as ([q m'] & Heq & Hin).
    unfold reroot in Heq. simpl in Heq.
    destruct (bool_decide_reflect ((c :: source) `prefix_of` q)) as [Hsq|Hsq].
    + injection Heq as Hq _.
      assert (Hd : dest `prefix_of` (c :: source) ++ rel)
        by (simpl in Hq |- *; rewrite Hq; apply prefix_app_r; reflexivity).
      assert (Hs : (c :: source) `prefix_of` (c :: source) ++ rel)
        by (apply prefix_app_r; reflexivity).
      destruct (prefix_weak_total _ _ _ Hs Hd) as [H|H]; [contradiction|].
      simpl in Hsrc. apply lookup_entry_in in Hsrc.
      assert (Hin' : (c :: source, n) ∈ subtree dest fs)
        by (apply list_elem_of_filter; split; [exact H|exact Hsrc]).
      rewrite Hfree in Hin'. inversion Hin'.
    + injection Heq as Hq _. apply Hsq. simpl in Hq. rewrite <- Hq.
      change (c :: source ++ rel) with ((c :: source) ++ rel).
      apply prefix_app_r. reflexivity.
  - intros q Hsq Hdq. destruct q as [|x q]; [reflexivity|].
    apply lookup_entry_reroot_other; assumption.
Qed.

Lemma moveDirectory_fresh_destination_witness :
  exists fs',
    moveDirectory (installs_92 ++ ["data"]) ["home"; "installs"; "moved"] old_disk
    = (Return tt, fs')
    /\ node_at fs' ["home"; "installs"; "moved"; "x"] = Some (File "keep")
    /\ node_at fs' (installs_92 ++ ["data"; "x"]) = None.
Proof.
  destruct (moveDirectory_fresh_destination "home" ["installs"; "92.app"; "data"]
              ["home"; "installs"; "moved"] old_disk Dir)
    as (fs' & Hrun & Hmoved & Hgone & _).
  - reflexivity.
  - intros [k Hk]; discriminate.
  - discriminate.
  - reflexivity.
  - reflexivity.
  - exists fs'. split; [exact Hrun|]. split.
    + exact (Hmoved ["x"]).
    + exact (Hgone ["x"]).
Defined.

Lemma lookup_entry_rm_other p q fs :
  ¬ p `prefix_of` q ->
  lookup_entry q (filter (fun e => ¬ p `prefix_of` e.1) fs) = lookup_entry q fs.
Proof.
  intros Hpq. induction fs as [|[r m] fs IH]; [reflexivity|].
  rewrite filter_cons. simpl. case_decide as Hr; simpl.
  - destruct (bool_decide (r = q)); [reflexivity|exact IH].
  - rewrite bool_decide_eq_false_2; [exact IH|].
    intros ->. tauto.
Qed.

(** X17. A successful install: once the temporary directory exists, the
    population step has returned a path and the move has succeeded,
    [atomicInstall] returns.  [finalPath] was as before the call when the
    population step started, the temporary directory is gone at the end,
    and removing it has left what the move published untouched. *)
Theorem atomicInstall_success :
  forall (installFn : Path -> Eff FS JsError Path) (finalPath chvmHome : Path) (hex : string)
         (fs fs1 fs2 fs3 : FS) (installedPath : Path),
    apart (tmpDir_of chvmHome hex) finalPath ->
    mkdir_recursive (tmpDir_of chvmHome hex) fs = (Return tt, fs1) ->
    installFn (tmpDir_of chvmHome hex) fs1 = (Return installedPath, fs2) ->
    moveDirectory installedPath finalPath fs2 = (Return tt, fs3) ->
    exists fs',
      atomicInstall installFn finalPath chvmHome hex fs = (Return tt, fs')
      /\ subtree finalPath fs1 = subtree finalPath fs
      /\ existsSync (tmpDir_of chvmHome hex) fs' = false
      /\ subtree finalPath fs' = subtree finalPath fs3.
Proof.
  intros installFn finalPath chvmHome hex fs fs1 fs2 fs3 installedPath
         Hapart Hmkdir Hpop Hmove.
  assert (Hclean : exists fs',
             cleanupTempDirectory (tmpDir_of chvmHome hex) fs3 = (Return tt, fs')
             /\ existsSync (tmpDir_of chvmHome hex) fs' = false
             /\ subtree finalPath fs' = subtree finalPath fs3).
  { unfold cleanupTempDirectory.
    destruct (existsSync (tmpDir_of chvmHome hex) fs3) eqn:Hex.
    - eexists. split; [reflexivity|]. split.
      + unfold tmpDir_of. destruct chvmHome; apply existsSync_rm.
      + apply subtree_rm, Hapart.
    - exists fs3. auto. }
  destruct Hclean as (fs' & Hrun & Hgone & Hkept).
  exists fs'. split; [|split; [|split]].
  - unfold atomicInstall, try_catch, bind at 1. rewrite Hmkdir.
    unfold bind at 1. rewrite Hpop. unfold bind at 1. rewrite Hmove, Hrun. reflexivity.
  - apply (mkdir_from_subtree finalPath [] (tmpDir_of chvmHome hex) fs (Return tt) fs1);
      [apply Hapart|exact Hmkdir].
  - exact Hgone.
  - exact Hkept.
Qed.

Lemma atomicInstall_success_witness :
  exists fs',
    atomicInstall write_test_file ["testDir"; "final.app"] ["testDir"] "00ff"
                  [(["testDir"], Dir)] = (Return tt, fs')
    /\ existsSync (tmpDir_of ["testDir"] "00ff") fs' = false.
Proof.
  destruct (atomicInstall_success write_test_file ["testDir"; "final.app"] ["testDir"] "00ff"
              [(["testDir"], Dir)]
              [(["testDir"], Dir); (["testDir"; "tmp"], Dir);
               (tmpDir_of ["testDir"] "00ff", Dir)]
              [(["testDir"], Dir); (["testDir"; "tmp"], Dir);
               (tmpDir_of ["testDir"] "00ff", Dir);
               (tmpDir_of ["testDir"] "00ff" ++ ["test.txt"], File "test")]
              [(["testDir"], Dir); (["testDir"; "tmp"], Dir);
               (["testDir"; "final.app"], Dir);
               (["testDir"; "final.app"; "test.txt"], File "test")]
              (tmpDir_of ["testDir"] "00ff"))
    as (fs' & Hrun & _ & Hgone & _).
  - split; intros [k Hk]; discriminate.
  - reflexivity.
  - reflexivity.
  - reflexivity.
  - exists fs'. split; [exact Hrun|exact Hgone].
Defined.

(** X18. [cleanupTempDirectory] never throws: afterwards the directory
    does not exist, every path outside it keeps its node, and a second
    call changes nothing. *)
Theorem cleanupTempDirectory_idempotent :
  forall (c : string) (tmpDir : Path) (fs : FS),
    exists fs',
      cleanupTempDirectory (c :: tmpDir) fs = (Return tt, fs')
      /\ existsSync (c :: tmpDir) fs' = false
      /\ (forall q, ¬ (c :: tmpDir) `prefix_of` q -> node_at fs' q = node_at fs q)
      /\ cleanupTempDirectory (c :: tmpDir) fs' = (Return tt, fs').
Proof.
  intros c tmpDir fs. unfold cleanupTempDirectory.
  destruct (existsSync (c :: tmpDir) fs) eqn:Hex.
  - eexists. split; [reflexivity|]. split; [apply existsSync_rm|]. split.
    + intros q Hq. destruct q as [|x q]; [reflexivity|].
      apply lookup_entry_rm_other, Hq.
    + rewrite existsSync_rm. reflexivity.
  - exists fs. split; [reflexivity|]. split; [exact Hex|]. split; [reflexivity|].
    rewrite Hex. reflexivity.
Qed.

(** ** lock.js: acquiring, asking and releasing *)

(** X19. While the lock is held (and before it can go stale) it excludes
    a second holder: after a successful [acquireLock], [isLocked] answers
    [true] and another [acquireLock] throws "Failed to acquire lock: Lock
    file is already being held" without changing anything; once the
    release function has run, [isLocked] answers [false] and the lock can
    be acquired again. *)
Theorem acquireLock_excludes :
  forall (chvmHome : Path) (options : LockOptions) (w w1 : LockWorld) (release : Handle),
    0 <= default 60000 (staleTimeout options) ->
    acquireLock chvmHome options w = (Return release, w1) ->
    isLocked chvmHome options w1 = true
    /\ acquireLock chvmHome options w1
       = (Throw (mkError "Failed to acquire lock: Lock file is already being held"), w1)
    /\ exists w2,
         releaseLock (ReleaseFn release) w1 = (Return tt, w2)
         /\ isLocked chvmHome options w2 = false
         /\ exists release' w3, acquireLock chvmHome options w2 = (Return release', w3).
Proof.
  intros chvmHome options w w1 release Hstale Hacq.
  destruct (acquireLock_steps _ _ _ _ _ Hacq) as (Hfile & Hrel & Hheld).
  assert (Hfresh : (now w1 <? now w1 - stale_of (default 60000 (staleTimeout options))) = false)
    by (apply Z.ltb_ge; unfold stale_of; lia).
  split; [|split].
  - unfold isLocked, lockfile_check. rewrite Hfile, Hheld. simpl. rewrite Hfresh. reflexivity.
  - unfold acquireLock, bind, try_catch, throw, lockfile_lock.
    rewrite Hfile. simpl negb. cbv beta iota. rewrite Hheld. simpl mtime.
    rewrite Hfresh. reflexivity.
  - eexists. split; [|split].
    + unfold releaseLock. apply (release_handle_held release w1 (now w1)).
      rewrite Hrel at 1. simpl. exact Hheld.
    + unfold isLocked, lockfile_check. simpl. rewrite Hrel. simpl.
      rewrite lookup_delete_eq. destruct (negb _); reflexivity.
    + unfold acquireLock, bind, try_catch, lockfile_lock, take_lock. simpl.
      rewrite Hfile, Hrel. simpl. rewrite lookup_delete_eq. eauto.
Qed.

Lemma acquireLock_excludes_witness :
  isLocked home (mkLockOptions None None)
    (acquireLock home (mkLockOptions None None) idle_machine).2 = true
  /\ acquireLock home (mkLockOptions None None)
       (acquireLock home (mkLockOptions None None) idle_machine).2
     = (Throw (mkError "Failed to acquire lock: Lock file is already being held"),
        (acquireLock home (mkLockOptions None None) idle_machine).2).
Proof.
  destruct (acquireLock_excludes home (mkLockOptions None None) idle_machine
              (acquireLock home (mkLockOptions None None) idle_machine).2
              (mkHandle (lockFile_of home) 0)) as (Hlocked & Hagain & _).
  - simpl. lia.
  - vm_compute. reflexivity.
  - split; [exact Hlocked|exact Hagain].
Defined.

(** X20. A lock that is free or stale is taken at once.  When the lock
    file is there and [isLocked] answers [false], there is no holder or
    the marker of the holder is older than the stale timeout, which counts
    for 2000 ms when it is set lower; [acquireLock] then returns at its
    first attempt, the marker is the one of this call, stamped with the
    time of the call, no file but that marker is touched and [isLocked]
    answers [true] right after.  A marker that is at most 2000 ms old is
    never taken for stale, whatever the stale timeout. *)
Theorem acquireLock_takes_free_or_stale :
  forall (chvmHome : Path) (options : LockOptions) (w : LockWorld),
    existsSync (lockFile_of chvmHome) (files w) = true ->
    (isLocked chvmHome options w = false <->
     match markers w !! lockFile_of chvmHome with
     | Some m => mtime m < now w - Z.max (default 60000 (staleTimeout options)) 2000
     | None => True
     end)
    /\ (isLocked chvmHome options w = false ->
        exists release w1,
          acquireLock chvmHome options w = (Return release, w1)
          /\ isLocked chvmHome options w1 = true
          /\ files w1 = files w
          /\ markers w1 = <[lockFile_of chvmHome := mkHeld (handle_id release) (now w)]> (markers w))
    /\ (forall m, markers w !! lockFile_of chvmHome = Some m ->
                  now w - mtime m <= 2000 ->
                  isLocked chvmHome options w = true).
Proof.
  intros chvmHome options w Hfile.
  assert (Hfresh : forall t, (t <? t - stale_of (default 60000 (staleTimeout options))) = false)
    by (intros t; apply Z.ltb_ge; unfold stale_of; lia).
  unfold isLocked, lockfile_check, acquireLock, bind, try_catch, throw, lockfile_lock, take_lock.
  rewrite Hfile. simpl negb. cbv beta iota. fold (stale_of (default 60000 (staleTimeout options))).
  destruct (markers w !! lockFile_of chvmHome) as [m|] eqn:Hm.
  - destruct (Z.ltb_spec (mtime m) (now w - stale_of (default 60000 (staleTimeout options))))
      as [Hold|Hlive]; cbn [negb].
    + split; [split; [intros _; exact Hold|reflexivity]|]. split.
      * intros _. do 2 eexists. split; [reflexivity|]. cbn [files markers now handle_id].
        rewrite Hfile, lookup_insert_eq. cbn [negb mtime]. rewrite Hfresh. auto.
      * intros m' [= <-] Hyoung. unfold stale_of in Hold. lia.
    + split; [split; [discriminate|intros Hold; lia]|]. split; [discriminate|reflexivity].
  - split; [split; trivial|]. split; [|discriminate].
    intros _. do 2 eexists. split; [reflexivity|]. cbn [files markers now handle_id].
    rewrite Hfile, lookup_insert_eq. cbn [negb mtime]. rewrite Hfresh. auto.
Qed.

Lemma acquireLock_takes_free_or_stale_witness :
  exists release w1,
    acquireLock home (mkLockOptions None (Some 1000))
      (mkLockWorld [(["home"], Dir); (lockFile_of home, File "{}")]
                   {[lockFile_of home := mkHeld 7 1000]} 5000 4242 8)
    = (Return release, w1)
    /\ isLocked home (mkLockOptions None (Some 1000)) w1 = true.
Proof.
  destruct (acquireLock_takes_free_or_stale home (mkLockOptions None (Some 1000))
              (mkLockWorld [(["home"], Dir); (lockFile_of home, File "{}")]
                           {[lockFile_of home := mkHeld 7 1000]} 5000 4242 8))
    as (_ & Htake & _); [reflexivity|].
  destruct Htake as (release & w1 & Hrun & Hlocked & _); [vm_compute; reflexivity|].
  exists release, w1. split; [exact Hrun|exact Hlocked].
Defined.

(** ** logger.js: levels and lines *)


Lemma read_level_own name l : Logger.LOG_LEVELS name = Some l -> Logger.read_level name = Some (Logger.Num l).
Proof. unfold Logger.read_level. intros ->. reflexivity. Qed.



(** X22. Logging never throws.  A message at or above the level in force,
    with the log directory in place, adds exactly one line
    [timestamp [level] message] and a newline at the end of the log file,
    which is created when missing; no other path changes.  When the line
    cannot be written (the log path is a directory) it is dropped
    silently. *)
Theorem log_appends_one_line :
  forall (logger : Logger.LoggerState) (timestamp name message : string) (l : Z) (fs : FS),
    Logger.LOG_LEVELS name = Some l ->
    (forall c, Logger.currentLevel logger = Logger.Num c -> c <= l) ->
    Logger.logFile logger <> [] ->
    node_at fs (parent (Logger.logFile logger)) = Some Dir ->
    (forall fs0 logLevel, (Logger.log logger timestamp logLevel message fs0).1 = Return tt)
    /\ exists fs',
         Logger.log logger timestamp name message fs = (Return tt, fs')
         /\ (forall q, q <> Logger.logFile logger -> node_at fs' q = node_at fs q)
         /\ node_at fs' (Logger.logFile logger)
            = match node_at fs (Logger.logFile logger) with
              | Some (File content) =>
                  Some (File (content +:+ (timestamp +:+ " [" +:+ name +:+ "] " +:+ message)
                                      +:+ Logger.newline))
              | None =>
                  Some (File ((timestamp +:+ " [" +:+ name +:+ "] " +:+ message)
                              +:+ Logger.newline))
              | Some Dir => Some Dir
              end.
Proof.
  intros logger timestamp name message l fs Hname Hlevel Hnamed Hparent. split.
  - intros fs0 logLevel. unfold Logger.log.
    destruct (Logger.less_than _ _); cbv zeta iota; [reflexivity|].
    destruct (FsMore.appendFileSync _ _ fs0) as [[?|?] ?]; reflexivity.
  - assert (Hlower : Logger.toLowerCase name = name).
    { revert Hname. unfold Logger.LOG_LEVELS.
      repeat (case_bool_decide; [intros _; subst name; vm_compute; reflexivity|]).
      intros [=]. }
    assert (Hpass : Logger.less_than (Logger.read_level name) (Logger.currentLevel logger) = false).
    { rewrite (read_level_own name l Hname).
      destruct (Logger.currentLevel logger) as [c|] eqn:Hcur; [|reflexivity].
      simpl. apply Z.ltb_ge, Hlevel. reflexivity. }
    unfold Logger.log. rewrite Hpass. cbv beta iota zeta.
    unfold Logger.formatLogMessage. rewrite Hlower.
    unfold FsMore.appendFileSync.
    destruct (Logger.logFile logger) as [|c p] eqn:Hfile; [contradiction|].
    rewrite Hparent.
    destruct (node_at fs (c :: p)) as [[content|]|] eqn:Hnode.
    + eexists. split; [reflexivity|]. split.
      * intros q Hq. apply node_at_write_other, Hq.
      * apply node_at_write_same.
    + exists fs. split; [reflexivity|]. split; [reflexivity|exact Hnode].
    + eexists. split; [reflexivity|]. split.
      * intros q Hq. apply node_at_write_other, Hq.
      * apply node_at_write_same.
Qed.

Lemma log_appends_one_line_witness :
  exists fs',
    Logger.log (Logger.mkLogger (Logger.Num 1) ["testDir"; "logs"; "chvm.log"])
               "2026-01-01T00:00:00.000Z" "info" "Test"
               [(["testDir"], Dir); (["testDir"; "logs"], Dir)]
    = (Return tt, fs')
    /\ node_at fs' ["testDir"; "logs"; "chvm.log"]
       = Some (File ("2026-01-01T00:00:00.000Z [info] Test" +:+ Logger.newline)).
Proof.
  destruct (log_appends_one_line (Logger.mkLogger (Logger.Num 1) ["testDir"; "logs"; "chvm.log"])
              "2026-01-01T00:00:00.000Z" "info" "Test" 1
              [(["testDir"], Dir); (["testDir"; "logs"], Dir)])
    as [_ (fs' & Hrun & _ & Hfile)];
    [reflexivity|intros c [= <-]; lia|discriminate|reflexivity|].
  exists fs'. split; [exact Hrun|exact Hfile].
Defined.

(** ** cli.js: the table of [chvm ls] *)







(** ** storage.js: the directory layout *)

Lemma lookup_entry_app p fs ext :
  lookup_entry p (fs ++ ext)
  = match lookup_entry p fs with Some n => Some n | None => lookup_entry p ext end.
Proof.
  induction fs as [|[q m] fs IH]; simpl; [destruct (lookup_entry p ext); reflexivity|].
  destruct (bool_decide (q = p)); [reflexivity|exact IH].
Qed.

Lemma keeps_app fs ext : Spec.keeps fs (fs ++ ext).
Proof.
  intros [|c q] n; [trivial|]. simpl. rewrite lookup_entry_app. intros ->. reflexivity.
Qed.

Lemma keeps_trans fs1 fs2 fs3 : Spec.keeps fs1 fs2 -> Spec.keeps fs2 fs3 -> Spec.keeps fs1 fs3.
Proof. intros H12 H23 q n H. apply H23, H12, H. Qed.

Lemma node_at_snoc_new fs q n : q <> [] -> node_at fs q = None -> node_at (fs ++ [(q, n)]) q = Some n.
Proof.
  destruct q as [|c q]; [contradiction|]. simpl. intros _ Hnone.
  rewrite lookup_entry_app, Hnone. simpl. rewrite bool_decide_eq_true_2; reflexivity.
Qed.

Lemma mkdir_from_keeps rest : forall pre fs c fs',
  mkdir_from pre rest fs = (c, fs') -> Spec.keeps fs fs'.
Proof.
  induction rest as [|c rest IH]; intros pre fs r fs'; cbn [mkdir_from].
  - intros [= _ <-] q n H. exact H.
  - cbv zeta. destruct (node_at fs (pre ++ [c])) as [[content|]|] eqn:Hq.
    + intros [= _ <-] q n H. exact H.
    + apply IH.
    + intros Hrun. eapply keeps_trans; [apply keeps_app|]. eapply IH, Hrun.
Qed.

Lemma mkdir_from_dirs rest : forall pre fs fs',
  mkdir_from pre rest fs = (Return tt, fs') ->
  forall k, (1 <= k <= length rest)%nat -> node_at fs' (pre ++ take k rest) = Some Dir.
Proof.
  induction rest as [|c rest IH]; intros pre fs fs'; cbn [mkdir_from].
  - intros _ k Hk. simpl in Hk. lia.
  - cbv zeta. intros Hrun k Hk. cbn [length] in Hk.
    assert (Hhere : exists fs1, mkdir_from (pre ++ [c]) rest fs1 = (Return tt, fs')
                                /\ node_at fs1 (pre ++ [c]) = Some Dir).
    { destruct (node_at fs (pre ++ [c])) as [[content|]|] eqn:Hq.
      - discriminate.
      - exists fs. split; [exact Hrun|exact Hq].
      - exists (fs ++ [(pre ++ [c], Dir)]). split; [exact Hrun|].
        apply node_at_snoc_new; [|exact Hq]. intros H. destruct pre; discriminate. }
    destruct Hhere as (fs1 & Hrest & Hdir).
    destruct k as [|k]; [lia|]. cbn [take].
    replace (pre ++ c :: take k rest) with ((pre ++ [c]) ++ take k rest)
      by (rewrite <- app_assoc; reflexivity).
    destruct k as [|k].
    + rewrite take_0, app_nil_r. eapply mkdir_from_keeps; [exact Hrest|exact Hdir].
    + apply (IH _ _ _ Hrest). lia.
Qed.

Lemma mkdir_from_noop rest : forall pre fs,
  (forall k, (1 <= k <= length rest)%nat -> node_at fs (pre ++ take k rest) = Some Dir) ->
  mkdir_from pre rest fs = (Return tt, fs).
Proof.
  induction rest as [|c rest IH]; intros pre fs Hdirs; cbn [mkdir_from]; [reflexivity|].
  cbv zeta. pose proof (Hdirs 1%nat ltac:(simpl; lia)) as Hhere.
  change (take 1 (c :: rest)) with [c] in Hhere.
  rewrite Hhere.
  apply IH. intros k Hk. rewrite <- app_assoc. apply (Hdirs (S k)). simpl. lia.
Qed.

Lemma all_dirs_node fs d : Spec.all_dirs fs d -> node_at fs d = Some Dir.
Proof.
  intros H. destruct d as [|c d]; [reflexivity|].
  rewrite <- (firstn_all (c :: d)). apply H. simpl. lia.
Qed.

Lemma for_each_mkdir_dirs (dirs : list Path) : forall fs fs',
  Storage.for_each mkdir_recursive dirs fs = (Return tt, fs') ->
  Spec.keeps fs fs' /\ forall d, d ∈ dirs -> Spec.all_dirs fs' d.
Proof.
  induction dirs as [|d dirs IH]; intros fs fs'; cbn [Storage.for_each].
  - intros [= <-]. split; [intros q n H; exact H|intros d Hd; inversion Hd].
  - unfold bind. destruct (mkdir_recursive d fs) as [[[]|e] fs1] eqn:Hmk; [|discriminate].
    intros Hrest. destruct (IH _ _ Hrest) as (Hkeep & Hdirs).
    pose proof (mkdir_from_keeps _ _ _ _ _ Hmk) as Hkeep1.
    split; [eapply keeps_trans; eassumption|].
    intros d' [->|Hin]%elem_of_cons; [|apply Hdirs, Hin].
    intros k Hk. apply Hkeep. apply (mkdir_from_dirs _ _ _ _ Hmk k Hk).
Qed.

Lemma for_each_mkdir_noop (dirs : list Path) fs :
  (forall d, d ∈ dirs -> Spec.all_dirs fs d) ->
  Storage.for_each mkdir_recursive dirs fs = (Return tt, fs).
Proof.
  induction dirs as [|d dirs IH]; intros Hdirs; cbn [Storage.for_each]; [reflexivity|].
  unfold bind, mkdir_recursive at 1. rewrite mkdir_from_noop.
  - apply IH. intros d' Hd'. apply Hdirs. right. exact Hd'.
  - apply (Hdirs d). left.
Qed.

(** X24. When [ensureChvmDir] returns, the home directory and its four
    subdirectories [installs], [profiles], [tmp] and [logs] are
    directories, everything that was on the disk before is still there
    with the same node, and calling it again changes nothing. *)
Theorem ensureChvmDir_layout :
  forall (chvmHome : Path) (fs fs' : FS),
    Storage.ensureChvmDir chvmHome fs = (Return tt, fs') ->
    (forall d, d ∈ Storage.chvm_dirs chvmHome -> node_at fs' d = Some Dir)
    /\ Spec.keeps fs fs'
    /\ Storage.ensureChvmDir chvmHome fs' = (Return tt, fs').
Proof.
  intros chvmHome fs fs' Hrun. unfold Storage.ensureChvmDir in *.
  destruct (for_each_mkdir_dirs _ _ _ Hrun) as (Hkeep & Hdirs).
  split; [|split].
  - intros d Hd. apply all_dirs_node, Hdirs, Hd.
  - exact Hkeep.
  - apply for_each_mkdir_noop, Hdirs.
Qed.

Lemma ensureChvmDir_layout_witness :
  Storage.ensureChvmDir ["home"; ".chvm"] [(["home"], Dir)]
  = (Return tt, [(["home"], Dir); (["home"; ".chvm"], Dir);
                 (["home"; ".chvm"; "installs"], Dir); (["home"; ".chvm"; "profiles"], Dir);
                 (["home"; ".chvm"; "tmp"], Dir); (["home"; ".chvm"; "logs"], Dir)])
  /\ Storage.ensureChvmDir ["home"; ".chvm"]
       [(["home"], Dir); (["home"; ".chvm"], Dir);
        (["home"; ".chvm"; "installs"], Dir); (["home"; ".chvm"; "profiles"], Dir);
        (["home"; ".chvm"; "tmp"], Dir); (["home"; ".chvm"; "logs"], Dir)]
     = (Return tt, [(["home"], Dir); (["home"; ".chvm"], Dir);
                    (["home"; ".chvm"; "installs"], Dir); (["home"; ".chvm"; "profiles"], Dir);
                    (["home"; ".chvm"; "tmp"], Dir); (["home"; ".chvm"; "logs"], Dir)]).
Proof.
  split; [reflexivity|].
  apply (ensureChvmDir_layout ["home"; ".chvm"] [(["home"], Dir)]). reflexivity.
Defined.

(** ** storage.js: the two JSON files *)

Lemma parent_snoc (p : Path) c : parent (p ++ [c]) = p.
Proof.
  unfold parent. rewrite length_app. simpl.
  replace (length p + 1 - 1)%nat with (length p) by lia.
  apply take_app_length.
Qed.

Lemma snoc_not_nil (p : Path) c : p ++ [c] <> [].
Proof. destruct p; discriminate. Qed.

(** [writeFile] goes through as soon as the parent is a directory and the
    path itself is not one. *)
Lemma writeFile_runs p c content fs :
  node_at fs p = Some Dir -> node_at fs (p ++ [c]) <> Some Dir ->
  exists fs', writeFile (p ++ [c]) content fs = (Return tt, fs').
Proof.
  intros Hparent Hnot. rewrite <- (parent_snoc p c) in Hparent.
  pose proof (snoc_not_nil p c) as Hnil. revert Hparent Hnot Hnil.
  generalize (p ++ [c]). intros [|x q] Hparent Hnot Hnil; [contradiction|].
  unfold writeFile. rewrite Hparent.
  destruct (node_at fs (x :: q)) as [[?|]|]; [eexists; reflexivity|contradiction|eexists; reflexivity].
Qed.

Lemma unbits_bits p : Spec.unbits (Spec.bits p) = Some p.
Proof. induction p as [p IH|p IH|]; simpl; [rewrite IH..|]; reflexivity. Qed.

Lemma binary_json_reads_back {T D : Type} `{Countable T} (to : D -> T) (from : T -> D) :
  (forall d, from (to d) = d) -> Spec.reads_back (Spec.binary_json to from).
Proof.
  intros Hinv d. unfold Spec.binary_json. simpl.
  rewrite unbits_bits. simpl. rewrite decode_encode. rewrite Hinv. reflexivity.
Qed.

Lemma sample_json_available_reads_back : Spec.reads_back Spec.sample_json_available.
Proof.
  apply binary_json_reads_back. intros d. rewrite <- list_fmap_compose.
  rewrite <- (list_fmap_id d) at 2. apply list_fmap_ext. intros _ [] _. reflexivity.
Qed.

Lemma sample_json_installed_reads_back : Spec.reads_back Spec.sample_json_installed.
Proof.
  apply binary_json_reads_back. intros d. rewrite <- map_fmap_compose.
  rewrite <- (map_fmap_id d) at 2. apply map_fmap_ext. intros _ [] _. reflexivity.
Qed.

Section StoreFacts.
Variable json_available : Storage.Json (list CatalogEntry).
Variable json_installed : Storage.Json (gmap string Storage.InstalledInfo).

Lemma readAvailableVersions_file chvmHome content fs :
  node_at fs (chvmHome ++ ["available.json"]) = Some (File content) ->
  Storage.readAvailableVersions json_available chvmHome fs
  = (Storage.parse json_available content, fs).
Proof.
  intros Hfile. unfold Storage.readAvailableVersions, existsSync, FsMore.readFile.
  rewrite Hfile. reflexivity.
Qed.

Lemma readInstalledVersions_file chvmHome content fs :
  node_at fs (chvmHome ++ ["installed.json"]) = Some (File content) ->
  Storage.readInstalledVersions json_installed chvmHome fs
  = (Storage.parse json_installed content, fs).
Proof.
  intros Hfile. unfold Storage.readInstalledVersions, existsSync, FsMore.readFile.
  rewrite Hfile. reflexivity.
Qed.

(** Reading looks at its own file only. *)
Lemma readInstalledVersions_local chvmHome fs fs' :
  node_at fs' (chvmHome ++ ["installed.json"]) = node_at fs (chvmHome ++ ["installed.json"]) ->
  (Storage.readInstalledVersions json_installed chvmHome fs').1
  = (Storage.readInstalledVersions json_installed chvmHome fs).1.
Proof.
  intros Hsame. unfold Storage.readInstalledVersions, existsSync, FsMore.readFile.
  rewrite Hsame. destruct (node_at fs _) as [[?|]|]; reflexivity.
Qed.

(** A table that can be read is not a directory, so it can be written. *)
Lemma readInstalledVersions_not_dir chvmHome fs m :
  Storage.readInstalledVersions json_installed chvmHome fs = (Return m, fs) ->
  node_at fs (chvmHome ++ ["installed.json"]) <> Some Dir.
Proof.
  unfold Storage.readInstalledVersions, existsSync, FsMore.readFile. intros Hread Hdir.
  rewrite Hdir in Hread. discriminate.
Qed.

(** Read, change, write: the step shared by adding and removing. *)
Lemma writeInstalledVersions_read_back chvmHome data fs :
  Spec.reads_back json_installed ->
  node_at fs chvmHome = Some Dir ->
  node_at fs (chvmHome ++ ["installed.json"]) <> Some Dir ->
  exists fs',
    Storage.writeInstalledVersions json_installed chvmHome data fs = (Return tt, fs')
    /\ Storage.readInstalledVersions json_installed chvmHome fs' = (Return data, fs')
    /\ node_at fs' chvmHome = Some Dir
    /\ forall q, q <> chvmHome ++ ["installed.json"] -> node_at fs' q = node_at fs q.
Proof.
  intros Hcodec Hhome Hnot. unfold Storage.writeInstalledVersions.
  destruct (writeFile_runs chvmHome "installed.json"
              (Storage.stringify json_installed data) fs Hhome Hnot) as (fs' & Hrun).
  exists fs'. split; [exact Hrun|].
  destruct (writeFile_success _ _ _ _ Hrun) as (Hfile & Hother).
  split; [|split; [|exact Hother]].
  - rewrite (readInstalledVersions_file _ _ _ Hfile), Hcodec. reflexivity.
  - rewrite Hother; [exact Hhome|].
    intros Heq. apply (f_equal length) in Heq. rewrite length_app in Heq. simpl in Heq. lia.
Qed.
End StoreFacts.

(** X25. A catalogue that was never written reads as the empty list.
    One that is written (the home directory being in place) is read back
    as it was given, and writing it leaves the table of installed versions
    as it reads. *)
Theorem writeAvailableVersions_read_back :
  forall (json_available : Storage.Json (list CatalogEntry))
         (json_installed : Storage.Json (gmap string Storage.InstalledInfo))
         (chvmHome : Path) (data : list CatalogEntry) (fs : FS),
    Spec.reads_back json_available ->
    node_at fs chvmHome = Some Dir ->
    node_at fs (chvmHome ++ ["available.json"]) <> Some Dir ->
    (node_at fs (chvmHome ++ ["available.json"]) = None ->
     Storage.readAvailableVersions json_available chvmHome fs = (Return [], fs))
    /\ exists fs',
         Storage.writeAvailableVersions json_available chvmHome data fs = (Return tt, fs')
         /\ Storage.readAvailableVersions json_available chvmHome fs' = (Return data, fs')
         /\ (Storage.readInstalledVersions json_installed chvmHome fs').1
            = (Storage.readInstalledVersions json_installed chvmHome fs).1.
Proof.
  intros json_available json_installed chvmHome data fs Hcodec Hhome Hnot. split.
  - intros Hnone. unfold Storage.readAvailableVersions, existsSync. rewrite Hnone. reflexivity.
  - unfold Storage.writeAvailableVersions.
    destruct (writeFile_runs chvmHome "available.json"
                (Storage.stringify json_available data) fs Hhome Hnot) as (fs' & Hrun).
    exists fs'. split; [exact Hrun|].
    destruct (writeFile_success _ _ _ _ Hrun) as (Hfile & Hother). split.
    + rewrite (readAvailableVersions_file _ _ _ _ Hfile), Hcodec. reflexivity.
    + apply readInstalledVersions_local, Hother.
      intros Heq. apply app_inj_tail in Heq as [_ Heq]. discriminate.
Qed.

Lemma writeAvailableVersions_read_back_witness :
  (node_at [(["home"], Dir)] (["home"] ++ ["available.json"]) = None ->
   Storage.readAvailableVersions Spec.sample_json_available ["home"] [(["home"], Dir)]
   = (Return [], [(["home"], Dir)]))
  /\ exists fs',
       Storage.writeAvailableVersions Spec.sample_json_available ["home"]
         [Spec.entry_93; Spec.entry_92] [(["home"], Dir)] = (Return tt, fs')
       /\ Storage.readAvailableVersions Spec.sample_json_available ["home"] fs'
          = (Return [Spec.entry_93; Spec.entry_92], fs')
       /\ (Storage.readInstalledVersions Spec.sample_json_installed ["home"] fs').1
          = (Storage.readInstalledVersions Spec.sample_json_installed ["home"] [(["home"], Dir)]).1.
Proof.
  apply (writeAvailableVersions_read_back Spec.sample_json_available Spec.sample_json_installed
           ["home"] [Spec.entry_93; Spec.entry_92] [(["home"], Dir)]).
  - exact sample_json_available_reads_back.
  - reflexivity.
  - discriminate.
Defined.

(** X26. The table of installed versions, on a disk where it can be read
    (as [installed], the empty table when the file is missing):
    [addInstalledVersion] stores the revision, the path, the time of the
    call and the size under the version, replacing what was there, and
    [removeInstalledVersion] erases the version; both keep the other
    versions and touch no file but [installed.json].  One version is not
    stored: under the name [__proto__], when the table has no such key, the
    assignment sets the prototype of the object and the table is written
    back as it was.  Removing a version right after adding it, when it was
    not installed before, gives back the table as it was. *)
Theorem installed_versions_add_remove :
  forall (json_installed : Storage.Json (gmap string Storage.InstalledInfo))
         (chvmHome : Path) (versionInfo : Storage.InstalledVersion) (now : string)
         (installed : gmap string Storage.InstalledInfo) (fs : FS),
    Spec.reads_back json_installed ->
    node_at fs chvmHome = Some Dir ->
    Storage.readInstalledVersions json_installed chvmHome fs = (Return installed, fs) ->
    (exists fs1,
        Storage.addInstalledVersion json_installed chvmHome versionInfo now fs = (Return tt, fs1)
        /\ (Storage.iv_version versionInfo <> "__proto__"
            \/ is_Some (installed !! Storage.iv_version versionInfo) ->
            Storage.readInstalledVersions json_installed chvmHome fs1
            = (Return (<[Storage.iv_version versionInfo := Spec.stored versionInfo now]> installed),
               fs1))
        /\ (Storage.iv_version versionInfo = "__proto__" ->
            installed !! Storage.iv_version versionInfo = None ->
            Storage.readInstalledVersions json_installed chvmHome fs1 = (Return installed, fs1))
        /\ (forall q, q <> chvmHome ++ ["installed.json"] -> node_at fs1 q = node_at fs q)
        /\ (installed !! Storage.iv_version versionInfo = None ->
            exists fs2,
              Storage.removeInstalledVersion json_installed chvmHome
                (Storage.iv_version versionInfo) fs1 = (Return tt, fs2)
              /\ Storage.readInstalledVersions json_installed chvmHome fs2
                 = (Return installed, fs2)))
    /\ (forall version, exists fs2,
          Storage.removeInstalledVersion json_installed chvmHome version fs = (Return tt, fs2)
          /\ Storage.readInstalledVersions json_installed chvmHome fs2
             = (Return (delete version installed), fs2)
          /\ (forall q, q <> chvmHome ++ ["installed.json"] -> node_at fs2 q = node_at fs q)).
Proof.
  intros json_installed chvmHome versionInfo now installed fs Hcodec Hhome Hread.
  pose proof (readInstalledVersions_not_dir _ _ _ _ Hread) as Hnot.
  assert (Hremove : forall version m fs0,
             node_at fs0 chvmHome = Some Dir ->
             Storage.readInstalledVersions json_installed chvmHome fs0 = (Return m, fs0) ->
             exists fs2,
               Storage.removeInstalledVersion json_installed chvmHome version fs0 = (Return tt, fs2)
               /\ Storage.readInstalledVersions json_installed chvmHome fs2
                  = (Return (delete version m), fs2)
               /\ (forall q, q <> chvmHome ++ ["installed.json"] -> node_at fs2 q = node_at fs0 q)).
  { intros version m fs0 Hhome0 Hread0.
    pose proof (readInstalledVersions_not_dir _ _ _ _ Hread0) as Hnot0.
    destruct (writeInstalledVersions_read_back json_installed chvmHome (delete version m) fs0
                Hcodec Hhome0 Hnot0) as (fs2 & Hwrite & Hback & _ & Hother).
    exists fs2. unfold Storage.removeInstalledVersion, bind. rewrite Hread0.
    split; [exact Hwrite|]. split; [exact Hback|exact Hother]. }
  split; [|intros version; apply Hremove; assumption].
  destruct (writeInstalledVersions_read_back json_installed chvmHome
              (Storage.assign (Storage.iv_version versionInfo) (Spec.stored versionInfo now)
                              installed) fs
              Hcodec Hhome Hnot) as (fs1 & Hwrite & Hback & Hhome1 & Hother).
  exists fs1. unfold Storage.addInstalledVersion, bind. rewrite Hread.
  split; [exact Hwrite|]. split; [|split; [|split; [exact Hother|]]].
  - intros Hstored. rewrite Hback. unfold Storage.assign.
    destruct (installed !! Storage.iv_version versionInfo) as [old|] eqn:Hold; [reflexivity|].
    destruct Hstored as [Hname|[old Hsome]]; [|discriminate].
    rewrite bool_decide_eq_false_2 by exact Hname. reflexivity.
  - intros Hname Hfresh. rewrite Hback. unfold Storage.assign.
    rewrite Hfresh, bool_decide_eq_true_2 by exact Hname. reflexivity.
  - intros Hfresh.
    destruct (Hremove (Storage.iv_version versionInfo) _ fs1 Hhome1 Hback) as (fs2 & Hrun & Hback2 & _).
    exists fs2. split; [exact Hrun|].
    rewrite Hback2. unfold Storage.assign. rewrite Hfresh.
    case_bool_decide.
    + rewrite delete_id by exact Hfresh. reflexivity.
    + rewrite delete_insert_id by exact Hfresh. reflexivity.
Qed.

Lemma installed_versions_add_remove_witness :
  exists fs1,
    Storage.addInstalledVersion Spec.sample_json_installed ["home"] Spec.chromium_92
      "2026-01-01T00:00:00.000Z" [(["home"], Dir)] = (Return tt, fs1)
    /\ Storage.readInstalledVersions Spec.sample_json_installed ["home"] fs1
       = (Return {[ "92.0.4515.159" := Spec.stored Spec.chromium_92 "2026-01-01T00:00:00.000Z" ]},
          fs1).
Proof.
  destruct (installed_versions_add_remove Spec.sample_json_installed ["home"] Spec.chromium_92
              "2026-01-01T00:00:00.000Z" ∅ [(["home"], Dir)])
    as [(fs1 & Hadd & Hread & _) _].
  - exact sample_json_installed_reads_back.
  - reflexivity.
  - reflexivity.
  - exists fs1. split; [exact Hadd|]. rewrite Hread by (left; discriminate).
    rewrite insert_empty. reflexivity.
Defined.

(** ** logger.js: rotating the log file *)

Lemma String_of_inj (a b : Z) : String_of a = String_of b -> a = b.
Proof.
  unfold String_of. intros Heq. apply DecimalZ.to_int_inj.
  assert (Hnot : forall n, Z.to_int n <> Decimal.Pos Decimal.Nil /\ Z.to_int n <> Decimal.Neg Decimal.Nil).
  { intros n. split; intros Hn; pose proof (f_equal Z.of_int Hn) as Hz;
      rewrite DecimalZ.of_to in Hz; simpl in Hz; subst n; vm_compute in Hn; discriminate. }
  pose proof (NilZero.isi (Z.to_int a) (proj1 (Hnot a)) (proj2 (Hnot a))) as Ha.
  pose proof (NilZero.isi (Z.to_int b) (proj1 (Hnot b)) (proj2 (Hnot b))) as Hb.
  rewrite Heq, Hb in Ha. injection Ha as ->. reflexivity.
Qed.

Lemma append_inj_r (a b c : string) : a +:+ b = a +:+ c -> b = c.
Proof.
  induction a as [|x a IH]; [trivial|]. rewrite !append_cons. intros [= H]. apply IH, H.
Qed.

Lemma append_longer (a b : string) : b <> "" -> a +:+ b <> a.
Proof.
  intros Hb Heq. apply (f_equal String.length) in Heq. rewrite length_append in Heq.
  destruct b; [contradiction|]. simpl in Heq. lia.
Qed.

Lemma prefix_same_length (p q : Path) : p `prefix_of` q -> length p = length q -> p = q.
Proof.
  intros [k ->] Hlen. rewrite length_app in Hlen.
  destruct k; [rewrite app_nil_r; reflexivity|simpl in Hlen; lia].
Qed.

Lemma siblings_apart (d : Path) (a b : string) :
  a <> b -> ¬ (d ++ [a]) `prefix_of` (d ++ [b]).
Proof.
  intros Hab Hpre. apply prefix_same_length in Hpre; [|rewrite !length_app; reflexivity].
  apply app_inj_tail in Hpre as [_ ->]. contradiction.
Qed.

Lemma child_not_above (d : Path) (a : string) : ¬ (d ++ [a]) `prefix_of` d.
Proof.
  intros Hpre. apply prefix_length in Hpre. rewrite length_app in Hpre. simpl in Hpre. lia.
Qed.

Lemma rotated_snoc (d : Path) (name : string) (i : Z) :
  Logger.rotated (d ++ [name]) i = d ++ [name +:+ "." +:+ String_of i].
Proof. unfold Logger.rotated. rewrite parent_snoc, last_snoc. reflexivity. Qed.

Lemma rotated_name_inj (name : string) (i j : Z) :
  name +:+ "." +:+ String_of i = name +:+ "." +:+ String_of j -> i = j.
Proof. intros H. apply append_inj_r, append_inj_r in H. apply String_of_inj, H. Qed.

Lemma rotated_name_fresh (name : string) (i : Z) : name +:+ "." +:+ String_of i <> name.
Proof. apply append_longer. discriminate. Qed.

Lemma lookup_entry_reroot_exact src dst fs :
  lookup_entry dst fs = None ->
  lookup_entry dst (reroot src dst <$> fs) = lookup_entry src fs.
Proof.
  induction fs as [|[r m] fs IH]; [reflexivity|]. simpl.
  destruct (bool_decide_reflect (r = dst)) as [->|Hrd]; [discriminate|]. intros Hnone.
  unfold reroot at 1. simpl.
  destruct (bool_decide_reflect (src `prefix_of` r)) as [[k ->]|Hsr]; simpl.
  - rewrite drop_app_length.
    destruct k as [|x k].
    + rewrite !app_nil_r, !bool_decide_eq_true_2 by reflexivity. reflexivity.
    + rewrite !bool_decide_eq_false_2; [apply IH, Hnone| |].
      * intros H. apply (f_equal length) in H. rewrite length_app in H. simpl in H. lia.
      * intros H. apply (f_equal length) in H. rewrite length_app in H. simpl in H. lia.
  - rewrite !bool_decide_eq_false_2; [apply IH, Hnone| |exact Hrd].
    intros ->. apply Hsr. reflexivity.
Qed.

Lemma lookup_entry_reroot_gone src dst fs :
  ¬ dst `prefix_of` src -> lookup_entry src (reroot src dst <$> fs) = None.
Proof.
  intros Hds. induction fs as [|[r m] fs IH]; [reflexivity|].
  rewrite fmap_cons. unfold reroot at 1. simpl.
  destruct (bool_decide_reflect (src `prefix_of` r)) as [Hsr|Hsr]; simpl.
  - rewrite bool_decide_eq_false_2; [exact IH|].
    intros H. apply Hds. rewrite <- H. apply prefix_app_r. reflexivity.
  - rewrite bool_decide_eq_false_2; [exact IH|].
    intros ->. apply Hsr. reflexivity.
Qed.

(** Renaming a regular file onto a name beside it that is free or held by
    a regular file: the content moves, the old name is gone, and nothing
    outside the two names changes. *)
Lemma rename_sibling_file (d : Path) (a b content : string) (fs : FS) :
  a <> b ->
  node_at fs d = Some Dir ->
  node_at fs (d ++ [a]) = Some (File content) ->
  node_at fs (d ++ [b]) <> Some Dir ->
  exists fs',
    rename (d ++ [a]) (d ++ [b]) fs = (Return tt, fs')
    /\ node_at fs' (d ++ [b]) = Some (File content)
    /\ node_at fs' (d ++ [a]) = None
    /\ forall q, ¬ (d ++ [a]) `prefix_of` q -> ¬ (d ++ [b]) `prefix_of` q ->
                 node_at fs' q = node_at fs q.
Proof.
  intros Hab Hd Ha Hb.
  pose proof (siblings_apart d a b Hab) as Hsd.
  pose proof (siblings_apart d b a (not_eq_sym Hab)) as Hds.
  assert (Hne : d ++ [a] <> d ++ [b]) by (intros H; apply app_inj_tail in H as [_ ->]; contradiction).
  pose proof (parent_snoc d b) as Hparent. rewrite <- Hparent in Hd.
  pose proof (snoc_not_nil d a) as Hna. pose proof (snoc_not_nil d b) as Hnb.
  revert Hsd Hds Hne Hd Ha Hb Hna Hnb. clear Hparent.
  generalize (d ++ [a]) (d ++ [b]). intros [|x src] [|y dst]; try contradiction.
  intros Hsd Hds Hne Hd Ha Hb _ _.
  unfold rename. rewrite Ha.
  rewrite bool_decide_eq_false_2 by exact Hne.
  rewrite bool_decide_eq_false_2 by exact Hsd.
  rewrite Hd.
  assert (Hmoved : forall fs0,
             lookup_entry (y :: dst) fs0 = None ->
             lookup_entry (x :: src) fs0 = Some (File content) ->
             (forall q, ¬ (y :: dst) `prefix_of` q -> node_at fs0 q = node_at fs q) ->
             node_at (reroot (x :: src) (y :: dst) <$> fs0) (y :: dst) = Some (File content)
             /\ node_at (reroot (x :: src) (y :: dst) <$> fs0) (x :: src) = None
             /\ forall q, ¬ (x :: src) `prefix_of` q -> ¬ (y :: dst) `prefix_of` q ->
                          node_at (reroot (x :: src) (y :: dst) <$> fs0) q = node_at fs q).
  { intros fs0 Hfree Hsrc Hsame. split; [|split].
    - simpl. rewrite lookup_entry_reroot_exact by exact Hfree. exact Hsrc.
    - simpl. apply lookup_entry_reroot_gone, Hds.
    - intros q Hq1 Hq2. rewrite <- (Hsame q Hq2). destruct q as [|z q]; [reflexivity|].
      simpl. apply lookup_entry_reroot_other; assumption. }
  destruct (node_at fs (y :: dst)) as [[old|]|] eqn:Hdst.
  - eexists. split; [reflexivity|]. apply Hmoved.
    + apply lookup_entry_rm.
    + rewrite lookup_entry_rm_other by exact Hds. exact Ha.
    + intros [|z q] Hq; [reflexivity|]. simpl. apply lookup_entry_rm_other, Hq.
  - contradiction.
  - eexists. split; [reflexivity|]. apply Hmoved; [exact Hdst|exact Ha|reflexivity].
Qed.

Lemma unlink_file (p : Path) (content : string) (fs : FS) :
  p <> [] -> node_at fs p = Some (File content) ->
  exists fs',
    FsMore.unlink p fs = (Return tt, fs')
    /\ node_at fs' p = None
    /\ forall q, q <> p -> node_at fs' q = node_at fs q.
Proof.
  intros Hp Hfile. unfold FsMore.unlink. rewrite Hfile. eexists. split; [reflexivity|].
  split.
  - destruct p as [|c p]; [contradiction|]. simpl. clear Hfile.
    induction fs as [|[r m] fs IH]; [reflexivity|].
    rewrite filter_cons. simpl. case_decide as Hr; [|exact IH].
    simpl. rewrite bool_decide_eq_false_2 by exact Hr. exact IH.
  - intros [|c q] Hq; [reflexivity|]. simpl. clear Hfile.
    induction fs as [|[r m] fs IH]; [reflexivity|].
    rewrite filter_cons. simpl. case_decide as Hr; simpl.
    + destruct (bool_decide (r = c :: q)); [reflexivity|exact IH].
    + rewrite bool_decide_eq_false_2; [exact IH|]. intros ->.
      apply Hq. exact Hr.
Qed.

Section RotateFacts.
Variable d : Path.
Variable name : string.
Variable maxFiles : Z.

Local Abbreviation rot i := (d ++ [name +:+ "." +:+ String_of i]).

Lemma rot_apart (i j : Z) : i <> j -> ¬ rot i `prefix_of` rot j.
Proof. intros Hij. apply siblings_apart. intros H. apply Hij, (rotated_name_inj name), H. Qed.

Lemma rot_not_log (i : Z) : ¬ rot i `prefix_of` (d ++ [name]).
Proof. apply siblings_apart, rotated_name_fresh. Qed.

Lemma log_not_rot (i : Z) : ¬ (d ++ [name]) `prefix_of` rot i.
Proof. apply siblings_apart, not_eq_sym, rotated_name_fresh. Qed.

(** The loop from [i] down: every rotated file at or below [i] moves up by
    one (the topmost one, number [maxFiles - 1], is deleted instead), so
    that number 1 is free at the end. *)
Lemma rotate_from_shifts (i : nat) : forall fs,
  node_at fs d = Some Dir ->
  (forall j, 1 <= j <= Z.of_nat i -> node_at fs (rot j) <> Some Dir) ->
  (i <> 0%nat -> Z.of_nat i <= maxFiles - 1) ->
  (i <> 0%nat -> Z.of_nat i = maxFiles - 1 \/ node_at fs (rot (Z.of_nat i + 1)) = None) ->
  exists fs',
    Logger.rotate_from (d ++ [name]) maxFiles i fs = (Return tt, fs')
    /\ (forall j, 1 <= j <= Z.of_nat i -> j < maxFiles - 1 ->
                  node_at fs' (rot (j + 1)) = node_at fs (rot j))
    /\ node_at fs' (rot 1) = match i with O => node_at fs (rot 1) | S _ => None end
    /\ (forall q, (forall j, 1 <= j <= Z.of_nat i + 1 -> j <= maxFiles - 1 ->
                             ¬ rot j `prefix_of` q) ->
                  node_at fs' q = node_at fs q).
Proof.
  induction i as [|k IH]; intros fs Hd Hfiles Hbound Hfree.
  - exists fs. split; [reflexivity|]. split; [intros j Hj; simpl in Hj; lia|].
    split; reflexivity.
  - specialize (Hbound ltac:(discriminate)). specialize (Hfree ltac:(discriminate)).
    set (iz := Z.of_nat (S k)) in *.
    assert (Hstep : exists fs1,
               (if existsSync (rot iz) fs
                then if iz =? maxFiles - 1 then FsMore.unlink (rot iz) fs
                     else rename (rot iz) (rot (iz + 1)) fs
                else (Return tt, fs)) = (Return tt, fs1)
               /\ node_at fs1 (rot iz) = None
               /\ (iz <> maxFiles - 1 -> node_at fs1 (rot (iz + 1)) = node_at fs (rot iz))
               /\ (forall q, ¬ rot iz `prefix_of` q ->
                             (iz <> maxFiles - 1 -> ¬ rot (iz + 1) `prefix_of` q) ->
                             node_at fs1 q = node_at fs q)).
    { unfold existsSync. destruct (node_at fs (rot iz)) as [[content|]|] eqn:Hold.
      - destruct (Z.eqb_spec iz (maxFiles - 1)) as [Htop|Htop].
        + destruct (unlink_file (rot iz) content fs (snoc_not_nil _ _) Hold)
            as (fs1 & Hrun & Hgone & Hother).
          exists fs1. split; [exact Hrun|]. split; [exact Hgone|].
          split; [intros H; contradiction|].
          intros q Hq _. apply Hother. intros ->. apply Hq. reflexivity.
        + destruct Hfree as [Hfree|Hfree]; [contradiction|].
          destruct (rename_sibling_file d (name +:+ "." +:+ String_of iz)
                      (name +:+ "." +:+ String_of (iz + 1)) content fs)
            as (fs1 & Hrun & Hnew & Hgone & Hother).
          * intros H. apply rotated_name_inj in H. lia.
          * exact Hd.
          * exact Hold.
          * rewrite Hfree. discriminate.
          * exists fs1. split; [exact Hrun|]. split; [exact Hgone|].
            split; [intros _; exact Hnew|].
            intros q Hq1 Hq2. apply Hother; [exact Hq1|apply Hq2, Htop].
      - destruct (Hfiles iz ltac:(unfold iz; lia) Hold).
      - exists fs. split; [reflexivity|]. split; [exact Hold|]. split; [|reflexivity].
        intros Htop. destruct Hfree as [Hfree|Hfree]; [contradiction|exact Hfree]. }
    destruct Hstep as (fs1 & Hrun1 & Hgone & Hmoved & Hother).
    assert (Hiz : Z.of_nat k + 1 = iz) by (unfold iz; lia).
    destruct (IH fs1) as (fs' & Hrun & Hshift & Hfirst & Hrest).
    + rewrite Hother; [exact Hd|apply child_not_above|intros _; apply child_not_above].
    + intros j Hj.
      rewrite Hother; [apply Hfiles; unfold iz; lia|apply rot_apart; lia
                      |intros _; apply rot_apart; lia].
    + intros _. lia.
    + intros _. right. rewrite Hiz. exact Hgone.
    + exists fs'. split; [|split; [|split]].
      * cbn [Logger.rotate_from]. unfold bind at 1. rewrite !rotated_snoc.
        fold iz. rewrite Hrun1. exact Hrun.
      * intros j Hj Hbelow. destruct (decide (j = iz)) as [->|Hne].
        -- rewrite Hrest; [apply Hmoved; lia|].
           intros j' Hj' _. apply rot_apart. lia.
        -- rewrite Hshift by lia.
           apply Hother; [apply rot_apart; lia|intros _; apply rot_apart; lia].
      * destruct k as [|k']; [|exact Hfirst].
        rewrite Hfirst. exact Hgone.
      * intros q Hq. rewrite Hrest.
        -- apply Hother; [apply Hq; lia|]. intros Htop. apply Hq; lia.
        -- intros j Hj Hj'. apply Hq; [lia|exact Hj'].
Qed.
End RotateFacts.

(** X27. Rotating a log file that is a regular file larger than [maxSize]
    (its directory in place, no directory among the rotated names that
    are in use, those numbered 1 to [maxFiles - 1]): the call returns, the
    log file is gone and its content is in [.1], every rotated file [.i]
    below number [maxFiles - 1] is now [.(i+1)], and no other path
    changes.  So what [.(maxFiles - 1)] held is dropped, and a name
    numbered [maxFiles] or more is left as it was. *)
Theorem rotateLogFile_shifts :
  forall (logFile : Path) (options : Logger.RotateOptions) (content : string) (fs : FS),
    logFile <> [] ->
    node_at fs logFile = Some (File content) ->
    Logger.maxSize options < Z.of_nat (String.length content) ->
    node_at fs (parent logFile) = Some Dir ->
    (forall i, 1 <= i <= Z.max 1 (Logger.maxFiles options - 1) ->
               node_at fs (Logger.rotated logFile i) <> Some Dir) ->
    exists fs',
      Logger.rotateLogFile logFile options fs = (Return tt, fs')
      /\ node_at fs' logFile = None
      /\ node_at fs' (Logger.rotated logFile 1) = Some (File content)
      /\ (forall i, 1 <= i < Logger.maxFiles options - 1 ->
                    node_at fs' (Logger.rotated logFile (i + 1))
                    = node_at fs (Logger.rotated logFile i))
      /\ (forall i, Z.max 1 (Logger.maxFiles options - 1) < i ->
                    node_at fs' (Logger.rotated logFile i)
                    = node_at fs (Logger.rotated logFile i))
      /\ (forall q, ¬ logFile `prefix_of` q ->
                    (forall i, 1 <= i <= Z.max 1 (Logger.maxFiles options - 1) ->
                               ¬ Logger.rotated logFile i `prefix_of` q) ->
                    node_at fs' q = node_at fs q).
Proof.
  intros logFile options content fs Hnamed.
  destruct logFile as [|name d _] using rev_ind; [contradiction|]. clear Hnamed.
  rewrite parent_snoc. setoid_rewrite rotated_snoc.
  intros Hlog Hsize Hd Hfiles.
  set (M := Logger.maxFiles options) in *.
  destruct (rotate_from_shifts d name M (Z.to_nat (M - 1)) fs Hd)
    as (fs1 & Hrun1 & Hshift & Hfirst & Hrest).
  - intros j Hj. apply Hfiles. lia.
  - intros Hpos. lia.
  - intros Hpos. left. lia.
  - assert (Hfree : node_at fs1 (d ++ [name +:+ "." +:+ String_of 1]) <> Some Dir).
    { rewrite Hfirst. destruct (Z.to_nat (M - 1)); [apply Hfiles; lia|discriminate]. }
    destruct (rename_sibling_file d name (name +:+ "." +:+ String_of 1) content fs1)
      as (fs' & Hrun & Hnew & Hgone & Hother).
    + apply not_eq_sym, rotated_name_fresh.
    + rewrite Hrest; [exact Hd|]. intros j _ _. apply child_not_above.
    + rewrite Hrest; [exact Hlog|]. intros j _ _. apply rot_not_log.
    + exact Hfree.
    + assert (Hothers : forall q, ¬ (d ++ [name]) `prefix_of` q ->
                 (forall i, 1 <= i <= Z.max 1 (M - 1) ->
                            ¬ (d ++ [name +:+ "." +:+ String_of i]) `prefix_of` q) ->
                 node_at fs' q = node_at fs q).
      { intros q Hlogq Hrotq. rewrite Hother; [|exact Hlogq|apply Hrotq; lia].
        apply Hrest. intros j Hj Hj'. apply Hrotq. lia. }
      exists fs'. split; [|split; [exact Hgone|split; [exact Hnew|split; [|split]]]].
      * unfold Logger.rotateLogFile. rewrite Hlog. cbn [st_size].
        rewrite (proj2 (Z.leb_gt _ _)) by exact Hsize.
        unfold bind. fold M. rewrite Hrun1, rotated_snoc. exact Hrun.
      * intros i Hi. rewrite Hother; [apply Hshift; lia|apply log_not_rot|apply rot_apart; lia].
      * intros i Hi. apply Hothers; [apply log_not_rot|].
        intros j Hj. apply rot_apart. lia.
      * exact Hothers.
Qed.

Lemma rotateLogFile_shifts_witness :
  exists fs',
    Logger.rotateLogFile ["logs"; "chvm.log"] (Logger.mkRotate 10 3)
      [(["logs"], Dir); (["logs"; "chvm.log"], File "a long enough log");
       (["logs"; "chvm.log.1"], File "older"); (["logs"; "chvm.log.2"], File "oldest");
       (["logs"; "chvm.log.3"], File "beyond")]
    = (Return tt, fs')
    /\ node_at fs' ["logs"; "chvm.log"] = None
    /\ node_at fs' ["logs"; "chvm.log.1"] = Some (File "a long enough log")
    /\ node_at fs' ["logs"; "chvm.log.2"] = Some (File "older")
    /\ node_at fs' ["logs"; "chvm.log.3"] = Some (File "beyond").
Proof.
  destruct (rotateLogFile_shifts ["logs"; "chvm.log"] (Logger.mkRotate 10 3) "a long enough log"
              [(["logs"], Dir); (["logs"; "chvm.log"], File "a long enough log");
               (["logs"; "chvm.log.1"], File "older"); (["logs"; "chvm.log.2"], File "oldest");
               (["logs"; "chvm.log.3"], File "beyond")])
    as (fs' & Hrun & Hgone & Hnew & Hshift & Hkept & _).
  - discriminate.
  - reflexivity.
  - simpl. lia.
  - reflexivity.
  - intros i Hi Hdir. apply lookup_entry_in in Hdir.
    rewrite !elem_of_cons, elem_of_nil in Hdir.
    destruct Hdir as [H|[H|[H|[H|[H|[]]]]]]; discriminate H.
  - exists fs'. split; [exact Hrun|]. split; [exact Hgone|]. split; [exact Hnew|].
    split; [exact (Hshift 1 ltac:(simpl; lia))|exact (Hkept 3 ltac:(simpl; lia))].
Defined.

(** ** logger.js: clearing the logs *)

Lemma path_split (p : Path) : p <> [] -> exists name, last p = Some name /\ p = parent p ++ [name].
Proof.
  destruct p as [|name d _] using rev_ind; [contradiction|]. intros _.
  exists name. rewrite last_snoc, parent_snoc. split; reflexivity.
Qed.

Lemma lookup_entry_is_in p n (fs : FS) : (p, n) ∈ fs -> is_Some (lookup_entry p fs).
Proof.
  induction fs as [|[q m] fs IH]; [intros H; inversion H|].
  intros [[= <- <-]|Hin]%elem_of_cons; simpl.
  - rewrite bool_decide_eq_true_2 by reflexivity. eexists. reflexivity.
  - destruct (bool_decide (q = p)); [eexists; reflexivity|apply IH, Hin].
Qed.

Lemma unlink_subset p fs fs' :
  FsMore.unlink p fs = (Return tt, fs') -> forall e, e ∈ fs' -> e ∈ fs.
Proof.
  unfold FsMore.unlink. destruct (node_at fs p) as [[?|]|]; try discriminate.
  intros [= <-] e He. apply list_elem_of_filter in He as [_ He]. exact He.
Qed.

Section ClearFacts.
Variable logsDir : Path.

Local Abbreviation entry_name :=
  (fun e : Path * Node => if bool_decide (e.1 <> [] /\ parent e.1 = logsDir)
                          then last e.1 else None).

Lemma entry_name_path e name : entry_name e = Some name -> e.1 = logsDir ++ [name].
Proof.
  cbv beta. case_bool_decide as He; [|discriminate]. destruct He as (Hne & <-).
  intros Hlast. destruct (path_split _ Hne) as (name' & Hlast' & Hsplit).
  rewrite Hlast in Hlast'. injection Hlast' as <-. exact Hsplit.
Qed.

Lemma entry_name_child name n : entry_name (logsDir ++ [name], n) = Some name.
Proof.
  cbv beta. simpl. rewrite bool_decide_eq_true_2.
  - apply last_snoc.
  - split; [apply snoc_not_nil|apply parent_snoc].
Qed.

(** The names [readdir] gives are the names of the entries right below
    the directory. *)
Lemma readdir_names (fs : FS) (name : string) :
  name ∈ omap entry_name fs <-> exists n, (logsDir ++ [name], n) ∈ fs.
Proof.
  rewrite list_elem_of_omap. split.
  - intros ([p n] & Hin & Hname). exists n.
    apply entry_name_path in Hname. simpl in Hname. subst p. exact Hin.
  - intros (n & Hin). exists (logsDir ++ [name], n). split; [exact Hin|apply entry_name_child].
Qed.

Lemma readdir_names_NoDup (fs : FS) : NoDup fs.*1 -> NoDup (omap entry_name fs).
Proof.
  induction fs as [|e fs IH]; [constructor|].
  rewrite fmap_cons. intros [Hfresh Hrest]%NoDup_cons.
  rewrite omap_step. pose proof (entry_name_path e) as Hpath. cbv beta in Hpath |- *.
  match goal with |- NoDup (match ?x with _ => _ end) => destruct x as [name|] end;
    [|apply IH, Hrest].
  constructor; [|apply IH, Hrest].
  intros (n & Hin)%readdir_names. apply Hfresh.
  rewrite (Hpath name eq_refl).
  apply list_elem_of_fmap. exists (logsDir ++ [name], n). split; [reflexivity|exact Hin].
Qed.

(** The loop of [clearLogs] over names that are all regular files. *)
Lemma unlink_all_files (names : list string) : forall fs : FS,
  NoDup names ->
  (forall name, name ∈ names -> exists content,
        node_at fs (logsDir ++ [name]) = Some (File content)) ->
  exists fs',
    Logger.unlink_all logsDir names fs = (Return tt, fs')
    /\ (forall name, name ∈ names -> node_at fs' (logsDir ++ [name]) = None)
    /\ (forall q, (forall name, name ∈ names -> q <> logsDir ++ [name]) ->
                  node_at fs' q = node_at fs q)
    /\ (forall e, e ∈ fs' -> e ∈ fs).
Proof.
  induction names as [|file rest IH]; intros fs Hnodup Hfiles.
  - exists fs. split; [reflexivity|]. split; [intros name H; inversion H|]. split; trivial.
  - apply NoDup_cons in Hnodup as [Hfresh Hnodup].
    destruct (Hfiles file ltac:(left)) as (content & Hfile).
    destruct (unlink_file _ content fs (snoc_not_nil _ _) Hfile) as (fs1 & Hrun1 & Hgone & Hother).
    destruct (IH fs1 Hnodup) as (fs' & Hrun & Hnone & Hrest & Hsub).
    { intros name Hname. destruct (Hfiles name ltac:(right; exact Hname)) as (c & Hc).
      exists c. rewrite Hother; [exact Hc|].
      intros Heq. apply app_inj_tail in Heq as [_ ->]. contradiction. }
    exists fs'. split; [|split; [|split]].
    + cbn [Logger.unlink_all]. unfold bind. rewrite Hrun1. exact Hrun.
    + intros name [->|Hname]%elem_of_cons; [|apply Hnone, Hname].
      destruct (decide (file ∈ rest)) as [Hin|Hout]; [contradiction|].
      rewrite Hrest; [exact Hgone|].
      intros name Hname Heq. apply app_inj_tail in Heq as [_ ->]. contradiction.
    + intros q Hq. rewrite Hrest.
      * apply Hother. apply Hq. left.
      * intros name Hname. apply Hq. right. exact Hname.
    + intros e He. eapply unlink_subset; [exact Hrun1|]. apply Hsub, He.
Qed.

(** The loop stops with an error as soon as a name is a directory. *)
Lemma unlink_all_directory (names : list string) : forall (fs : FS) (sub : string),
  sub ∈ names -> node_at fs (logsDir ++ [sub]) = Some Dir ->
  exists e fs', Logger.unlink_all logsDir names fs = (Throw e, fs').
Proof.
  induction names as [|file rest IH]; intros fs sub Hin Hdir; [inversion Hin|].
  cbn [Logger.unlink_all]. unfold bind.
  destruct (node_at fs (logsDir ++ [file])) as [[content|]|] eqn:Hfile.
  - destruct (unlink_file _ content fs (snoc_not_nil _ _) Hfile) as (fs1 & Hrun1 & _ & Hother).
    rewrite Hrun1. apply (IH fs1 sub).
    + apply elem_of_cons in Hin as [->|Hin]; [|exact Hin].
      rewrite Hfile in Hdir. discriminate.
    + rewrite Hother; [exact Hdir|]. intros Heq. rewrite Heq, Hfile in Hdir. discriminate.
  - unfold FsMore.unlink. rewrite Hfile. eexists _, _. reflexivity.
  - unfold FsMore.unlink. rewrite Hfile. eexists _, _. reflexivity.
Qed.
End ClearFacts.

Lemma lookup_entry_NoDup p n (fs : FS) : NoDup fs.*1 -> (p, n) ∈ fs -> lookup_entry p fs = Some n.
Proof.
  induction fs as [|[q m] fs IH]; [intros _ H; inversion H|].
  rewrite fmap_cons. intros [Hfresh Hrest]%NoDup_cons [[= <- <-]|Hin]%elem_of_cons; simpl.
  - rewrite bool_decide_eq_true_2 by reflexivity. reflexivity.
  - rewrite bool_decide_eq_false_2; [apply IH; assumption|].
    intros ->. apply Hfresh. apply list_elem_of_fmap. exists (p, n). split; [reflexivity|exact Hin].
Qed.

(** X28. [clearLogs] on a log directory that is in place (no path listed
    twice on the disk).  When nothing in it is a directory the call
    returns, the directory is still there and is empty, and every path
    that is not right below it keeps its node.  When something in it is a
    directory the call throws. *)
Theorem clearLogs_empties_or_throws :
  forall (chvmHome : Path) (fs : FS),
    NoDup fs.*1 ->
    node_at fs (chvmHome ++ ["logs"]) = Some Dir ->
    ((forall name, node_at fs ((chvmHome ++ ["logs"]) ++ [name]) <> Some Dir) ->
     exists fs',
       Logger.clearLogs chvmHome fs = (Return tt, fs')
       /\ FsMore.readdir (chvmHome ++ ["logs"]) fs' = Return []
       /\ forall q, parent q <> chvmHome ++ ["logs"] -> node_at fs' q = node_at fs q)
    /\ (forall name, node_at fs ((chvmHome ++ ["logs"]) ++ [name]) = Some Dir ->
        exists e fs', Logger.clearLogs chvmHome fs = (Throw e, fs')).
Proof.
  intros chvmHome fs Hnodup Hlogs.
  unfold Logger.clearLogs, existsSync, FsMore.readdir. cbv zeta. rewrite Hlogs. simpl negb. cbv iota.
  set (logsDir := chvmHome ++ ["logs"]) in *.
  split.
  - intros Hflat.
    destruct (unlink_all_files logsDir _ fs (readdir_names_NoDup logsDir fs Hnodup))
      as (fs' & Hrun & Hnone & Hrest & Hsub).
    { intros name (n & Hin)%readdir_names.
      pose proof (lookup_entry_NoDup _ _ _ Hnodup Hin) as Hnode.
      assert (Hat : node_at fs (logsDir ++ [name]) = Some n).
      { destruct (logsDir ++ [name]) as [|c p] eqn:Hp; [destruct (snoc_not_nil _ _ Hp)|exact Hnode]. }
      destruct n as [content|]; [exists content; exact Hat|destruct (Hflat name Hat)]. }
    exists fs'. split; [exact Hrun|]. split.
    + assert (Hdir : node_at fs' logsDir = Some Dir).
      { rewrite Hrest; [exact Hlogs|]. intros name _ Heq.
        apply (f_equal length) in Heq. rewrite length_app in Heq. simpl in Heq. lia. }
      rewrite Hdir. f_equal.
      match goal with |- ?l = [] => destruct l as [|name rest] eqn:Hnames end; [reflexivity|].
      assert (Hin : name ∈ name :: rest) by left.
      rewrite <- Hnames in Hin. apply readdir_names in Hin as (n & Hin).
      pose proof (lookup_entry_is_in _ _ _ Hin) as [n' Hfound].
      assert (Hgone : node_at fs' (logsDir ++ [name]) = None).
      { apply Hnone. apply readdir_names. exists n. apply Hsub, Hin. }
      destruct (logsDir ++ [name]) as [|c p] eqn:Hp; [destruct (snoc_not_nil _ _ Hp)|].
      simpl in Hgone. rewrite Hgone in Hfound. discriminate.
    + intros q Hq. apply Hrest. intros name _ ->. apply Hq, parent_snoc.
  - intros name Hdir. apply (unlink_all_directory logsDir _ fs name); [|exact Hdir].
    apply readdir_names. exists Dir.
    destruct (logsDir ++ [name]) as [|c p] eqn:Hp; [destruct (snoc_not_nil _ _ Hp)|].
    apply lookup_entry_in, Hdir.
Qed.

Lemma clearLogs_empties_or_throws_witness :
  exists fs',
    Logger.clearLogs ["home"]
      [(["home"], Dir); (["home"; "logs"], Dir); (["home"; "logs"; "chvm.log"], File "line");
       (["home"; "logs"; "chvm.log.1"], File "older"); (["home"; "installed.json"], File "{}")]
    = (Return tt, fs')
    /\ FsMore.readdir ["home"; "logs"] fs' = Return []
    /\ node_at fs' ["home"; "installed.json"] = Some (File "{}").
Proof.
  destruct (clearLogs_empties_or_throws ["home"]
              [(["home"], Dir); (["home"; "logs"], Dir); (["home"; "logs"; "chvm.log"], File "line");
               (["home"; "logs"; "chvm.log.1"], File "older"); (["home"; "installed.json"], File "{}")])
    as [Hflat _].
  - refine (bool_decide_unpack _ _). vm_compute. exact I.
  - reflexivity.
  - destruct Hflat as (fs' & Hrun & Hempty & Hrest).
    + intros name Hdir. apply lookup_entry_in in Hdir.
      rewrite !elem_of_cons, elem_of_nil in Hdir.
      destruct Hdir as [H|[H|[H|[H|[H|[]]]]]]; discriminate H.
    + exists fs'. split; [exact Hrun|]. split; [exact Hempty|].
      rewrite Hrest; [reflexivity|discriminate].
Defined.

(** ** installer.js: checking the app bundle *)

Lemma fix_permissions_spec (macOSDir : Path) (files : list string) : forall w : AppBundle.Disk,
  (forall name, name ∈ files -> is_Some (node_at (AppBundle.names w) (macOSDir ++ [name]))) ->
  exists w',
    AppBundle.fix_permissions macOSDir files w = (Return tt, w')
    /\ AppBundle.names w' = AppBundle.names w
    /\ (forall name content, name ∈ files ->
          node_at (AppBundle.names w) (macOSDir ++ [name]) = Some (File content) ->
          AppBundle.modes w' !! (macOSDir ++ [name]) = Some AppBundle.rwxr_xr_x)
    /\ (forall p, AppBundle.modes w' !! p <> AppBundle.modes w !! p ->
          AppBundle.modes w' !! p = Some AppBundle.rwxr_xr_x
          /\ exists name content, name ∈ files /\ p = macOSDir ++ [name]
               /\ node_at (AppBundle.names w) p = Some (File content)).
Proof.
  induction files as [|file rest IH]; intros w Hlisted.
  - exists w. split; [reflexivity|]. split; [reflexivity|].
    split; [intros name content H; inversion H|]. intros p Hp. contradiction.
  - cbn [AppBundle.fix_permissions]. cbv zeta.
    destruct (Hlisted file ltac:(left)) as [n Hnode]. rewrite Hnode.
    destruct n as [content|].
    + unfold bind, AppBundle.chmod. rewrite Hnode.
      set (w1 := AppBundle.mkDisk (AppBundle.names w)
                   (<[macOSDir ++ [file] := AppBundle.rwxr_xr_x]> (AppBundle.modes w))).
      destruct (IH w1) as (w' & Hrun & Hnames & Hset & Hchanged).
      { intros name Hname. apply Hlisted. right. exact Hname. }
      exists w'. split; [exact Hrun|]. split; [exact Hnames|].
      assert (Hhere : AppBundle.modes w' !! (macOSDir ++ [file]) = Some AppBundle.rwxr_xr_x).
      { destruct (decide (AppBundle.modes w' !! (macOSDir ++ [file])
                          = AppBundle.modes w1 !! (macOSDir ++ [file]))) as [Heq|Hne].
        - rewrite Heq. apply lookup_insert_eq.
        - apply Hchanged, Hne. }
      split.
      * intros name c [->|Hname]%elem_of_cons Hfile; [exact Hhere|].
        apply (Hset name c Hname Hfile).
      * intros p Hp.
        destruct (decide (AppBundle.modes w' !! p = AppBundle.modes w1 !! p)) as [Heq|Hne].
        -- destruct (decide (p = macOSDir ++ [file])) as [->|Hother].
           ++ split; [exact Hhere|]. exists file, content. split; [left|]. split; [reflexivity|exact Hnode].
           ++ rewrite Heq in Hp. simpl in Hp. rewrite lookup_insert_ne in Hp by congruence.
              contradiction.
        -- destruct (Hchanged p Hne) as (Hmode & name & c & Hname & Hpath & Hfile).
           split; [exact Hmode|]. exists name, c. split; [right; exact Hname|]. split; assumption.
    + destruct (IH w) as (w' & Hrun & Hnames & Hset & Hchanged).
      { intros name Hname. apply Hlisted. right. exact Hname. }
      exists w'. split; [exact Hrun|]. split; [exact Hnames|]. split.
      * intros name c [->|Hname]%elem_of_cons Hfile.
        -- rewrite Hnode in Hfile. discriminate.
        -- apply (Hset name c Hname Hfile).
      * intros p Hp. destruct (Hchanged p Hp) as (Hmode & name & c & Hname & Hpath & Hfile).
        split; [exact Hmode|]. exists name, c. split; [right; exact Hname|]. split; assumption.
Qed.

(** X29. [verifyAppBundle] never throws and never changes a name on the
    disk.  Its answer is true exactly when the bundle path,
    [Contents] and [Contents/MacOS] exist, whatever they are (not even
    [Contents/MacOS] being a regular file makes it false).  When the
    answer is true and [Contents/MacOS] is a directory, every regular
    file right below it ends with mode 755; no other mode changes. *)
Theorem verifyAppBundle_checks_presence :
  forall (appPath : Path) (w : AppBundle.Disk),
    exists w',
      AppBundle.verifyAppBundle appPath w
      = (Return (existsSync appPath (AppBundle.names w)
                 && existsSync (appPath ++ ["Contents"]) (AppBundle.names w)
                 && existsSync ((appPath ++ ["Contents"]) ++ ["MacOS"]) (AppBundle.names w)), w')
      /\ AppBundle.names w' = AppBundle.names w
      /\ (forall name content,
            existsSync appPath (AppBundle.names w) = true ->
            existsSync (appPath ++ ["Contents"]) (AppBundle.names w) = true ->
            node_at (AppBundle.names w) ((appPath ++ ["Contents"]) ++ ["MacOS"]) = Some Dir ->
            node_at (AppBundle.names w) (((appPath ++ ["Contents"]) ++ ["MacOS"]) ++ [name])
            = Some (File content) ->
            AppBundle.modes w' !! (((appPath ++ ["Contents"]) ++ ["MacOS"]) ++ [name])
            = Some AppBundle.rwxr_xr_x)
      /\ (forall p, AppBundle.modes w' !! p <> AppBundle.modes w !! p ->
            AppBundle.modes w' !! p = Some AppBundle.rwxr_xr_x
            /\ exists name content,
                 p = ((appPath ++ ["Contents"]) ++ ["MacOS"]) ++ [name]
                 /\ node_at (AppBundle.names w) p = Some (File content)).
Proof.
  intros appPath w. unfold AppBundle.verifyAppBundle. cbv zeta.
  set (macOSDir := (appPath ++ ["Contents"]) ++ ["MacOS"]).
  destruct (existsSync appPath (AppBundle.names w)) eqn:Happ; simpl negb; cbv iota;
    [|exists w; split; [reflexivity|]; split; [reflexivity|];
      split; [intros; discriminate|intros p Hp; contradiction]].
  destruct (existsSync (appPath ++ ["Contents"]) (AppBundle.names w)) eqn:Hcontents;
    simpl negb; cbv iota;
    [|exists w; split; [reflexivity|]; split; [reflexivity|];
      split; [intros; discriminate|intros p Hp; contradiction]].
  destruct (existsSync macOSDir (AppBundle.names w)) eqn:Hmac; simpl negb; cbv iota;
    [|exists w; split; [reflexivity|]; split; [reflexivity|]; split;
      [intros name content _ _ Hdir; unfold existsSync in Hmac; rewrite Hdir in Hmac; discriminate
      |intros p Hp; contradiction]].
  simpl andb. unfold bind at 1, try_catch, bind, FsMore.readdir.
  destruct (node_at (AppBundle.names w) macOSDir) as [[binary|]|] eqn:Hnode.
  - exists w. split; [reflexivity|]. split; [reflexivity|].
    split; [intros; discriminate|intros p Hp; contradiction].
  - match goal with
    | |- context [AppBundle.fix_permissions macOSDir ?files w] =>
        destruct (fix_permissions_spec macOSDir files w) as (w' & Hrun & Hnames & Hset & Hchanged)
    end.
    { intros name (n & Hin)%readdir_names.
      pose proof (lookup_entry_is_in _ _ _ Hin) as Hsome.
      destruct (macOSDir ++ [name]) as [|c p] eqn:Hp; [destruct (snoc_not_nil _ _ Hp)|exact Hsome]. }
    exists w'. rewrite Hrun. split; [reflexivity|]. split; [exact Hnames|]. split.
    + intros name content _ _ _ Hfile. apply (Hset name content); [|exact Hfile].
      apply readdir_names. exists (File content).
      destruct (macOSDir ++ [name]) as [|c p] eqn:Hp; [destruct (snoc_not_nil _ _ Hp)|].
      apply lookup_entry_in, Hfile.
    + intros p Hp. destruct (Hchanged p Hp) as (Hmode & name & c & _ & Hpath & Hfile).
      split; [exact Hmode|]. exists name, c. split; assumption.
  - unfold existsSync in Hmac. rewrite Hnode in Hmac. discriminate.
Qed.

(** ** installer.js: the size of a directory *)

Lemma total_of_plus {A : Type} (f g : A -> Z) (l : list A) :
  Spec.total_of (fun x => f x + g x) l = Spec.total_of f l + Spec.total_of g l.
Proof. induction l as [|x l IH]; simpl; [reflexivity|]. rewrite IH. lia. Qed.

Lemma total_of_ext {A : Type} (f g : A -> Z) (l : list A) :
  (forall x, x ∈ l -> f x = g x) -> Spec.total_of f l = Spec.total_of g l.
Proof.
  induction l as [|x l IH]; intros Hfg; simpl; [reflexivity|].
  rewrite (Hfg x) by left. rewrite IH; [reflexivity|].
  intros y Hy. apply Hfg. right. exact Hy.
Qed.

Lemma total_of_zero {A : Type} (f : A -> Z) (l : list A) :
  (forall x, x ∈ l -> f x = 0) -> Spec.total_of f l = 0.
Proof.
  induction l as [|x l IH]; intros Hf; simpl; [reflexivity|].
  rewrite (Hf x) by left. rewrite IH; [reflexivity|].
  intros y Hy. apply Hf. right. exact Hy.
Qed.

Lemma total_of_filter {A : Type} (P : A -> Prop) `{forall x, Decision (P x)} (f : A -> Z) (l : list A) :
  Spec.total_of f (filter P l) = Spec.total_of (fun x => if bool_decide (P x) then f x else 0) l.
Proof.
  induction l as [|x l IH]; [reflexivity|].
  rewrite filter_cons. simpl. case_bool_decide as Hx.
  - rewrite decide_True by exact Hx. simpl. rewrite IH. reflexivity.
  - rewrite decide_False by exact Hx. rewrite IH. lia.
Qed.

(** A sum with one non-zero term. *)
Lemma total_of_single (names : list string) (c0 : string) (s : Z) :
  NoDup names -> c0 ∈ names ->
  Spec.total_of (fun c => if bool_decide (c = c0) then s else 0) names = s.
Proof.
  induction names as [|c names IH]; intros Hnodup Hin; [inversion Hin|].
  apply NoDup_cons in Hnodup as [Hfresh Hnodup]. simpl.
  case_bool_decide as Hc.
  - subst c. rewrite total_of_zero; [lia|].
    intros x Hx. rewrite bool_decide_eq_false_2; [reflexivity|]. intros ->. contradiction.
  - apply elem_of_cons in Hin as [->|Hin]; [contradiction|]. rewrite IH by assumption. lia.
Qed.

Lemma total_of_entry (l : FS) (p : Path) (n : Node) (f : Path * Node -> Z) :
  NoDup l.*1 -> (p, n) ∈ l ->
  Spec.total_of (fun e => if bool_decide (e.1 = p) then f e else 0) l = f (p, n).
Proof.
  induction l as [|[q m] l IH]; intros Hnodup Hin; [inversion Hin|].
  rewrite fmap_cons in Hnodup. apply NoDup_cons in Hnodup as [Hfresh Hnodup]. simpl.
  case_bool_decide as Hq.
  - subst q. rewrite total_of_zero.
    + apply elem_of_cons in Hin as [[= <-]|Hin]; [lia|].
      destruct Hfresh. apply list_elem_of_fmap. exists (p, n). split; [reflexivity|exact Hin].
    + intros [r k] Hr. simpl. rewrite bool_decide_eq_false_2; [reflexivity|]. intros ->.
      apply Hfresh. apply list_elem_of_fmap. exists (p, k). split; [reflexivity|exact Hr].
  - apply elem_of_cons in Hin as [[= -> ->]|Hin]; [contradiction|].
    rewrite IH by assumption. lia.
Qed.

Lemma walk_each_total (visit : Path -> AppBundle.Walk) (p : Path) (g : string -> Z)
      (names : list string) :
  (forall c, c ∈ names -> forall t, visit (p ++ [c]) t = Some (Return tt, t + g c)) ->
  forall total,
    AppBundle.walk_each visit p names total = Some (Return tt, total + Spec.total_of g names).
Proof.
  induction names as [|c names IH]; intros Hvisit total.
  - simpl. rewrite Z.add_0_r. reflexivity.
  - cbn [AppBundle.walk_each]. rewrite (Hvisit c) by left.
    rewrite IH by (intros c' Hc'; apply Hvisit; right; exact Hc').
    simpl. do 2 f_equal. lia.
Qed.

Section SizeFacts.
Variable fs : FS.
Hypothesis Hwf : Spec.well_formed fs.

Lemma node_at_entry (q : Path) (n : Node) : (q, n) ∈ fs -> node_at fs q = Some n.
Proof.
  intros Hin. destruct Hwf as [Hnodup Hin_dir].
  destruct (Hin_dir q n Hin) as [Hq _]. destruct q as [|c q]; [contradiction|].
  apply lookup_entry_NoDup; assumption.
Qed.

Lemma entry_node_at (q : Path) (n : Node) : q <> [] -> node_at fs q = Some n -> (q, n) ∈ fs.
Proof. destruct q as [|c q]; [contradiction|]. intros _. apply lookup_entry_in. Qed.

(** Everything above an entry is a directory. *)
Lemma ancestors_dirs (j : nat) : forall (q : Path) (n : Node),
  (q, n) ∈ fs -> (S j < length q)%nat -> node_at fs (take (length q - S j) q) = Some Dir.
Proof.
  induction j as [|j IH]; intros q n Hin Hj.
  - destruct Hwf as [_ Hin_dir]. destruct (Hin_dir q n Hin) as [_ Hparent]. exact Hparent.
  - pose proof (IH q n Hin ltac:(lia)) as Hup.
    apply entry_node_at in Hup; [|intros H; apply (f_equal length) in H;
                                   rewrite length_take in H; simpl in H; lia].
    destruct Hwf as [_ Hin_dir]. destruct (Hin_dir _ _ Hup) as [_ Hparent].
    unfold parent in Hparent. rewrite length_take in Hparent.
    rewrite take_take in Hparent.
    match type of Hparent with
    | node_at _ (take ?k _) = _ => replace k with (length q - S (S j))%nat in Hparent by lia
    end.
    exact Hparent.
Qed.

Lemma above_is_dir (p : Path) (c : string) (k : Path) (n : Node) :
  (p ++ c :: k, n) ∈ fs -> p <> [] -> node_at fs p = Some Dir.
Proof.
  intros Hin Hp.
  pose proof (ancestors_dirs (length k) _ _ Hin) as Hup.
  rewrite length_app in Hup. simpl in Hup.
  replace (length p + S (length k) - S (length k))%nat with (length p) in Hup by lia.
  rewrite take_app_length in Hup. apply Hup.
  destruct p; [contradiction|]. simpl. lia.
Qed.

Lemma child_listed (p : Path) (c : string) (k : Path) (n : Node) :
  (p ++ c :: k, n) ∈ fs -> exists m, (p ++ [c], m) ∈ fs.
Proof.
  intros Hin. destruct k as [|c' k]; [exists n; exact Hin|].
  exists Dir. apply entry_node_at; [apply snoc_not_nil|].
  replace (p ++ c :: c' :: k) with ((p ++ [c]) ++ c' :: k) in Hin
    by (rewrite <- app_assoc; reflexivity).
  apply (above_is_dir _ _ _ _ Hin), snoc_not_nil.
Qed.

Local Abbreviation weight p :=
  (fun e : Path * Node => if bool_decide (p `prefix_of` e.1) then st_size e.2 else 0).

Lemma tree_size_weight (p : Path) : Spec.tree_size fs p = Spec.total_of (weight p) fs.
Proof. unfold Spec.tree_size, subtree. apply total_of_filter. Qed.

(** A regular file counts for its own size. *)
Lemma tree_size_file (p : Path) (content : string) :
  node_at fs p = Some (File content) -> Spec.tree_size fs p = st_size (File content).
Proof.
  intros Hfile. assert (Hp : p <> []) by (intros ->; discriminate).
  rewrite tree_size_weight.
  rewrite (total_of_ext _ (fun e => if bool_decide (e.1 = p) then st_size e.2 else 0)).
  - rewrite (total_of_entry fs p (File content)); [reflexivity|apply Hwf|].
    apply entry_node_at; assumption.
  - intros [q n] Hin. simpl.
    case_bool_decide as Hpre; case_bool_decide as Heq; try reflexivity.
    + destruct Hpre as [[|c k] ->]; [rewrite app_nil_r in Heq; contradiction|].
      rewrite (above_is_dir _ _ _ _ Hin Hp) in Hfile. discriminate.
    + destruct Hpre. rewrite Heq. reflexivity.
Qed.

(** A directory counts for what its entries count. *)
Lemma tree_size_dir (p : Path) :
  node_at fs p = Some Dir ->
  Spec.total_of (fun c => Spec.tree_size fs (p ++ [c]))
    (omap (fun e : Path * Node =>
             if bool_decide (e.1 <> [] /\ parent e.1 = p) then last e.1 else None) fs)
  = Spec.tree_size fs p.
Proof.
  intros Hdir.
  rewrite (total_of_ext _ (fun c => Spec.total_of (weight (p ++ [c])) fs))
    by (intros c _; apply tree_size_weight).
  rewrite tree_size_weight.
  assert (Hgen : forall l : FS, (forall e, e ∈ l -> e ∈ fs) ->
             Spec.total_of (fun c => Spec.total_of (weight (p ++ [c])) l)
               (omap (fun e : Path * Node =>
                        if bool_decide (e.1 <> [] /\ parent e.1 = p) then last e.1 else None) fs)
             = Spec.total_of (weight p) l).
  { induction l as [|[q n] l IH]; intros Hsub.
    - simpl. apply total_of_zero. reflexivity.
    - rewrite (total_of_ext _ (fun c => weight (p ++ [c]) (q, n)
                                        + Spec.total_of (weight (p ++ [c])) l))
        by (intros c _; reflexivity).
      rewrite (total_of_plus (fun c => weight (p ++ [c]) (q, n))
                             (fun c => Spec.total_of (weight (p ++ [c])) l)).
      rewrite IH by (intros e He; apply Hsub; right; exact He).
      change (Spec.total_of (weight p) ((q, n) :: l))
        with (weight p (q, n) + Spec.total_of (weight p) l).
      f_equal.
      assert (Hin : (q, n) ∈ fs) by (apply Hsub; left).
      cbn [fst snd]. case_bool_decide as Hpre.
      + destruct Hpre as [[|c0 k] ->].
        * rewrite app_nil_r in Hin. apply node_at_entry in Hin. rewrite Hdir in Hin.
          injection Hin as <-. apply total_of_zero. intros c _.
          destruct (bool_decide _); reflexivity.
        * destruct (child_listed _ _ _ _ Hin) as (m & Hchild).
          rewrite (total_of_ext _ (fun c => if bool_decide (c = c0) then st_size n else 0)).
          -- apply total_of_single.
             ++ apply readdir_names_NoDup, Hwf.
             ++ apply readdir_names. exists m. exact Hchild.
          -- intros c _. case_bool_decide as H1; case_bool_decide as H2; try reflexivity.
             ++ destruct H2. apply prefix_app_inv in H1.
                apply prefix_cons_inv_1 in H1. exact H1.
             ++ destruct H1. subst c. apply prefix_app, prefix_cons, prefix_nil.
      + apply total_of_zero. intros c _. rewrite bool_decide_eq_false_2; [reflexivity|].
        intros H. apply Hpre. etrans; [|exact H]. apply prefix_app_r. reflexivity. }
  apply Hgen. trivial.
Qed.

Lemma traverse_total (depth : nat) : forall (p : Path) (total : Z),
  depth <> 0%nat ->
  is_Some (node_at fs p) ->
  (forall q, q ∈ fs.*1 -> (length q < length p + depth)%nat) ->
  AppBundle.traverse fs depth p total = Some (Return tt, total + Spec.tree_size fs p).
Proof.
  induction depth as [|depth IH]; intros p total Hdepth [n Hnode] Hbound; [contradiction|].
  cbn [AppBundle.traverse]. rewrite Hnode. destruct n as [content|].
  - rewrite (tree_size_file p content Hnode). reflexivity.
  - unfold FsMore.readdir. rewrite Hnode. rewrite <- (tree_size_dir p Hnode).
    apply walk_each_total. intros c (m & Hchild)%readdir_names t.
    assert (Hlisted : (p ++ [c]) ∈ fs.*1)
      by (apply list_elem_of_fmap; exists (p ++ [c], m); split; [reflexivity|exact Hchild]).
    apply IH.
    + pose proof (Hbound _ Hlisted) as Hlen. rewrite length_app in Hlen. simpl in Hlen. lia.
    + exists m. apply node_at_entry, Hchild.
    + intros q Hq. pose proof (Hbound q Hq) as Hlen. rewrite length_app. simpl. lia.
Qed.
End SizeFacts.

(** X30. On a disk as a file system presents it, [calculateDirectorySize]
    of a path that exists returns the sum of the sizes of the regular
    files at or below it (directories count for nothing), as soon as the
    depth allowed exceeds the depth of the disk below that path. *)
Theorem calculateDirectorySize_sums :
  forall (depth : nat) (dirPath : Path) (fs : FS),
    Spec.well_formed fs ->
    existsSync dirPath fs = true ->
    depth <> 0%nat ->
    (forall q, q ∈ fs.*1 -> (length q < length dirPath + depth)%nat) ->
    AppBundle.calculateDirectorySize depth dirPath fs = Some (Return (Spec.tree_size fs dirPath)).
Proof.
  intros depth dirPath fs Hwf Hexists Hdepth Hbound.
  unfold AppBundle.calculateDirectorySize. rewrite Hexists. simpl negb. cbv iota.
  rewrite (traverse_total fs Hwf depth dirPath 0 Hdepth); [reflexivity| |exact Hbound].
  unfold existsSync in Hexists. destruct (node_at fs dirPath) as [n|]; [exists n; reflexivity|discriminate].
Qed.

Lemma calculateDirectorySize_sums_witness :
  AppBundle.calculateDirectorySize 4 ["Chromium.app"] Spec.bundle_disk = Some (Return 11).
Proof.
  apply (calculateDirectorySize_sums 4 ["Chromium.app"] Spec.bundle_disk).
  - split.
    + refine (bool_decide_unpack _ _). vm_compute. exact I.
    + intros q n Hin. unfold Spec.bundle_disk in Hin.
      rewrite !elem_of_cons, elem_of_nil in Hin.
      destruct Hin as [H|[H|[H|[H|[H|[H|[]]]]]]]; injection H as -> ->;
        (split; [discriminate|reflexivity]).
  - reflexivity.
  - discriminate.
  - intros q Hq. unfold Spec.bundle_disk in Hq. simpl in Hq.
    rewrite !elem_of_cons, elem_of_nil in Hq.
    destruct Hq as [->|[->|[->|[->|[->|[->|[]]]]]]]; simpl; lia.
Defined.
